(** * WasmCode: compiled-code management of the wasm engine

    A shallow embedding of [js/src/wasm/WasmCode.h]: code segments and their
    bump allocator, the function-to-code-range map, the double-buffered
    [ThreadSafeCodeBlockMap], the jump tables and the tier-2 handshake of
    [Code], followed by the properties the specification states about them.

    Conventions.
    - A pointer is its address, a [Z]; [nullptr] is [0].  Pointer arithmetic
      inside one allocation is integer arithmetic on addresses.
    - [uint32_t] and [size_t] values are [Z]s; every operation that can wrap
      is written with its reduction ([u32], [usize]).
    - Indices into vectors are [nat]s.
    - A function returns an [outcome]: its value, or the way the process
      stops ([MOZ_ASSERT] in a DEBUG build, [MOZ_RELEASE_ASSERT] and
      [oom.crash] in every build, an out-of-bounds access, a spin loop that
      nobody can end). *)

From stdpp Require Import base option list sorting gmap.
From Equations Require Import Equations.
From Stdlib Require Import ZArith Lia.

Local Open Scope Z_scope.

(** ** Build configuration and outcomes *)

Inductive WordSize : Type := W32 | W64.

(** [DEBUG] is the preprocessor symbol; [WORD] is the width of [size_t] and of
    pointers on the target. *)
Class Build : Type := { DEBUG : bool; WORD : WordSize }.

Definition SIZE_BITS `{Build} : Z :=
  match WORD with W32 => 32 | W64 => 64 end.

Definition UINT32_MAX : Z := 2 ^ 32 - 1.

Definition u32 (z : Z) : Z := z mod 2 ^ 32.
Definition usize `{Build} (z : Z) : Z := z mod 2 ^ SIZE_BITS.

Definition is_u32 (z : Z) : Prop := 0 ≤ z ≤ UINT32_MAX.
Definition is_size_t `{Build} (z : Z) : Prop := 0 ≤ z < 2 ^ SIZE_BITS.

Inductive outcome (A : Type) : Type :=
| Ok (a : A)
| AssertFail
| Crash
| Undefined
| Spin.
Arguments Ok {A} a.
Arguments AssertFail {A}.
Arguments Crash {A}.
Arguments Undefined {A}.
Arguments Spin {A}.

#[global] Instance outcome_ret : MRet outcome := λ A a, Ok a.
#[global] Instance outcome_bind : MBind outcome := λ A B f m,
  match m with
  | Ok a => f a
  | AssertFail => AssertFail
  | Crash => Crash
  | Undefined => Undefined
  | Spin => Spin
  end.

Definition MOZ_ASSERT `{Build} (c : bool) : outcome unit :=
  if DEBUG then (if c then Ok () else AssertFail) else Ok ().

Definition MOZ_RELEASE_ASSERT (c : bool) : outcome unit :=
  if c then Ok () else Crash.

(** ** CodeSegment *)

Module CodeSegment.

Record t : Type := mk {
  bytes_ : Z;
  lengthBytes_ : Z;
  capacityBytes_ : Z
}.

Definition base (s : t) : Z := bytes_ s.

Definition lengthBytes `{Build} (s : t) : outcome Z :=
  _ ← MOZ_ASSERT (negb (lengthBytes_ s =? UINT32_MAX));
  Ok (lengthBytes_ s).

Definition capacityBytes `{Build} (s : t) : outcome Z :=
  _ ← MOZ_ASSERT (negb (capacityBytes_ s =? UINT32_MAX));
  Ok (capacityBytes_ s).

Section Alloc.
Context `{Build}.
(** [AlignBytes] and [gc::SystemPageSize] are declared outside this
    header; the rounding [AlignBytesNeeded] performs is a parameter. *)
Variable AlignBytesNeeded : Z → Z.

Definition hasSpace (bytes : Z) (s : t) : outcome bool :=
  _ ← MOZ_ASSERT (AlignBytesNeeded bytes =? bytes);
  cap ← capacityBytes s;
  if bytes <=? cap then
    cap' ← capacityBytes s;
    Ok (lengthBytes_ s <=? usize (cap' - bytes))
  else Ok false.

(** [claimSpace] returns the claimed base (the out-parameter) and the
    segment after the bump. *)
Definition claimSpace (bytes : Z) (s : t) : outcome (Z * t) :=
  ok ← hasSpace bytes s;
  _ ← MOZ_RELEASE_ASSERT ok;
  let claimedBase := base s + lengthBytes_ s in
  Ok (claimedBase,
      mk (bytes_ s) (u32 (usize (lengthBytes_ s + bytes))) (capacityBytes_ s)).

(** A run of claims on one segment, as the owner of a lazy-stub segment
    issues them: each claim yields the sub-range it was given. *)
Fixpoint claimAll (sizes : list Z) (s : t) : outcome (list (Z * Z) * t) :=
  match sizes with
  | [] => Ok ([], s)
  | n :: rest =>
      '(b, s1) ← claimSpace n s;
      '(rs, s2) ← claimAll rest s1;
      Ok ((b, n) :: rs, s2)
  end.
End Alloc.

(** The data invariant of a segment. *)
Definition wf (s : t) : Prop :=
  is_u32 (lengthBytes_ s) ∧ is_u32 (capacityBytes_ s) ∧
  lengthBytes_ s ≤ capacityBytes_ s.

(** Half-open byte ranges [(b, n)] = [b, b + n). *)
Definition disjoint (r1 r2 : Z * Z) : Prop :=
  r1.1 + r1.2 ≤ r2.1 ∨ r2.1 + r2.2 ≤ r1.1.

Definition within (s : t) (r : Z * Z) : Prop :=
  base s ≤ r.1 ∧ r.1 + r.2 ≤ base s + capacityBytes_ s.

Fixpoint pairwise_disjoint (rs : list (Z * Z)) : Prop :=
  match rs with
  | [] => True
  | r :: rest => Forall (disjoint r) rest ∧ pairwise_disjoint rest
  end.

(** Ranges that follow one another from [start] without a gap. *)
Fixpoint contiguousFrom (start : Z) (rs : list (Z * Z)) : Prop :=
  match rs with
  | [] => True
  | r :: rest => r.1 = start ∧ contiguousFrom (start + r.2) rest
  end.

Definition total (sizes : list Z) : Z := foldr Z.add 0 sizes.

End CodeSegment.

(** ** FuncToCodeRangeMap *)

Definition BAD_CODE_RANGE : Z := UINT32_MAX.

Module FuncToCodeRangeMap.

Record t : Type := mk {
  startFuncIndex_ : Z;
  funcToCodeRange_ : list Z
}.

(** The default-constructed map. *)
Definition empty : t := mk 0 [].

(** [funcIndex - startFuncIndex_] is a [uint32_t] subtraction. *)
Definition slot (funcIndex : Z) (m : t) : Z := u32 (funcIndex - startFuncIndex_ m).

Definition denseHasFuncIndex (funcIndex : Z) (m : t) : bool :=
  (startFuncIndex_ m <=? funcIndex) &&
  (slot funcIndex m <? Z.of_nat (length (funcToCodeRange_ m))).

(** [appendN] may run out of memory; [allocOk] tells whether it does not. *)
Definition createDense (allocOk : bool) (startFuncIndex : Z) (numFuncs : Z)
  : option t :=
  if allocOk
  then Some (mk startFuncIndex (replicate (Z.to_nat numFuncs) BAD_CODE_RANGE))
  else None.

Definition lookup (funcIndex : Z) (m : t) : Z :=
  if denseHasFuncIndex funcIndex m
  then default BAD_CODE_RANGE (funcToCodeRange_ m !! Z.to_nat (slot funcIndex m))
  else BAD_CODE_RANGE.

Definition insert (funcIndex codeRangeIndex : Z) (m : t) : bool * t :=
  if denseHasFuncIndex funcIndex m
  then (true, mk (startFuncIndex_ m)
                 (<[Z.to_nat (slot funcIndex m) := codeRangeIndex]> (funcToCodeRange_ m)))
  else (false, m).

Definition insertInfallible (funcIndex codeRangeIndex : Z) (m : t) : outcome t :=
  let '(result, m') := insert funcIndex codeRangeIndex m in
  _ ← MOZ_RELEASE_ASSERT result;
  Ok m'.

(** The loop of assertions exists under [#ifdef DEBUG] only. *)
Fixpoint assertEach `{Build} (entries : list Z) : outcome unit :=
  match entries with
  | [] => Ok ()
  | codeRangeIndex :: rest =>
      _ ← MOZ_ASSERT (negb (codeRangeIndex =? BAD_CODE_RANGE));
      assertEach rest
  end.

Definition assertAllInitialized `{Build} (m : t) : outcome unit :=
  if DEBUG then assertEach (funcToCodeRange_ m) else Ok ().

Definition numEntries (m : t) : Z := Z.of_nat (length (funcToCodeRange_ m)).

(** No slot of [m] holds the sentinel. *)
Definition allInitialized (m : t) : Prop :=
  Forall (λ codeRangeIndex, codeRangeIndex ≠ BAD_CODE_RANGE) (funcToCodeRange_ m).

(** The generator fills the map one function at a time. *)
Fixpoint insertAll (entries : list (Z * Z)) (m : t) : outcome t :=
  match entries with
  | [] => Ok m
  | (funcIndex, codeRangeIndex) :: rest =>
      m' ← insertInfallible funcIndex codeRangeIndex m;
      insertAll rest m'
  end.

(** The code-range index that [entries], taken in order, store last for
    [funcIndex], if they store any. *)
Fixpoint lastInserted (funcIndex : Z) (entries : list (Z * Z)) : option Z :=
  match entries with
  | [] => None
  | (f, codeRangeIndex) :: rest =>
      match lastInserted funcIndex rest with
      | Some later => Some later
      | None => if decide (f = funcIndex) then Some codeRangeIndex else None
      end
  end.

End FuncToCodeRangeMap.

(** ** CodeBlock *)

Inductive CodeBlockKind : Type :=
| SharedStubs | BaselineTier | OptimizedTier | LazyStubs.

(** [Tier] is declared in another header; this one names its enumerators
    [Baseline] and [Optimized] and compares tiers for equality. *)
Class Tiers : Type := {
  Tier : Type;
  Baseline : Tier;
  Optimized : Tier;
  Tier_eq_dec :: EqDecision Tier
}.

Module CodeBlock.

(** The fields the operations below read or write.  [code] is the weak
    back-reference ([0] while unset); a code range is kept as its
    [(begin, end)] offsets.  The call-site, trap-site, stack-map and
    try-note tables play no part here. *)
Record t : Type := mk {
  code : Z;
  kind : CodeBlockKind;
  codeBase : Z;
  codeLength : Z;
  funcToCodeRange : FuncToCodeRangeMap.t;
  codeRanges : list (Z * Z);
  unregisterOnDestroy_ : bool
}.

(** [explicit CodeBlock(CodeBlockKind kind)]; the other members are
    default-initialised and filled in by the generator. *)
Definition create (k : CodeBlockKind) (cbase clen : Z)
    (f2r : FuncToCodeRangeMap.t) (ranges : list (Z * Z)) : t :=
  mk 0 k cbase clen f2r ranges false.

Definition initialized (cb : t) : bool := negb (code cb =? 0).

Definition base (cb : t) : Z := codeBase cb.

(** [uint32_t length() const { return codeLength; }] narrows a [size_t]. *)
Definition length (cb : t) : Z := u32 (codeLength cb).

Definition containsCodePC (pc : Z) (cb : t) : bool :=
  (base cb <=? pc) && (pc <? base cb + length cb).

Fixpoint rangesSorted (ranges : list (Z * Z)) : bool :=
  match ranges with
  | r1 :: ((r2 :: _) as rest) => (r1.1 <=? r2.1) && rangesSorted rest
  | _ => true
  end.

(** Modelled from the spec: section 7 lists "unfilled function-to-range
    slots" among the invariant violations, each of which is "always a
    programmer-error fatal assertion, never propagated as a recoverable
    error": a check that stops the process in every build. *)
Definition fatalAssertion (holds : bool) : outcome unit :=
  if holds then Ok () else AssertFail.

(** Modelled from the spec: [CodeBlock::initialize] is only declared in
    this header (its body lives in WasmCode.cpp).  Section 4.2 says that
    it "binds the weak back-reference and asserts internal invariants
    (every function slot filled, ranges sorted)"; section 2 has the block
    registered in the process-wide map, which is the step that can fail,
    and [registered] tells whether it went through. *)
Definition initialize (registered : bool) (owner : Z) (cb : t)
  : outcome (bool * t) :=
  let cb1 := mk owner (kind cb) (codeBase cb) (codeLength cb)
                (funcToCodeRange cb) (codeRanges cb) (unregisterOnDestroy_ cb) in
  _ ← fatalAssertion
        (forallb (λ codeRangeIndex, negb (codeRangeIndex =? BAD_CODE_RANGE))
           (FuncToCodeRangeMap.funcToCodeRange_ (funcToCodeRange cb1)));
  _ ← fatalAssertion (rangesSorted (codeRanges cb1));
  if registered
  then Ok (true, mk owner (kind cb) (codeBase cb) (codeLength cb)
                    (funcToCodeRange cb) (codeRanges cb) true)
  else Ok (false, cb1).

Definition kindFromTier `{Build} `{Tiers} (tier : Tier) : outcome CodeBlockKind :=
  if decide (tier = Optimized) then Ok OptimizedTier
  else
    _ ← MOZ_ASSERT (bool_decide (tier = Baseline));
    Ok BaselineTier.

(** [MOZ_CRASH] for the kinds that hold stubs. *)
Definition tier `{Tiers} (cb : t) : outcome Tier :=
  match kind cb with
  | BaselineTier => Ok Baseline
  | OptimizedTier => Ok Optimized
  | _ => Crash
  end.

End CodeBlock.

(** ** Library pieces the map is built from *)

(** An index past the end of a vector: [MOZ_ASSERT] stops a DEBUG build; any
    other build reads or writes outside the buffer. *)
Definition outOfBounds `{Build} {A : Type} : outcome A :=
  if DEBUG then AssertFail else Undefined.

(** [MOZ_ALWAYS_TRUE(e)] and [MOZ_ALWAYS_FALSE(e)] evaluate [e] in every
    build and check it where assertions are compiled in. *)
Definition MOZ_ALWAYS_TRUE `{Build} (e : bool) : outcome unit := MOZ_ASSERT e.
Definition MOZ_ALWAYS_FALSE `{Build} (e : bool) : outcome unit := MOZ_ASSERT (negb e).

Module Vector.

(** Modelled from the spec: [mozilla::Vector] is declared in mfbt, outside
    this header.  Section 4.3 has the writer "binary-search-insert (or
    erase)" at a position of the array, and section 7 has the insertion
    fail under memory pressure; [allocOk] tells whether the growth the
    insertion needs is granted.  A failed insertion leaves the vector as it
    was. *)
Definition insert `{Build} {A : Type} (allocOk : bool) (i : nat) (x : A)
    (v : list A) : outcome (option (list A)) :=
  if (i <=? length v)%nat
  then Ok (if allocOk then Some (take i v ++ x :: drop i v) else None)
  else outOfBounds.

Definition erase `{Build} {A : Type} (i : nat) (v : list A) : outcome (list A) :=
  if (i <? length v)%nat then Ok (delete i v) else outOfBounds.

Definition at_ `{Build} {A : Type} (i : nat) (v : list A) : outcome A :=
  match v !! i with
  | Some x => Ok x
  | None => outOfBounds
  end.

End Vector.

Definition midpoint (low high : nat) : nat := low + (high - low) / 2.

(** Modelled from the spec: [mozilla::BinarySearchIf] is declared in mfbt,
    outside this header.  Section 4.3 has both the reader and the writers
    "binary-search" the array with the three-way comparator [CodeBlockPC];
    the call sites fix the interface: the bounds [aBegin], [aEnd], a
    comparator that answers [0] on a match, a negative number when the match
    lies to the left and a positive one when it lies to the right, and the
    pair of the found flag and the match-or-insertion point.  The loop
    bisects [low, high) until it is empty. *)
Equations? BinarySearchIf {A : Type} (aContainer : list A) (low high : nat)
    (aCompare : A → Z) : outcome (bool * nat) by wf (high - low)%nat lt :=
  BinarySearchIf aContainer low high aCompare with decide (high = low) := {
    | left _ => Ok (false, low)
    | right _ with decide (low < high)%nat := {
      | right _ => Undefined
      | left _ with aContainer !! midpoint low high := {
        | None => Undefined
        | Some x with Z.compare (aCompare x) 0 := {
          | Eq => Ok (true, midpoint low high)
          | Lt => BinarySearchIf aContainer low (midpoint low high) aCompare
          | Gt => BinarySearchIf aContainer (midpoint low high + 1)%nat high aCompare
          }
        }
      }
    }.
Proof.
  all: unfold midpoint;
    pose proof (Nat.div_mod_eq (high - low) 2);
    pose proof (Nat.mod_upper_bound (high - low) 2); lia.
Qed.

(** [idx] splits [c]: the comparator points right before it, left from it. *)
Definition splits {A : Type} (cmp : A → Z) (c : list A) (idx : nat) : Prop :=
  (∀ j x, (j < idx)%nat → c !! j = Some x → 0 < cmp x) ∧
  (∀ j x, (idx ≤ j)%nat → c !! j = Some x → cmp x < 0).

(** The comparator never points left and then right again. *)
Definition monotone {A : Type} (cmp : A → Z) (c : list A) : Prop :=
  ∀ i j x y, (i ≤ j)%nat → c !! i = Some x → c !! j = Some y →
    (cmp x < 0 → cmp y < 0) ∧ (0 < cmp y → 0 < cmp x).

(** ** ThreadSafeCodeBlockMap *)

Module ThreadSafeCodeBlockMap.

(** The two vectors a [RawCodeBlockVector*] of the map can point to. *)
Inductive Segments : Type := Segments1 | Segments2.

(** A [const CodeBlock*] stored in a vector is modelled by the block it
    points to: blocks are immutable once registered. *)
Record t : Type := mk {
  mutatorsMutex_ : bool;
  segments1_ : list CodeBlock.t;
  segments2_ : list CodeBlock.t;
  mutableCodeBlocks_ : Segments;
  readonlyCodeBlocks_ : Segments;
  numActiveLookups_ : Z
}.

Definition create : t := mk false [] [] Segments1 Segments2 0.

Definition deref (p : Segments) (m : t) : list CodeBlock.t :=
  match p with Segments1 => segments1_ m | Segments2 => segments2_ m end.

Definition assign (p : Segments) (v : list CodeBlock.t) (m : t) : t :=
  match p with
  | Segments1 => mk (mutatorsMutex_ m) v (segments2_ m) (mutableCodeBlocks_ m)
                    (readonlyCodeBlocks_ m) (numActiveLookups_ m)
  | Segments2 => mk (mutatorsMutex_ m) (segments1_ m) v (mutableCodeBlocks_ m)
                    (readonlyCodeBlocks_ m) (numActiveLookups_ m)
  end.

Definition setMutex (held : bool) (m : t) : t :=
  mk held (segments1_ m) (segments2_ m) (mutableCodeBlocks_ m)
     (readonlyCodeBlocks_ m) (numActiveLookups_ m).

Definition setNumActiveLookups (n : Z) (m : t) : t :=
  mk (mutatorsMutex_ m) (segments1_ m) (segments2_ m) (mutableCodeBlocks_ m)
     (readonlyCodeBlocks_ m) n.

(** [LockGuard<Mutex>]: taking a mutex that is held blocks the caller. *)
Definition lock (m : t) : outcome t :=
  if mutatorsMutex_ m then Spin else Ok (setMutex true m).
Definition unlock (m : t) : t := setMutex false m.

Definition CodeBlockPC (pc : Z) (cb : CodeBlock.t) : Z :=
  if CodeBlock.containsCodePC pc cb then 0
  else if pc <? CodeBlock.base cb then -1
  else 1.

(** [readonlyCodeBlocks_.exchange(mutableCodeBlocks_)], its result stored
    in [mutableCodeBlocks_]. *)
Definition swapped (m : t) : t :=
  mk (mutatorsMutex_ m) (segments1_ m) (segments2_ m)
     (readonlyCodeBlocks_ m) (mutableCodeBlocks_ m) (numActiveLookups_ m).

(** The exchange, then the wait for the observers to leave.  No other
    thread runs in this model, so a counter above zero stays there. *)
Definition swapAndWait (m : t) : outcome t :=
  let m' := swapped m in
  if 0 <? numActiveLookups_ m' then Spin else Ok m'.

Section Operations.
Context `{Build}.
(** [CodeBlock::lookupRange] is declared here and defined elsewhere; it
    yields a [const CodeRange*], kept as an address. *)
Variable lookupRange : CodeBlock.t → Z → Z.

Definition search (v : list CodeBlock.t) (pc : Z) : outcome (bool * nat) :=
  BinarySearchIf v 0 (length v) (CodeBlockPC pc).

(** [insert] up to and including [swapAndWait]: either the early
    [return false], or the map with the grown vector published and the
    index of the insertion. *)
Definition insertFirst (alloc1 : bool) (cs : CodeBlock.t) (m : t)
  : outcome (t + t * nat) :=
  m ← lock m;
  '(found, index) ← search (deref (mutableCodeBlocks_ m) m) (CodeBlock.base cs);
  _ ← MOZ_ALWAYS_FALSE found;
  r ← Vector.insert alloc1 index cs (deref (mutableCodeBlocks_ m) m);
  match r with
  | None => Ok (inl (unlock m))
  | Some v =>
      m ← swapAndWait (assign (mutableCodeBlocks_ m) v m);
      Ok (inr (m, index))
  end.

Definition insertSecond (alloc2 : bool) (cs : CodeBlock.t) (index : nat)
    (m : t) : outcome (t * bool) :=
  _ ← (if DEBUG then
         '(found, otherIndex) ←
           search (deref (mutableCodeBlocks_ m) m) (CodeBlock.base cs);
         _ ← MOZ_ALWAYS_FALSE found;
         MOZ_ASSERT (index =? otherIndex)%nat
       else Ok ());
  r ← Vector.insert alloc2 index cs (deref (mutableCodeBlocks_ m) m);
  match r with
  | None => Crash
  | Some v => Ok (unlock (assign (mutableCodeBlocks_ m) v m), true)
  end.

Definition insert (alloc1 alloc2 : bool) (cs : CodeBlock.t) (m : t)
  : outcome (t * bool) :=
  r ← insertFirst alloc1 cs m;
  match r with
  | inl m' => Ok (m', false)
  | inr (m', index) => insertSecond alloc2 cs index m'
  end.

Definition removeFirst (cs : CodeBlock.t) (m : t) : outcome (t * nat * nat) :=
  m ← lock m;
  '(found, index) ← search (deref (mutableCodeBlocks_ m) m) (CodeBlock.base cs);
  _ ← MOZ_ALWAYS_TRUE found;
  v ← Vector.erase index (deref (mutableCodeBlocks_ m) m);
  let newCodeBlockCount := length v in
  m ← swapAndWait (assign (mutableCodeBlocks_ m) v m);
  Ok (m, index, newCodeBlockCount).

Definition removeSecond (cs : CodeBlock.t) (index newCodeBlockCount : nat)
    (m : t) : outcome (t * nat) :=
  _ ← (if DEBUG then
         '(found, otherIndex) ←
           search (deref (mutableCodeBlocks_ m) m) (CodeBlock.base cs);
         _ ← MOZ_ALWAYS_TRUE found;
         MOZ_ASSERT (index =? otherIndex)%nat
       else Ok ());
  v ← Vector.erase index (deref (mutableCodeBlocks_ m) m);
  Ok (unlock (assign (mutableCodeBlocks_ m) v m), newCodeBlockCount).

Definition remove (cs : CodeBlock.t) (m : t) : outcome (t * nat) :=
  '(m', index, newCodeBlockCount) ← removeFirst cs m;
  removeSecond cs index newCodeBlockCount m'.

(** [lookup pc codeRange]: [wantRange] tells whether [codeRange] was
    passed.  The result is the map, the block found ([None] is
    [nullptr]) and what was stored through [codeRange], if anything
    ([Some 0] is a stored [nullptr]). *)
Definition lookup (wantRange : bool) (pc : Z) (m : t)
  : outcome (t * option CodeBlock.t * option Z) :=
  let m := setNumActiveLookups (usize (numActiveLookups_ m + 1)) m in
  let readonly := deref (readonlyCodeBlocks_ m) m in
  '(found, index) ← search readonly pc;
  '(result, stored) ←
    (if found : bool then
       result ← Vector.at_ index readonly;
       Ok (Some result, if wantRange then Some (lookupRange result pc) else None)
     else
       Ok (None, if wantRange then Some 0 else None));
  _ ← MOZ_ASSERT (0 <? numActiveLookups_ m);
  Ok (setNumActiveLookups (usize (numActiveLookups_ m - 1)) m, result, stored).

End Operations.

(** The order the map keeps: each block ends where or before the next one
    starts. *)
Definition before (a b : CodeBlock.t) : Prop :=
  CodeBlock.base a + CodeBlock.length a ≤ CodeBlock.base b.

Definition sortedDisjoint (v : list CodeBlock.t) : Prop :=
  StronglySorted before v.

Definition apart (a b : CodeBlock.t) : Prop := before a b ∨ before b a.

(** Between two operations: nobody holds the mutex or looks up, the two
    pointers name different vectors, the vectors hold the same blocks. *)
Record quiescent (m : t) : Prop := {
  q_mutex : mutatorsMutex_ m = false;
  q_lookups : numActiveLookups_ m = 0;
  q_pointers : mutableCodeBlocks_ m ≠ readonlyCodeBlocks_ m;
  q_same : segments1_ m = segments2_ m
}.

(** [cs] can go to position [idx] of [v]. *)
Definition fits (cs : CodeBlock.t) (v : list CodeBlock.t) (idx : nat) : Prop :=
  (∀ j x, (j < idx)%nat → v !! j = Some x → before x cs) ∧
  (∀ j x, (idx ≤ j)%nat → v !! j = Some x → before cs x).

(** The map once both vectors hold [v] and the pointers are exchanged. *)
Definition settled (v : list CodeBlock.t) (m : t) : t :=
  mk false v v (readonlyCodeBlocks_ m) (mutableCodeBlocks_ m) 0.

(** The map between the two mutations: the new vector is published, the
    old one is private, the mutex is held. *)
Definition published (v : list CodeBlock.t) (m : t) : t :=
  swapped (assign (mutableCodeBlocks_ m) v (setMutex true m)).

(** The first block of [v] that contains [pc], by a scan from the left. *)
Definition blockContaining (pc : Z) (v : list CodeBlock.t) : option CodeBlock.t :=
  List.find (CodeBlock.containsCodePC pc) v.

(** What [lookup] stores through a requested [codeRange] for the block it
    returns. *)
Definition storedFor (lookupRange : CodeBlock.t → Z → Z) (wantRange : bool)
    (pc : Z) (result : option CodeBlock.t) : option Z :=
  if wantRange
  then Some (match result with Some cb => lookupRange cb pc | None => 0 end)
  else None.

(** Registering blocks one after the other, memory being granted. *)
Fixpoint insertAll `{Build} (blocks : list CodeBlock.t) (m : t) : outcome t :=
  match blocks with
  | [] => Ok m
  | cs :: rest =>
      '(m', inserted) ← insert true true cs m;
      if inserted : bool then insertAll rest m' else Ok m'
  end.

Fixpoint pairwiseApart (blocks : list CodeBlock.t) : Prop :=
  match blocks with
  | [] => True
  | cs :: rest => Forall (apart cs) rest ∧ pairwiseApart rest
  end.

End ThreadSafeCodeBlockMap.

(** ** Code: metadata lookup by program counter *)

Module CodeLookup.

Section Lookups.
Context `{Build}.
(** The lookups of [CodeBlock] are declared in this header and defined
    elsewhere; each yields a pointer, kept as an address.
    [CodeRange::isFunction] belongs to another header. *)
Variable lookupRange : CodeBlock.t → Z → Z.
Variable blockLookupCallSite : CodeBlock.t → Z → Z.
Variable isFunction : Z → bool.

(** [Code::lookupCallSite], on the [blockMap_] member. *)
Definition lookupCallSite (pc : Z) (blockMap : ThreadSafeCodeBlockMap.t)
  : outcome (ThreadSafeCodeBlockMap.t * Z) :=
  '(blockMap, block, _) ← ThreadSafeCodeBlockMap.lookup lookupRange false pc blockMap;
  match block with
  | None => Ok (blockMap, 0)
  | Some block => Ok (blockMap, blockLookupCallSite block pc)
  end.

(** [Code::lookupFuncRange] *)
Definition lookupFuncRange (pc : Z) (blockMap : ThreadSafeCodeBlockMap.t)
  : outcome (ThreadSafeCodeBlockMap.t * Z) :=
  '(blockMap, block, _) ← ThreadSafeCodeBlockMap.lookup lookupRange false pc blockMap;
  match block with
  | None => Ok (blockMap, 0)
  | Some block =>
      let result := lookupRange block pc in
      if negb (result =? 0) && isFunction result
      then Ok (blockMap, result)
      else Ok (blockMap, 0)
  end.

End Lookups.

End CodeLookup.

(** ** JumpTables *)

(** [CompileMode] is declared in WasmCompileArgs.h; this header names only
    its enumerator [Tier1] and compares modes for equality. *)
Class CompileModes : Type := {
  CompileMode : Type;
  Tier1 : CompileMode;
  CompileMode_eq_dec :: EqDecision CompileMode
}.

Module JumpTables.

(** [UniquePtr<void*[]>]: where the array lives and the pointers it holds.
    The null table lives at [0] and has no slot. *)
Record TablePointer : Type := mkTable { addr : Z; slots : list Z }.

Definition nullTable : TablePointer := mkTable 0 [].

Record t {M : CompileModes} : Type := mk {
  mode_ : CompileMode;
  tiering_ : TablePointer;
  jit_ : TablePointer;
  numFuncs_ : Z
}.
Arguments mk {M} _ _ _ _.

(** A raw array carries no bounds check of its own. *)
Definition inRange (i : Z) (tp : TablePointer) : bool :=
  (0 <=? i) && (i <? Z.of_nat (length (slots tp))).

Definition load (i : Z) (tp : TablePointer) : outcome Z :=
  if inRange i tp
  then match slots tp !! Z.to_nat i with
       | Some v => Ok v
       | None => Undefined
       end
  else Undefined.

Definition store (i v : Z) (tp : TablePointer) : outcome TablePointer :=
  if inRange i tp
  then Ok (mkTable (addr tp) (<[Z.to_nat i := v]> (slots tp)))
  else Undefined.

Section Operations.
Context `{Build} `{CompileModes}.

(** The size of a pointer, which is the size of an [intptr_t]. *)
Definition ptrBytes : Z := SIZE_BITS / 8.

(** [&jit_.get()[i]] *)
Definition slotAddress (i : Z) (tp : TablePointer) : Z := addr tp + i * ptrBytes.

Definition setJitEntry (i target : Z) (jt : t) : outcome t :=
  _ ← MOZ_ASSERT (i <? numFuncs_ jt);
  jit ← store i target (jit_ jt);
  Ok (mk (mode_ jt) (tiering_ jt) jit (numFuncs_ jt)).

(** [__atomic_compare_exchange_n] with [expected = nullptr], strong. *)
Definition setJitEntryIfNull (i target : Z) (jt : t) : outcome t :=
  _ ← MOZ_ASSERT (i <? numFuncs_ jt);
  let expected := 0 in
  current ← load i (jit_ jt);
  if current =? expected then
    jit ← store i target (jit_ jt);
    Ok (mk (mode_ jt) (tiering_ jt) jit (numFuncs_ jt))
  else Ok jt.

Definition getAddressOfJitEntry (i : Z) (jt : t) : outcome Z :=
  _ ← MOZ_ASSERT (i <? numFuncs_ jt);
  _ ← (if DEBUG then
         entry ← load i (jit_ jt);
         MOZ_ASSERT (negb (entry =? 0))
       else Ok ());
  Ok (slotAddress i (jit_ jt)).

(** The difference of two [intptr_t*] counts elements; it is converted
    to [size_t] on return. *)
Definition funcIndexFromJitEntry (target : Z) (jt : t) : outcome Z :=
  _ ← MOZ_ASSERT (slotAddress 0 (jit_ jt) <=? target);
  _ ← MOZ_ASSERT (target <=? slotAddress (usize (numFuncs_ jt - 1)) (jit_ jt));
  Ok (usize ((target - slotAddress 0 (jit_ jt)) ÷ ptrBytes)).

Definition setTieringEntry (i target : Z) (jt : t) : outcome t :=
  _ ← MOZ_ASSERT (i <? numFuncs_ jt);
  if decide (mode_ jt = Tier1) then
    tiering ← store i target (tiering_ jt);
    Ok (mk (mode_ jt) tiering (jit_ jt) (numFuncs_ jt))
  else Ok jt.

Definition tiering (jt : t) : Z := addr (tiering_ jt).

(** The writers of the two tables, as a caller may issue them. *)
Inductive op : Type :=
| SetJitEntry (i target : Z)
| SetJitEntryIfNull (i target : Z)
| SetTieringEntry (i target : Z).

Definition step (o : op) (jt : t) : outcome t :=
  match o with
  | SetJitEntry i target => setJitEntry i target jt
  | SetJitEntryIfNull i target => setJitEntryIfNull i target jt
  | SetTieringEntry i target => setTieringEntry i target jt
  end.

Fixpoint run (ops : list op) (jt : t) : outcome t :=
  match ops with
  | [] => Ok jt
  | o :: rest => jt' ← step o jt; run rest jt'
  end.

Definition jitEntry (i : Z) (jt : t) : option Z := slots (jit_ jt) !! Z.to_nat i.

(** Slot [i] of the jit-entry table, once non-null, keeps its value
    through [ops]. *)
Definition jitEntryStable (ops : list op) (i : Z) (jt : t) : Prop :=
  ∀ v jt', jitEntry i jt = Some v → v ≠ 0 →
           run ops jt = Ok jt' → jitEntry i jt' = Some v.

Definition isSetJitEntry (o : op) : bool :=
  match o with SetJitEntry _ _ => true | _ => false end.

(** Both tables have [numFuncs_] slots; the count is a [size_t]. *)
Definition wf (jt : t) : Prop :=
  is_size_t (numFuncs_ jt) ∧
  Z.of_nat (length (slots (jit_ jt))) = numFuncs_ jt.

Definition tieringEntry (i : Z) (jt : t) : option Z :=
  slots (tiering_ jt) !! Z.to_nat i.

(** The slot an operation names. *)
Definition opIndex (o : op) : Z :=
  match o with
  | SetJitEntry i _ | SetJitEntryIfNull i _ | SetTieringEntry i _ => i
  end.

End Operations.

End JumpTables.

(** ** Code: the tier-2 handshake *)

Module Code.

(** The two members of [Code] that carry the handshake; [tier2_] is a
    [const CodeBlock*], kept as an address. *)
Record t : Type := mk { tier2_ : Z; hasTier2_ : bool }.

(** "Initially hasTier2_ is false and tier2_ is null." *)
Definition create : t := mk 0 false.

Definition hasTier2 (c : t) : bool := hasTier2_ c.

Inductive Tier2State : Type := Absent | Building | Published.

Definition tier2State (c : t) : Tier2State :=
  if hasTier2_ c then Published
  else if tier2_ c =? 0 then Absent else Building.

Definition rank (s : Tier2State) : nat :=
  match s with Absent => 0 | Building => 1 | Published => 2 end.

(** Modelled from the spec: the code that writes [tier2_] and [hasTier2_]
    lives in WasmCode.cpp; this header only declares
    [finishCompleteTier2] and documents the protocol.  Section 4.5 names
    the transitions: Absent to Building, by the one installing thread
    making [tier2_] non-null while [hasTier2_] is false, and Building to
    Published, "a single atomic store to hasTier2_"; "no other transitions
    exist".  [step] is [None] where the protocol has no transition. *)
Inductive transition : Type :=
| Install (block : Z)
| Publish.

Definition step (tr : transition) (c : t) : option t :=
  match tr with
  | Install block =>
      if negb (hasTier2_ c) && (tier2_ c =? 0) && negb (block =? 0)
      then Some (mk block false) else None
  | Publish =>
      if negb (hasTier2_ c) && negb (tier2_ c =? 0)
      then Some (mk (tier2_ c) true) else None
  end.

(** The states a run of transitions passes through, the first included. *)
Fixpoint trace (trs : list transition) (c : t) : option (list t) :=
  match trs with
  | [] => Some [c]
  | tr :: rest => c' ← step tr c; states ← trace rest c'; Some (c :: states)
  end.

(** Modelled from the spec: section 4.5 has [finishCompleteTier2] link the
    new block, register it in the block map and bring the lazy entry stubs
    up to date, "and only then" publish; "failure at any step before
    publication leaves the module correctly running on tier1", and
    [hasTier2_] stays false.  The three flags tell which of the fallible
    steps go through.  [tier2_] is written once nothing can fail any more,
    so that a failed call leaves the state Absent (section 5). *)
Definition finishCompleteTier2 (linked registered stubbed : bool)
    (tier2Code : Z) (c : t) : option (bool * t) :=
  if linked && registered && stubbed then
    c1 ← step (Install tier2Code) c;
    c2 ← step Publish c1;
    Some (true, c2)
  else
    (if negb (hasTier2_ c) && (tier2_ c =? 0) then Some (false, c) else None).

(** A run of calls to [finishCompleteTier2], each with its three flags and
    its block, and what each call returned. *)
Fixpoint finishAll (calls : list (bool * bool * bool * Z)) (c : t)
  : option (list bool * t) :=
  match calls with
  | [] => Some ([], c)
  | (linked, registered, stubbed, block) :: rest =>
      '(ok, c1) ← finishCompleteTier2 linked registered stubbed block c;
      '(oks, c2) ← finishAll rest c1;
      Some (ok :: oks, c2)
  end.

(** How often a sequence of flag values goes from [false] to [true]. *)
Fixpoint rises (bs : list bool) : nat :=
  match bs with
  | a :: ((b :: _) as rest) => ((if negb a && b then 1 else 0) + rises rest)%nat
  | _ => 0%nat
  end.

Definition isPublish (tr : transition) : bool :=
  match tr with Publish => true | Install _ => false end.

Fixpoint countTrue (bs : list bool) : nat :=
  match bs with
  | [] => 0%nat
  | b :: rest => ((if b then 1 else 0) + countTrue rest)%nat
  end.

(** How often a run publishes. *)
Definition publications (trs : list transition) : nat :=
  countTrue (isPublish <$> trs).

End Code.

(** ** LinkData and static linking *)

Module LinkData.

(** [JS_CODELABEL_LINKMODE] is not defined: a link has no [mode]. *)
Record InternalLink : Type := mkInternalLink {
  patchAtOffset : Z;
  targetOffset : Z
}.

(** [SymbolicLinkArray] is indexed by [SymbolicAddress]; an address is kept
    as its position in the enumeration, [SymbolicAddress::Limit] being the
    length of the array. *)
Definition SymbolicLinkArray : Type := list (list Z).

Record t : Type := mk {
  trapOffset : Z;
  internalLinks : list InternalLink;
  symbolicLinks : SymbolicLinkArray
}.

Definition SymbolicLinkArray_isEmpty (a : SymbolicLinkArray) : bool :=
  forallb (λ offsets, (length offsets =? 0)%nat) a.

Definition SymbolicLinkArray_clear (a : SymbolicLinkArray) : SymbolicLinkArray :=
  (λ _, []) <$> a.

Definition isEmpty (ld : t) : bool :=
  (length (internalLinks ld) =? 0)%nat && SymbolicLinkArray_isEmpty (symbolicLinks ld).

Definition clear (ld : t) : t :=
  mk (trapOffset ld) [] (SymbolicLinkArray_clear (symbolicLinks ld)).

End LinkData.

Module Linking.
Import LinkData.

(** A code buffer is seen through its patch locations: a [gmap] from the
    offset of a location to the pointer-sized value stored there.  A patch
    is an offset and the value to store. *)
Definition applyPatches (patches : list (Z * Z)) (buf : gmap Z Z) : gmap Z Z :=
  foldl (λ b p, <[p.1 := p.2]> b) buf patches.

Section Linking.
Context `{Build}.
(** The absolute address of a runtime symbol, [None] for a symbolic
    target the linker does not know. *)
Variable SymbolicAddressTarget : nat → option Z.
(** What an unlinked buffer holds where a symbolic address will go. *)
Variable placeholder : nat → Z.

(** Modelled from the spec: [StaticallyLink] and [StaticallyUnlink] are
    only declared in this header.  Section 4.1: "every internal-link
    offset is patched to point at base + targetOffset; every
    symbolic-link offset is patched to the absolute address of the named
    runtime symbol"; section 7 has an unrecognized symbolic target
    reported as a failure.  "Unlinking reverses this for serialization
    (patches become segment-relative placeholders again)": an internal
    link holds its segment-relative [targetOffset] again, a symbolic link
    its placeholder. *)
Definition internalPatches (base : Z) (links : list InternalLink) : list (Z * Z) :=
  (λ l, (patchAtOffset l, usize (base + targetOffset l))) <$> links.

Fixpoint symbolicPatches (imm : nat) (a : SymbolicLinkArray)
  : option (list (Z * Z)) :=
  match a with
  | [] => Some []
  | offsets :: rest =>
      here ← (match offsets with
              | [] => Some []
              | _ => target ← SymbolicAddressTarget imm;
                     Some ((λ o, (o, target)) <$> offsets)
              end);
      others ← symbolicPatches (S imm) rest;
      Some (here ++ others)
  end.

Definition StaticallyLink (base : Z) (ld : t) (buf : gmap Z Z) : option (gmap Z Z) :=
  symbolic ← symbolicPatches 0 (symbolicLinks ld);
  Some (applyPatches (internalPatches base (internalLinks ld) ++ symbolic) buf).

Definition internalUnpatches (links : list InternalLink) : list (Z * Z) :=
  (λ l, (patchAtOffset l, targetOffset l)) <$> links.

Fixpoint symbolicUnpatches (imm : nat) (a : SymbolicLinkArray) : list (Z * Z) :=
  match a with
  | [] => []
  | offsets :: rest =>
      ((λ o, (o, placeholder imm)) <$> offsets) ++ symbolicUnpatches (S imm) rest
  end.

Definition unlinkPatches (ld : t) : list (Z * Z) :=
  internalUnpatches (internalLinks ld) ++ symbolicUnpatches 0 (symbolicLinks ld).

Definition StaticallyUnlink (base : Z) (ld : t) (buf : gmap Z Z) : gmap Z Z :=
  applyPatches (unlinkPatches ld) buf.

(** The buffer as compilation leaves it: every patch location holds its
    segment-relative value. *)
Definition unlinked (ld : t) (buf : gmap Z Z) : Prop :=
  Forall (λ p, buf !! p.1 = Some p.2) (unlinkPatches ld).

End Linking.

End Linking.

(** ** Concrete data *)

Definition releaseBuild : Build := {| DEBUG := false; WORD := W64 |}.
Definition debugBuild : Build := {| DEBUG := true; WORD := W64 |}.

(** A block fresh from [createDense] with its one function slot never
    filled, and the same block with the slot filled. *)
Definition unfilledBlock : CodeBlock.t :=
  CodeBlock.create BaselineTier 4096 4096
    (FuncToCodeRangeMap.mk 0 [BAD_CODE_RANGE]) [].

Definition filledBlock : CodeBlock.t :=
  CodeBlock.create BaselineTier 4096 4096
    (FuncToCodeRangeMap.mk 0 [0]) [(0, 64)].

(** Rounding up to pages of 4 KiB, and an empty segment of 64 KiB. *)
Definition pageAlign (bytes : Z) : Z := (bytes + 4095) / 4096 * 4096.

Definition lazySegment : CodeSegment.t := CodeSegment.mk 0x100000 0 0x10000.

(** Three registered blocks at 0x1000, 0x2000 and 0x3000, 0x500 bytes each. *)
Definition blockAt (cbase clen : Z) : CodeBlock.t :=
  CodeBlock.create BaselineTier cbase clen FuncToCodeRangeMap.empty [].

Definition threeBlocks : list CodeBlock.t :=
  [blockAt 0x1000 0x500; blockAt 0x2000 0x500; blockAt 0x3000 0x500].

Definition registeredMap : ThreadSafeCodeBlockMap.t :=
  ThreadSafeCodeBlockMap.mk false threeBlocks threeBlocks
    ThreadSafeCodeBlockMap.Segments1 ThreadSafeCodeBlockMap.Segments2 0.

Definition noRanges (cb : CodeBlock.t) (pc : Z) : Z := 0.

(** Metadata lookups that find a record for every [pc]: the code range at
    0x500000 plus the offset of [pc] in its block, the call site at
    0x600000 plus that offset; ranges below 0x500400 are functions. *)
Definition rangeAt (cb : CodeBlock.t) (pc : Z) : Z :=
  0x500000 + (pc - CodeBlock.base cb).
Definition callSiteAt (cb : CodeBlock.t) (pc : Z) : Z :=
  0x600000 + (pc - CodeBlock.base cb).
Definition functionRange (range : Z) : bool := range <? 0x500400.

(** A module with three functions; the jit-entry table holds a stub for the
    first and the last. *)
Inductive ModuleMode : Type := ModeOnce | ModeTier1 | ModeTier2.

#[global] Instance ModuleMode_eq_dec : EqDecision ModuleMode.
Proof. solve_decision. Defined.

Definition tier1Modes : CompileModes :=
  {| CompileMode := ModuleMode; Tier1 := ModeTier1 |}.

Definition tablesIn (mode : ModuleMode) : @JumpTables.t tier1Modes :=
  JumpTables.mk (mode : @CompileMode tier1Modes)
    (JumpTables.mkTable 0x7000 [0; 0; 0])
    (JumpTables.mkTable 0x8000 [0x1000; 0; 0x3000]) 3.

(** A buffer with two internal and three symbolic patch locations, in the
    form compilation leaves it in, and one byte of code at offset 0. *)
Definition knownSymbols (imm : nat) : option Z := Some (0x7f0000 + Z.of_nat imm).
Definition allOnes (imm : nat) : Z := 2 ^ 64 - 1.

Definition someLinks : LinkData.t :=
  LinkData.mk 0 [LinkData.mkInternalLink 8 0x40; LinkData.mkInternalLink 24 0x80]
    [[16]; []; [32; 40]].

Definition freshBuffer : gmap Z Z :=
  <[8 := 0x40]> (<[24 := 0x80]> (<[16 := 2 ^ 64 - 1]> (<[32 := 2 ^ 64 - 1]>
    (<[40 := 2 ^ 64 - 1]> (<[0 := 0x90]> ∅))))).

(** The tiers of a build in which [Debug] names [Baseline] and [Serialized]
    names [Optimized]. *)
Inductive SampleTier : Type := TierBaseline | TierOptimized.

#[global] Instance SampleTier_eq_dec : EqDecision SampleTier.
Proof. solve_decision. Defined.

Definition twoTiers : Tiers :=
  {| Tier := SampleTier; Baseline := TierBaseline; Optimized := TierOptimized |}.

Ltac by_computation :=
  vm_compute; repeat split; try discriminate; try reflexivity;
  intros; try discriminate.

(* ================================================================== *)
(** * Properties *)

(** ** CodeSegment: the bump allocator *)

Section CodeSegmentFacts.
Context `{Build}.
Variable AlignBytesNeeded : Z → Z.
Import CodeSegment.

Lemma SIZE_BITS_ge : 32 ≤ SIZE_BITS.
Proof. unfold SIZE_BITS. destruct WORD; lia. Qed.

Lemma pow_size_ge : 2 ^ 32 ≤ 2 ^ SIZE_BITS.
Proof. apply Z.pow_le_mono_r; [lia | apply SIZE_BITS_ge]. Qed.

Lemma usize_small z : 0 ≤ z < 2 ^ 32 → usize z = z.
Proof.
  intros Hz. unfold usize. apply Z.mod_small. pose proof pow_size_ge. lia.
Qed.

Lemma capacityBytes_ok (s : t) :
  capacityBytes_ s ≠ UINT32_MAX → capacityBytes s = Ok (capacityBytes_ s).
Proof.
  intros Hne. unfold capacityBytes, MOZ_ASSERT.
  destruct (Z.eqb_spec (capacityBytes_ s) UINT32_MAX); [done |].
  by destruct DEBUG.
Qed.

(** What [hasSpace] answers whenever it answers. *)
Lemma hasSpace_sound (bytes : Z) (s : t) (b : bool) :
  wf s → is_size_t bytes →
  hasSpace AlignBytesNeeded bytes s = Ok b →
  b = bool_decide (lengthBytes_ s + bytes ≤ capacityBytes_ s).
Proof.
  intros (Hl & Hc & _) Hb. unfold hasSpace.
  destruct (MOZ_ASSERT (AlignBytesNeeded bytes =? bytes)); simpl; try done.
  destruct (capacityBytes s) as [cap | | | |] eqn:Hcap; simpl; try done.
  assert (cap = capacityBytes_ s) as ->.
  { unfold capacityBytes in Hcap.
    destruct (MOZ_ASSERT _); simpl in Hcap; congruence. }
  unfold is_u32, UINT32_MAX, is_size_t in *.
  destruct (Z.leb_spec bytes (capacityBytes_ s)); simpl.
  - rewrite usize_small by lia.
    intros [= <-]. destruct (Z.leb_spec (lengthBytes_ s) (capacityBytes_ s - bytes)).
    + rewrite bool_decide_eq_true_2; [done | lia].
    + rewrite bool_decide_eq_false_2; [done | lia].
  - intros [= <-]. rewrite bool_decide_eq_false_2; [done | lia].
Qed.

Lemma hasSpace_total (bytes : Z) (s : t) :
  AlignBytesNeeded bytes = bytes → capacityBytes_ s ≠ UINT32_MAX →
  ∃ b, hasSpace AlignBytesNeeded bytes s = Ok b.
Proof.
  intros Ha Hc. unfold hasSpace.
  rewrite Ha, Z.eqb_refl. replace (MOZ_ASSERT true) with (Ok ()).
  2:{ unfold MOZ_ASSERT. by destruct DEBUG. }
  simpl. rewrite capacityBytes_ok by done. simpl.
  destruct (bytes <=? capacityBytes_ s); simpl; eauto.
Qed.

(** One successful claim: where it lands and what it leaves behind. *)
Lemma claimSpace_inv (bytes : Z) (s s' : t) (b : Z) :
  wf s → is_size_t bytes →
  claimSpace AlignBytesNeeded bytes s = Ok (b, s') →
  b = base s + lengthBytes_ s ∧
  lengthBytes_ s' = lengthBytes_ s + bytes ∧
  capacityBytes_ s' = capacityBytes_ s ∧ bytes_ s' = bytes_ s ∧ wf s'.
Proof.
  intros Hwf Hb. unfold claimSpace.
  destruct (hasSpace AlignBytesNeeded bytes s) as [ok | | | |] eqn:Hhas;
    simpl; try done.
  apply hasSpace_sound in Hhas; [| done | done].
  destruct ok; simpl; [| done].
  symmetry in Hhas. apply bool_decide_eq_true_1 in Hhas.
  intros [= <- <-]. simpl.
  destruct Hwf as (Hl & Hc & Hle).
  unfold is_u32, UINT32_MAX, is_size_t in *.
  assert (u32 (usize (lengthBytes_ s + bytes)) = lengthBytes_ s + bytes) as Hnew.
  { rewrite usize_small by lia. unfold u32. apply Z.mod_small. lia. }
  unfold wf, is_u32, UINT32_MAX. simpl. rewrite Hnew.
  destruct Hb as [Hb0 _]. repeat split; lia.
Qed.

Lemma claimAll_ranges (sizes : list Z) :
  ∀ (s s' : t) (rs : list (Z * Z)),
    wf s → Forall is_size_t sizes →
    claimAll AlignBytesNeeded sizes s = Ok (rs, s') →
    wf s' ∧ bytes_ s' = bytes_ s ∧ capacityBytes_ s' = capacityBytes_ s ∧
    lengthBytes_ s ≤ lengthBytes_ s' ∧
    pairwise_disjoint rs ∧
    Forall (λ r, base s + lengthBytes_ s ≤ r.1 ∧
                 r.1 + r.2 ≤ base s + lengthBytes_ s') rs.
Proof.
  induction sizes as [| n rest IH]; intros s s' rs Hwf Hsz; simpl.
  - intros [= <- <-]. split; [done |]. repeat split; simpl; auto; lia.
  - inversion Hsz as [| ? ? Hn Hrest]; subst.
    destruct (claimSpace AlignBytesNeeded n s) as [[b s1] | | | |] eqn:Hc;
      simpl; try done.
    destruct (claimAll AlignBytesNeeded rest s1) as [[rs1 s2] | | | |] eqn:Hr;
      simpl; try done.
    intros [= <- <-].
    apply claimSpace_inv in Hc as (-> & Hl1 & Hc1 & Hb1 & Hwf1); [| done | done].
    apply IH in Hr as (Hwf2 & Hb2 & Hc2 & Hl2 & Hdis & Hin); [| done | done].
    unfold base in *. destruct Hn as [Hn0 _].
    split_and!; [done | congruence | congruence | lia | |].
    + split; [| done]. eapply Forall_impl; [exact Hin |].
      intros [rb rn] [Hlo _]. left. simpl in *. lia.
    + constructor; [simpl; lia |].
      eapply Forall_impl; [exact Hin |].
      intros [rb rn] [Hlo Hhi]. simpl in *. lia.
Qed.

(** C6. [hasSpace n], for a page-aligned [n], answers exactly whether
    [lengthBytes + n] fits in [capacityBytes], the sum being taken in the
    integers, so no wrap-around of [size_t] or [uint32_t] can fake a fit;
    when it fits, [claimSpace n] hands out [base + lengthBytes] and bumps
    [lengthBytes] by [n], keeping [lengthBytes ≤ capacityBytes]; and the
    sub-ranges handed out by any run of claims are pairwise disjoint and lie
    inside the segment. *)
Theorem hasSpace_claimSpace_bump (bytes : Z) (s : t) :
  wf s → is_size_t bytes →
  AlignBytesNeeded bytes = bytes → capacityBytes_ s ≠ UINT32_MAX →
  hasSpace AlignBytesNeeded bytes s
    = Ok (bool_decide (lengthBytes_ s + bytes ≤ capacityBytes_ s)) ∧
  (lengthBytes_ s + bytes ≤ capacityBytes_ s →
     ∃ s', claimSpace AlignBytesNeeded bytes s
             = Ok (base s + lengthBytes_ s, s') ∧
           lengthBytes_ s' = lengthBytes_ s + bytes ∧
           capacityBytes_ s' = capacityBytes_ s ∧
           bytes_ s' = bytes_ s ∧ wf s') ∧
  (∀ sizes rs s',
     Forall is_size_t sizes →
     claimAll AlignBytesNeeded sizes s = Ok (rs, s') →
     wf s' ∧ pairwise_disjoint rs ∧ Forall (within s) rs).
Proof.
  intros Hwf Hb Ha Hc.
  destruct (hasSpace_total bytes s Ha Hc) as [ok Hok].
  pose proof (hasSpace_sound _ _ _ Hwf Hb Hok) as ->.
  split; [done |]. split.
  - intros Hfit.
    destruct (claimSpace AlignBytesNeeded bytes s) as [[b s'] | | | |] eqn:Hcl.
    1: { pose proof (claimSpace_inv _ _ _ _ Hwf Hb Hcl) as (-> & ?).
         by exists s'. }
    all: unfold claimSpace in Hcl; rewrite Hok in Hcl; simpl in Hcl;
      by rewrite bool_decide_eq_true_2 in Hcl.
  - intros sizes rs s' Hsz Hrun.
    apply claimAll_ranges in Hrun as (Hwf' & Hb' & Hc' & Hl' & Hdis & Hin);
      [| done | done].
    split_and!; [done | done |].
    eapply Forall_impl; [exact Hin |].
    intros [rb rn] [Hlo Hhi]. unfold within, base in *. simpl in *.
    destruct Hwf' as (_ & _ & Hle'). destruct Hwf as ((Hl0 & _) & _). lia.
Qed.

End CodeSegmentFacts.

Lemma hasSpace_claimSpace_bump_witness :
  CodeSegment.wf lazySegment ∧
  @CodeSegment.hasSpace debugBuild pageAlign 0x2000 lazySegment = Ok true ∧
  ∃ s', @CodeSegment.claimSpace debugBuild pageAlign 0x2000 lazySegment
          = Ok (0x100000, s') ∧
        CodeSegment.lengthBytes_ s' = 0x2000.
Proof.
  assert (CodeSegment.wf lazySegment) as Hwf by by_computation.
  assert (@is_size_t debugBuild 0x2000) as Hsz by by_computation.
  assert (pageAlign 0x2000 = 0x2000) as Halign by reflexivity.
  assert (CodeSegment.capacityBytes_ lazySegment ≠ UINT32_MAX) as Hcap
    by by_computation.
  destruct (@hasSpace_claimSpace_bump debugBuild pageAlign 0x2000 lazySegment
              Hwf Hsz Halign Hcap) as (Hhas & Hclaim & _).
  split; [exact Hwf |]. split; [exact Hhas |].
  destruct Hclaim as (s' & Hrun & Hlen & _); [by_computation |].
  exists s'. split; [exact Hrun | exact Hlen].
Defined.

(** ** FuncToCodeRangeMap and [CodeBlock::initialize] *)

Section FuncToCodeRangeFacts.
Import FuncToCodeRangeMap.

Lemma assertEach_debug `{Build} (entries : list Z) :
  DEBUG = true → assertEach entries = Ok () →
  Forall (λ codeRangeIndex, codeRangeIndex ≠ BAD_CODE_RANGE) entries.
Proof.
  intros Hd. induction entries as [| x rest IH]; simpl; [constructor |].
  unfold MOZ_ASSERT. rewrite Hd.
  destruct (Z.eqb_spec x BAD_CODE_RANGE); simpl; [done |].
  intros Hrest. constructor; auto.
Qed.

Lemma assertEach_pass `{Build} (entries : list Z) :
  Forall (λ codeRangeIndex, codeRangeIndex ≠ BAD_CODE_RANGE) entries →
  assertEach entries = Ok ().
Proof.
  induction 1 as [| x rest Hx _ IH]; simpl; [done |].
  unfold MOZ_ASSERT.
  destruct (Z.eqb_spec x BAD_CODE_RANGE); [done |].
  by destruct DEBUG.
Qed.

Lemma createDense_all_bad (start numFuncs : Z) (m : t) (i : nat) :
  createDense true start numFuncs = Some m →
  (i < Z.to_nat numFuncs)%nat →
  funcToCodeRange_ m !! i = Some BAD_CODE_RANGE.
Proof.
  intros [= <-] Hi. simpl. by apply lookup_replicate_2.
Qed.

End FuncToCodeRangeFacts.

Lemma slotsFilled_spec (entries : list Z) :
  forallb (λ codeRangeIndex, negb (codeRangeIndex =? BAD_CODE_RANGE)) entries = true
  ↔ Forall (λ codeRangeIndex, codeRangeIndex ≠ BAD_CODE_RANGE) entries.
Proof.
  induction entries as [| x rest IH]; simpl; [by split |].
  rewrite andb_true_iff, Forall_cons, IH.
  by destruct (Z.eqb_spec x BAD_CODE_RANGE); split; intros [? ?].
Qed.

(** C7. A block whose [initialize] returns holds no [BAD_CODE_RANGE] in any
    slot of its [funcToCodeRange] map: [lookup] answers a code-range index
    other than the sentinel for every function index the map covers, and
    [assertAllInitialized] passes on the map in every build.  [initialize]
    binds the back-reference and leaves the map as it was; a block with a
    sentinel slot is stopped at the assertion, and a block without one whose
    ranges are sorted passes.  The check this header has for the invariant,
    [assertAllInitialized], tells a map with a sentinel slot from one
    without in a DEBUG build only. *)
Theorem initialize_all_initialized
    (registered ok : bool) (owner : Z) (cb cb' : CodeBlock.t) :
  (CodeBlock.initialize registered owner cb = Ok (ok, cb') →
     FuncToCodeRangeMap.allInitialized (CodeBlock.funcToCodeRange cb') ∧
     (∀ funcIndex,
        FuncToCodeRangeMap.denseHasFuncIndex funcIndex
          (CodeBlock.funcToCodeRange cb') = true →
        FuncToCodeRangeMap.lookup funcIndex (CodeBlock.funcToCodeRange cb')
          ≠ BAD_CODE_RANGE) ∧
     (∀ B : Build,
        @FuncToCodeRangeMap.assertAllInitialized B (CodeBlock.funcToCodeRange cb')
          = Ok ()) ∧
     CodeBlock.funcToCodeRange cb' = CodeBlock.funcToCodeRange cb ∧
     CodeBlock.code cb' = owner ∧ ok = registered) ∧
  (¬ FuncToCodeRangeMap.allInitialized (CodeBlock.funcToCodeRange cb) →
     CodeBlock.initialize registered owner cb = AssertFail) ∧
  (FuncToCodeRangeMap.allInitialized (CodeBlock.funcToCodeRange cb) →
   CodeBlock.rangesSorted (CodeBlock.codeRanges cb) = true →
     ∃ cb1, CodeBlock.initialize registered owner cb = Ok (registered, cb1)) ∧
  (∀ (B : Build) (m : FuncToCodeRangeMap.t),
     @FuncToCodeRangeMap.assertAllInitialized B m = Ok () ↔
     (@DEBUG B = true → FuncToCodeRangeMap.allInitialized m)).
Proof.
  unfold CodeBlock.initialize, CodeBlock.fatalAssertion. simpl.
  destruct (forallb _ _) eqn:Hfilled; simpl.
  - apply slotsFilled_spec in Hfilled. split_and!.
    + destruct (CodeBlock.rangesSorted _); simpl; [| done].
      assert (∀ funcIndex,
                FuncToCodeRangeMap.denseHasFuncIndex funcIndex
                  (CodeBlock.funcToCodeRange cb) = true →
                FuncToCodeRangeMap.lookup funcIndex (CodeBlock.funcToCodeRange cb)
                  ≠ BAD_CODE_RANGE) as Hlookup.
      { intros funcIndex Hdense. unfold FuncToCodeRangeMap.lookup.
        rewrite Hdense.
        destruct (_ !! _) as [v |] eqn:Hv; simpl.
        - unfold FuncToCodeRangeMap.allInitialized in Hfilled.
          rewrite Forall_lookup in Hfilled. by apply (Hfilled _ _ Hv).
        - apply lookup_ge_None in Hv.
          unfold FuncToCodeRangeMap.denseHasFuncIndex in Hdense.
          apply andb_true_iff in Hdense as [_ Hlt]. apply Z.ltb_lt in Hlt.
          unfold FuncToCodeRangeMap.slot, u32 in *.
          pose proof (Z.mod_pos_bound
                        (funcIndex - FuncToCodeRangeMap.startFuncIndex_
                                       (CodeBlock.funcToCodeRange cb))
                        (2 ^ 32) ltac:(lia)).
          lia. }
      assert (∀ B : Build,
                @FuncToCodeRangeMap.assertAllInitialized B
                  (CodeBlock.funcToCodeRange cb) = Ok ()) as Hassert.
      { intros B. unfold FuncToCodeRangeMap.assertAllInitialized.
        destruct DEBUG; [| done]. by apply assertEach_pass. }
      destruct registered; intros [= <- <-]; simpl; split_and!; done.
    + done.
    + intros _ ->. simpl. destruct registered; eauto.
    + intros B m. unfold FuncToCodeRangeMap.assertAllInitialized.
      destruct DEBUG eqn:Hd.
      * split; [intros Hrun _; by apply assertEach_debug |].
        intros Hall. by apply assertEach_pass, Hall.
      * by split.
  - assert (¬ FuncToCodeRangeMap.allInitialized (CodeBlock.funcToCodeRange cb))
      as Hnot.
    { intros Hall. apply slotsFilled_spec in Hall. congruence. }
    split_and!; try done.
    intros B m. unfold FuncToCodeRangeMap.assertAllInitialized.
    destruct DEBUG eqn:Hd.
    + split; [intros Hrun _; by apply assertEach_debug |].
      intros Hall. by apply assertEach_pass, Hall.
    + by split.
Qed.

Lemma initialize_all_initialized_witness :
  CodeBlock.initialize true 1 filledBlock
    = Ok (true, CodeBlock.mk 1 BaselineTier 4096 4096
                  (FuncToCodeRangeMap.mk 0 [0]) [(0, 64)] true) ∧
  FuncToCodeRangeMap.lookup 0 (FuncToCodeRangeMap.mk 0 [0]) ≠ BAD_CODE_RANGE ∧
  CodeBlock.initialize true 1 unfilledBlock = AssertFail.
Proof.
  assert (CodeBlock.initialize true 1 filledBlock
          = Ok (true, CodeBlock.mk 1 BaselineTier 4096 4096
                        (FuncToCodeRangeMap.mk 0 [0]) [(0, 64)] true))
    as Hrun by reflexivity.
  split; [exact Hrun |]. split.
  - destruct (proj1 (initialize_all_initialized true true 1 filledBlock _) Hrun)
      as (_ & Hlookup & _).
    apply (Hlookup 0). reflexivity.
  - apply (proj1 (proj2 (initialize_all_initialized true true 1 unfilledBlock
                           unfilledBlock))).
    intros Hall. inversion Hall as [| ? ? Hne _]. by apply Hne.
Defined.

(** ** Binary search *)

Section SearchFacts.
Context {A : Type}.
Implicit Types (c : list A) (cmp : A → Z).

Lemma midpoint_bounds (low high : nat) :
  (low < high → low ≤ midpoint low high < high)%nat.
Proof.
  intros Hlt. unfold midpoint.
  pose proof (Nat.div_mod_eq (high - low) 2).
  pose proof (Nat.mod_upper_bound (high - low) 2). lia.
Qed.

(** The search returns for every container when its bounds are in range,
    and a reported match is a position where the comparator answers [0]. *)
Lemma BinarySearchIf_result c cmp (low high : nat) :
  (low ≤ high ≤ length c)%nat →
  ∃ found idx, BinarySearchIf c low high cmp = Ok (found, idx) ∧
    (low ≤ idx ≤ high)%nat ∧
    (found = true → ∃ x, c !! idx = Some x ∧ cmp x = 0).
Proof.
  funelim (BinarySearchIf c low high cmp); intros Hb.
  - exists false, low. split_and!; [done | lia | lia | done].
  - lia.
  - apply lookup_ge_None in Heq. pose proof (midpoint_bounds low high). lia.
  - exists true, (midpoint low high).
    pose proof (midpoint_bounds low high).
    split_and!; [done | lia | lia |].
    intros _. exists x. split; [done |]. by apply Z.compare_eq_iff.
  - pose proof (midpoint_bounds low high).
    destruct H as (found & idx & Hrun & Hidx & Hhit); [lia |].
    exists found, idx. split_and!; [done | lia | lia | done].
  - pose proof (midpoint_bounds low high).
    destruct H as (found & idx & Hrun & Hidx & Hhit); [lia |].
    exists found, idx. split_and!; [done | lia | lia | done].
Qed.

Lemma BinarySearchIf_miss c cmp (low high idx : nat) :
  monotone cmp c →
  (∀ j x, (j < low)%nat → c !! j = Some x → 0 < cmp x) →
  (∀ j x, (high ≤ j)%nat → c !! j = Some x → cmp x < 0) →
  BinarySearchIf c low high cmp = Ok (false, idx) →
  splits cmp c idx.
Proof.
  intros Hmono.
  funelim (BinarySearchIf c low high cmp); intros Hlow Hhigh Hrun;
    try done.
  - injection Hrun as <-. subst high. by split.
  - apply H; [done | done | | done].
    intros j y Hj Hy.
    destruct (Hmono (midpoint low high) j x y Hj Heq0 Hy) as [Hneg _].
    apply Hneg. by apply Z.compare_lt_iff.
  - apply H; [done | | done | done].
    intros j y Hj Hy.
    destruct (Hmono j (midpoint low high) y x ltac:(lia) Hy Heq0) as [_ Hpos].
    apply Hpos. apply Z.compare_gt_iff in Heq. lia.
Qed.

End SearchFacts.

(** ** ThreadSafeCodeBlockMap *)

Section BlockMapFacts.
Context `{Build}.
Variable lookupRange : CodeBlock.t → Z → Z.
Import ThreadSafeCodeBlockMap.
Implicit Types (cb cs : CodeBlock.t) (v : list CodeBlock.t) (m : t).

Lemma length_nonneg cb : 0 ≤ CodeBlock.length cb.
Proof. unfold CodeBlock.length, u32. apply Z.mod_pos_bound. lia. Qed.

Lemma CodeBlockPC_zero pc cb :
  CodeBlockPC pc cb = 0 ↔ CodeBlock.containsCodePC pc cb = true.
Proof.
  unfold CodeBlockPC. destruct (CodeBlock.containsCodePC pc cb); [done |].
  destruct (pc <? CodeBlock.base cb); split; intros; done.
Qed.

Lemma CodeBlockPC_neg pc cb :
  CodeBlockPC pc cb < 0 ↔ pc < CodeBlock.base cb.
Proof.
  pose proof (length_nonneg cb).
  unfold CodeBlockPC, CodeBlock.containsCodePC.
  destruct (Z.leb_spec (CodeBlock.base cb) pc),
    (Z.ltb_spec pc (CodeBlock.base cb + CodeBlock.length cb)),
    (Z.ltb_spec pc (CodeBlock.base cb)); simpl; lia.
Qed.

Lemma CodeBlockPC_pos pc cb :
  0 < CodeBlockPC pc cb ↔ CodeBlock.base cb + CodeBlock.length cb ≤ pc.
Proof.
  pose proof (length_nonneg cb).
  unfold CodeBlockPC, CodeBlock.containsCodePC.
  destruct (Z.leb_spec (CodeBlock.base cb) pc),
    (Z.ltb_spec pc (CodeBlock.base cb + CodeBlock.length cb)),
    (Z.ltb_spec pc (CodeBlock.base cb)); simpl; lia.
Qed.

Lemma containsCodePC_range pc cb :
  CodeBlock.containsCodePC pc cb = true ↔
  CodeBlock.base cb ≤ pc < CodeBlock.base cb + CodeBlock.length cb.
Proof.
  unfold CodeBlock.containsCodePC.
  rewrite andb_true_iff, Z.leb_le, Z.ltb_lt. done.
Qed.

Lemma sortedDisjoint_lookup v (i j : nat) cb1 cb2 :
  sortedDisjoint v → (i < j)%nat →
  v !! i = Some cb1 → v !! j = Some cb2 → before cb1 cb2.
Proof.
  intros Hs. revert i j. induction Hs as [| x v Hs IH Hx]; intros i j Hij Hi Hj.
  - done.
  - destruct j as [| j]; [lia |]. simpl in Hj.
    destruct i as [| i]; simpl in Hi.
    + injection Hi as <-. rewrite Forall_forall in Hx. apply Hx.
      apply list_elem_of_lookup. eauto.
    + apply (IH i j); [lia | done | done].
Qed.

Lemma CodeBlockPC_monotone pc v :
  sortedDisjoint v → monotone (CodeBlockPC pc) v.
Proof.
  intros Hs i j x y Hij Hx Hy.
  rewrite !CodeBlockPC_neg, !CodeBlockPC_pos.
  destruct (decide (i = j)) as [-> | Hne].
  - assert (x = y) as -> by congruence. done.
  - assert (before x y) as Hb.
    { apply (sortedDisjoint_lookup v i j); [done | lia | done | done]. }
    unfold before in Hb.
    pose proof (length_nonneg x). pose proof (length_nonneg y). lia.
Qed.

Lemma search_total v pc :
  ∃ found idx, search v pc = Ok (found, idx) ∧ (idx ≤ length v)%nat ∧
    (found = true → ∃ cb, v !! idx = Some cb ∧
                          CodeBlock.containsCodePC pc cb = true).
Proof.
  destruct (BinarySearchIf_result v (CodeBlockPC pc) 0 (length v))
    as (found & idx & Hrun & Hidx & Hhit); [lia |].
  exists found, idx. split_and!; [done | lia |].
  intros Hf. destruct (Hhit Hf) as (cb & Hcb & Hz).
  exists cb. by rewrite <- CodeBlockPC_zero.
Qed.

Lemma search_miss v pc (idx : nat) :
  sortedDisjoint v → search v pc = Ok (false, idx) →
  splits (CodeBlockPC pc) v idx.
Proof.
  intros Hs Hrun.
  apply (BinarySearchIf_miss v (CodeBlockPC pc) 0 (length v)).
  - by apply CodeBlockPC_monotone.
  - intros j x Hj. lia.
  - intros j x Hj Hx. apply lookup_lt_Some in Hx. lia.
  - done.
Qed.

Lemma fits_sortedDisjoint v cs (idx : nat) :
  sortedDisjoint v → fits cs v idx →
  sortedDisjoint (take idx v ++ cs :: drop idx v).
Proof.
  intros Hs [Hleft Hright]. unfold sortedDisjoint in *.
  rewrite <- (take_drop idx v) in Hs.
  apply StronglySorted_app in Hs as (Hcross & Hl & Hr).
  apply StronglySorted_app. split_and!; [| done |].
  - intros x1 x2 Hx1 Hx2.
    apply elem_of_cons in Hx2 as [-> | Hx2]; [| by apply Hcross].
    apply elem_of_take in Hx1 as (j & Hj & Hlt). by apply (Hleft j).
  - apply StronglySorted_cons. split; [| done].
    apply Forall_forall. intros y Hy.
    apply list_elem_of_lookup in Hy as (j & Hj).
    rewrite lookup_drop in Hj. apply (Hright (idx + j)%nat); [lia | done].
Qed.

(** Whatever the search for the base of [cs] answers on a sorted vector,
    a block that overlaps none of the registered ones fits there. *)
Lemma search_fits v cs (found : bool) (idx : nat) :
  sortedDisjoint v → Forall (apart cs) v →
  search v (CodeBlock.base cs) = Ok (found, idx) → fits cs v idx.
Proof.
  intros Hs Hapart Hrun. rewrite Forall_forall in Hapart.
  pose proof (length_nonneg cs) as Hcs.
  assert (∀ j y, v !! j = Some y → y ∈ v) as Hmem.
  { intros j y Hy. apply list_elem_of_lookup. eauto. }
  destruct found.
  - destruct (search_total v (CodeBlock.base cs))
      as (found' & idx' & Hrun' & _ & Hhit).
    rewrite Hrun in Hrun'. injection Hrun' as <- <-.
    destruct (Hhit eq_refl) as (cb & Hcb & Hc).
    apply containsCodePC_range in Hc.
    split; intros j y Hj Hy; pose proof (length_nonneg y) as Hy0.
    + pose proof (sortedDisjoint_lookup v j idx y cb Hs Hj Hy Hcb) as Hb.
      unfold before in *. lia.
    + destruct (Hapart y (Hmem _ _ Hy)) as [Hb | Hb]; [done |].
      destruct (decide (j = idx)) as [-> | Hne].
      * assert (y = cb) as -> by congruence. unfold before in *. lia.
      * pose proof (sortedDisjoint_lookup v idx j cb y Hs ltac:(lia) Hcb Hy) as Hb'.
        unfold before in *. lia.
  - apply search_miss in Hrun as [Hleft Hright]; [| done].
    split; intros j y Hj Hy; pose proof (length_nonneg y) as Hy0.
    + apply Hleft in Hy; [| done]. by apply CodeBlockPC_pos in Hy.
    + apply Hright in Hy as Hneg; [| done]. apply CodeBlockPC_neg in Hneg.
      destruct (Hapart y (Hmem _ _ Hy)) as [Hb | Hb]; [done |].
      unfold before in *. lia.
Qed.

(** A block with code that overlaps no registered block is not found. *)
Lemma search_fresh v cs (found : bool) (idx : nat) :
  Forall (apart cs) v → 0 < CodeBlock.length cs →
  search v (CodeBlock.base cs) = Ok (found, idx) → found = false.
Proof.
  intros Hapart Hlen Hrun. rewrite Forall_forall in Hapart.
  destruct found; [| done].
  destruct (search_total v (CodeBlock.base cs))
    as (found' & idx' & Hrun' & _ & Hhit).
  rewrite Hrun in Hrun'. injection Hrun' as <- <-.
  destruct (Hhit eq_refl) as (cb & Hcb & Hc).
  apply containsCodePC_range in Hc.
  assert (cb ∈ v) as Hin by (apply list_elem_of_lookup; eauto).
  destruct (Hapart cb Hin) as [Hb | Hb]; unfold before in Hb; lia.
Qed.

Lemma delete_sortedDisjoint v (i : nat) :
  sortedDisjoint v → sortedDisjoint (delete i v).
Proof.
  intros Hs. revert i. induction Hs as [| x v Hs IH Hx]; intros i.
  - destruct i; constructor.
  - destruct i as [| i]; simpl; [done |].
    constructor; [apply IH | by apply Forall_delete].
Qed.

(** A registered block of positive length is what the search for its base
    finds. *)
Lemma search_hit v cs :
  sortedDisjoint v → cs ∈ v → 0 < CodeBlock.length cs →
  ∃ idx, search v (CodeBlock.base cs) = Ok (true, idx) ∧ v !! idx = Some cs.
Proof.
  intros Hs Hin Hlen.
  apply list_elem_of_lookup in Hin as (k & Hk).
  assert (CodeBlockPC (CodeBlock.base cs) cs = 0) as Hself.
  { apply CodeBlockPC_zero, containsCodePC_range. lia. }
  destruct (search_total v (CodeBlock.base cs))
    as (found & idx & Hrun & Hidx & Hhit).
  destruct found.
  - exists idx. split; [done |].
    destruct (Hhit eq_refl) as (cb & Hcb & Hc).
    apply containsCodePC_range in Hc.
    destruct (Nat.lt_total idx k) as [Hlt | [-> | Hgt]]; [| done |].
    + pose proof (sortedDisjoint_lookup v idx k cb cs Hs Hlt Hcb Hk) as Hb.
      unfold before in Hb. lia.
    + pose proof (sortedDisjoint_lookup v k idx cs cb Hs Hgt Hk Hcb) as Hb.
      unfold before in Hb. lia.
  - apply search_miss in Hrun as [Hleft Hright]; [| done].
    destruct (Nat.lt_ge_cases k idx) as [Hlt | Hge].
    + apply Hleft in Hk; [lia | done].
    + apply Hright in Hk; [lia | done].
Qed.

(** *** The writers, run on a quiescent map *)

Lemma insertFirst_run (alloc1 : bool) cs m (found : bool) (idx : nat) :
  quiescent m →
  search (segments1_ m) (CodeBlock.base cs) = Ok (found, idx) →
  (idx ≤ length (segments1_ m))%nat →
  insertFirst alloc1 cs m =
    if DEBUG && found then AssertFail
    else if alloc1
         then Ok (inr (published (take idx (segments1_ m) ++ cs
                                    :: drop idx (segments1_ m)) m, idx))
         else Ok (inl m).
Proof.
  intros [Hm Hn Hp Hsame] Hrun Hidx.
  destruct m as [mtx s1 s2 pm pr n]. simpl in *. subst mtx n s2.
  apply Nat.leb_le in Hidx.
  unfold insertFirst, published, swapped, lock, unlock, swapAndWait,
    MOZ_ALWAYS_FALSE, MOZ_ASSERT, Vector.insert.
  destruct pm, pr; try done; simpl; rewrite Hrun; simpl;
    destruct DEBUG, found, alloc1; simpl; rewrite ?Hidx; simpl; done.
Qed.

Lemma insert_run (alloc1 alloc2 : bool) cs m (found : bool) (idx : nat) :
  quiescent m →
  search (segments1_ m) (CodeBlock.base cs) = Ok (found, idx) →
  (idx ≤ length (segments1_ m))%nat →
  insert alloc1 alloc2 cs m =
    if DEBUG && found then AssertFail
    else if alloc1
         then if alloc2
              then Ok (settled (take idx (segments1_ m) ++ cs
                                  :: drop idx (segments1_ m)) m, true)
              else Crash
         else Ok (m, false).
Proof.
  intros Hq Hrun Hidx. unfold insert.
  rewrite (insertFirst_run alloc1 cs m found idx Hq Hrun Hidx).
  destruct Hq as [Hm Hn Hp Hsame].
  destruct m as [mtx s1 s2 pm pr n]. simpl in *. subst mtx n s2.
  apply Nat.leb_le in Hidx.
  destruct (DEBUG && found) eqn:Hchk; [done |].
  destruct alloc1; [| done]. simpl.
  unfold insertSecond, published, settled, swapped, unlock,
    MOZ_ALWAYS_FALSE, MOZ_ASSERT, Vector.insert.
  destruct pm, pr; try done; simpl; rewrite ?Hrun; simpl;
    destruct DEBUG, found, alloc2; simpl in *; try done;
    rewrite ?Nat.eqb_refl, ?Hidx; simpl; done.
Qed.

Lemma removeFirst_run cs m (found : bool) (idx : nat) :
  quiescent m →
  search (segments1_ m) (CodeBlock.base cs) = Ok (found, idx) →
  removeFirst cs m =
    if DEBUG && negb found then AssertFail
    else if (idx <? length (segments1_ m))%nat
         then Ok (published (delete idx (segments1_ m)) m, idx,
                  length (delete idx (segments1_ m)))
         else outOfBounds.
Proof.
  intros [Hm Hn Hp Hsame] Hrun.
  destruct m as [mtx s1 s2 pm pr n]. simpl in *. subst mtx n s2.
  unfold removeFirst, published, swapped, lock, swapAndWait,
    MOZ_ALWAYS_TRUE, MOZ_ASSERT, Vector.erase, outOfBounds.
  destruct pm, pr; try done; simpl; rewrite Hrun; simpl;
    destruct DEBUG, found; simpl;
    destruct (idx <? length s1)%nat; simpl; done.
Qed.

Lemma remove_run cs m (found : bool) (idx : nat) :
  quiescent m →
  search (segments1_ m) (CodeBlock.base cs) = Ok (found, idx) →
  remove cs m =
    if DEBUG && negb found then AssertFail
    else if (idx <? length (segments1_ m))%nat
         then Ok (settled (delete idx (segments1_ m)) m,
                  length (delete idx (segments1_ m)))
         else outOfBounds.
Proof.
  intros Hq Hrun. unfold remove.
  rewrite (removeFirst_run cs m found idx Hq Hrun).
  destruct Hq as [Hm Hn Hp Hsame].
  destruct m as [mtx s1 s2 pm pr n]. simpl in *. subst mtx n s2.
  destruct (DEBUG && negb found) eqn:Hchk; [done |].
  destruct (idx <? length s1)%nat eqn:Hidx;
    [| unfold outOfBounds; by destruct DEBUG].
  simpl.
  unfold removeSecond, published, settled, swapped, unlock,
    MOZ_ALWAYS_TRUE, MOZ_ASSERT, Vector.erase.
  destruct pm, pr; try done; simpl; rewrite ?Hrun; simpl;
    destruct DEBUG, found; simpl in *; try done;
    rewrite ?Nat.eqb_refl, ?Hidx; simpl; done.
Qed.

Lemma settled_quiescent v m :
  mutableCodeBlocks_ m ≠ readonlyCodeBlocks_ m → quiescent (settled v m).
Proof. intros Hp. split; simpl; done. Qed.

Lemma deref_settled v m p : deref p (settled v m) = v.
Proof. by destruct p. Qed.

Lemma deref_published v m :
  mutableCodeBlocks_ m ≠ readonlyCodeBlocks_ m →
  deref (readonlyCodeBlocks_ (published v m)) (published v m) = v ∧
  deref (mutableCodeBlocks_ (published v m)) (published v m)
    = deref (readonlyCodeBlocks_ m) m.
Proof.
  destruct m as [mtx s1 s2 pm pr n]. simpl. by destruct pm, pr.
Qed.

Lemma published_pointers v m :
  readonlyCodeBlocks_ (published v m) = mutableCodeBlocks_ m ∧
  mutableCodeBlocks_ (published v m) = readonlyCodeBlocks_ m.
Proof. destruct m as [mtx s1 s2 pm pr n]. simpl. by destruct pm. Qed.

Lemma deref_quiescent m p : quiescent m → deref p m = segments1_ m.
Proof. intros [_ _ _ Hsame]. destruct p; simpl; congruence. Qed.

(** C1. On every state of the map and for every [pc], [lookup] returns,
    leaving the map as it found it, either a block of the published vector
    whose range [base, base + length) contains [pc], or [nullptr], and then
    a requested [codeRange] is set to [nullptr].  It never takes the
    mutators' mutex: it returns the same, and leaves the mutex as it is,
    whether the mutex is held or free. *)
Theorem lookup_containing_block_or_null (wantRange : bool) (pc : Z) m :
  0 ≤ numActiveLookups_ m < 2 ^ SIZE_BITS - 1 →
  ∃ result stored,
    lookup lookupRange wantRange pc m = Ok (m, result, stored) ∧
    (∀ held : bool,
       lookup lookupRange wantRange pc (setMutex held m)
         = Ok (setMutex held m, result, stored)) ∧
    match result with
    | Some cb =>
        cb ∈ deref (readonlyCodeBlocks_ m) m ∧
        CodeBlock.base cb ≤ pc < CodeBlock.base cb + CodeBlock.length cb ∧
        stored = (if wantRange then Some (lookupRange cb pc) else None)
    | None => stored = (if wantRange then Some 0 else None)
    end.
Proof.
  intros Hn.
  assert (usize (numActiveLookups_ m + 1) = numActiveLookups_ m + 1) as Hinc.
  { unfold usize. apply Z.mod_small. lia. }
  assert (usize (numActiveLookups_ m + 1 - 1) = numActiveLookups_ m) as Hdec.
  { unfold usize.
    replace (numActiveLookups_ m + 1 - 1) with (numActiveLookups_ m) by lia.
    apply Z.mod_small. lia. }
  assert (MOZ_ASSERT (0 <? numActiveLookups_ m + 1) = Ok ()) as Hassert.
  { unfold MOZ_ASSERT.
    destruct (Z.ltb_spec 0 (numActiveLookups_ m + 1)); [| lia].
    by destruct DEBUG. }
  destruct (search_total (deref (readonlyCodeBlocks_ m) m) pc)
    as (found & idx & Hrun & Hidx & Hhit).
  assert (∀ held : bool,
            lookup lookupRange wantRange pc (setMutex held m)
            = '(result, stored) ←
                (if found then
                   result ← Vector.at_ idx (deref (readonlyCodeBlocks_ m) m);
                   Ok (Some result,
                       if wantRange then Some (lookupRange result pc) else None)
                 else Ok (None, if wantRange then Some 0 else None));
              Ok (setMutex held m, result, stored)) as Hbody.
  { intros held. unfold lookup.
    destruct m as [mtx s1 s2 pm pr n]. simpl in *.
    rewrite Hinc, Hassert. unfold setNumActiveLookups. simpl. rewrite Hdec.
    destruct pr; simpl in *; rewrite Hrun; simpl;
      destruct found; simpl; try done;
      match goal with |- context [Vector.at_ ?i ?v] =>
        destruct (Vector.at_ i v) end; done. }
  assert (setMutex (mutatorsMutex_ m) m = m) as Hsame by by destruct m.
  destruct found.
  - destruct (Hhit eq_refl) as (cb & Hcb & Hc).
    exists (Some cb), (if wantRange then Some (lookupRange cb pc) else None).
    assert (∀ held : bool,
              lookup lookupRange wantRange pc (setMutex held m)
              = Ok (setMutex held m, Some cb,
                    if wantRange then Some (lookupRange cb pc) else None))
      as Hall.
    { intros held. rewrite Hbody. unfold Vector.at_. by rewrite Hcb. }
    split; [rewrite <- Hsame at 1 2; apply Hall |].
    split; [exact Hall |].
    split; [apply list_elem_of_lookup; eauto |].
    split; [by apply containsCodePC_range | done].
  - exists None, (if wantRange then Some 0 else None).
    split; [rewrite <- Hsame at 1 2; by rewrite Hbody |].
    split; [intros held; by rewrite Hbody | done].
Qed.

(** C4 (amended). On a map at rest, every [insert] and every [remove] that
    returns leaves the map at rest, so both vectors hold the same blocks:
    the vector published between the two mutations is the old one with the
    block put in, or taken out, at one index, the private one still is the
    old vector, and the second mutation uses the same index.  If the
    vectors were sorted and disjoint, they stay so through [remove]; they
    stay so through [insert], also between its two mutations, if the block
    inserted overlaps no registered one, and then [insert] does return when
    memory is granted. *)
Theorem writers_keep_vectors_equal_and_sorted (alloc1 alloc2 : bool) cs m :
  quiescent m →
  ((∀ m' (r : bool), insert alloc1 alloc2 cs m = Ok (m', r) →
      quiescent m' ∧
      ∃ idx : nat, (idx ≤ length (segments1_ m))%nat ∧
        segments1_ m' =
          if r then take idx (segments1_ m) ++ cs :: drop idx (segments1_ m)
          else segments1_ m) ∧
   (∀ m1 (idx : nat), insertFirst alloc1 cs m = Ok (inr (m1, idx)) →
      deref (readonlyCodeBlocks_ m1) m1
        = take idx (segments1_ m) ++ cs :: drop idx (segments1_ m) ∧
      deref (mutableCodeBlocks_ m1) m1 = segments1_ m) ∧
   (∀ m' (n : nat), remove cs m = Ok (m', n) →
      quiescent m' ∧
      ∃ idx : nat, (idx < length (segments1_ m))%nat ∧
        segments1_ m' = delete idx (segments1_ m) ∧
        n = length (segments1_ m')) ∧
   (∀ m1 (idx n : nat), removeFirst cs m = Ok (m1, idx, n) →
      deref (readonlyCodeBlocks_ m1) m1 = delete idx (segments1_ m) ∧
      deref (mutableCodeBlocks_ m1) m1 = segments1_ m)) ∧
  (sortedDisjoint (deref (readonlyCodeBlocks_ m) m) →
     (Forall (apart cs) (segments1_ m) →
        (∀ m' (r : bool), insert alloc1 alloc2 cs m = Ok (m', r) →
           sortedDisjoint (deref (readonlyCodeBlocks_ m') m')) ∧
        (∀ m1 (idx : nat), insertFirst alloc1 cs m = Ok (inr (m1, idx)) →
           sortedDisjoint (deref (readonlyCodeBlocks_ m1) m1)) ∧
        (0 < CodeBlock.length cs →
           ∃ m', insert true true cs m = Ok (m', true))) ∧
     (∀ m' (n : nat), remove cs m = Ok (m', n) →
        sortedDisjoint (deref (readonlyCodeBlocks_ m') m')) ∧
     (∀ m1 (idx n : nat), removeFirst cs m = Ok (m1, idx, n) →
        sortedDisjoint (deref (readonlyCodeBlocks_ m1) m1)) ∧
     (cs ∈ segments1_ m → 0 < CodeBlock.length cs →
        ∃ m' (idx : nat), remove cs m = Ok (m', length (segments1_ m')) ∧
          segments1_ m !! idx = Some cs ∧
          segments1_ m' = delete idx (segments1_ m))).
Proof.
  intros Hq. pose proof (q_pointers m Hq) as Hp.
  destruct (search_total (segments1_ m) (CodeBlock.base cs))
    as (found & idx & Hrun & Hidx & Hhit).
  split.
  - split_and!.
    + intros m' r. rewrite (insert_run _ _ _ _ _ _ Hq Hrun Hidx).
      destruct (DEBUG && found); [done |].
      destruct alloc1; [destruct alloc2; [| done] |]; intros [= <- <-].
      * split; [by apply settled_quiescent | by exists idx].
      * split; [done | by exists idx].
    + intros m1 idx'. rewrite (insertFirst_run _ _ _ _ _ Hq Hrun Hidx).
      destruct (DEBUG && found); [done |].
      destruct alloc1; [| done]. intros [= <- <-].
      destruct (deref_published
                  (take idx (segments1_ m) ++ cs :: drop idx (segments1_ m))
                  m Hp) as [-> ->].
      by rewrite (deref_quiescent m _ Hq).
    + intros m' n. rewrite (remove_run _ _ _ _ Hq Hrun).
      destruct (DEBUG && negb found); [done |].
      destruct (Nat.ltb_spec idx (length (segments1_ m)));
        [| unfold outOfBounds; by destruct DEBUG].
      intros [= <- <-].
      split; [by apply settled_quiescent | by exists idx].
    + intros m1 idx' n. rewrite (removeFirst_run _ _ _ _ Hq Hrun).
      destruct (DEBUG && negb found); [done |].
      destruct (Nat.ltb_spec idx (length (segments1_ m)));
        [| unfold outOfBounds; by destruct DEBUG].
      intros [= <- <- <-].
      destruct (deref_published (delete idx (segments1_ m)) m Hp) as [-> ->].
      by rewrite (deref_quiescent m _ Hq).
  - intros Hs. rewrite (deref_quiescent m _ Hq) in Hs. split_and!.
    + intros Hapart.
      pose proof (search_fits _ _ _ _ Hs Hapart Hrun) as Hfits.
      pose proof (fits_sortedDisjoint _ _ _ Hs Hfits) as Hnew.
      split_and!.
      * intros m' r. rewrite (insert_run _ _ _ _ _ _ Hq Hrun Hidx).
        destruct (DEBUG && found); [done |].
        destruct alloc1; [destruct alloc2; [| done] |]; intros [= <- <-].
        -- by rewrite deref_settled.
        -- by rewrite (deref_quiescent m _ Hq).
      * intros m1 idx'. rewrite (insertFirst_run _ _ _ _ _ Hq Hrun Hidx).
        destruct (DEBUG && found); [done |].
        destruct alloc1; [| done]. intros [= <- <-].
        by destruct (deref_published
                       (take idx (segments1_ m) ++ cs :: drop idx (segments1_ m))
                       m Hp) as [-> _].
      * intros Hlen.
        rewrite (insert_run _ _ _ _ _ _ Hq Hrun Hidx).
        rewrite (search_fresh _ _ _ _ Hapart Hlen Hrun), andb_false_r.
        eauto.
    + intros m' n. rewrite (remove_run _ _ _ _ Hq Hrun).
      destruct (DEBUG && negb found); [done |].
      destruct (Nat.ltb_spec idx (length (segments1_ m)));
        [| unfold outOfBounds; by destruct DEBUG].
      intros [= <- <-]. rewrite deref_settled. by apply delete_sortedDisjoint.
    + intros m1 idx' n. rewrite (removeFirst_run _ _ _ _ Hq Hrun).
      destruct (DEBUG && negb found); [done |].
      destruct (Nat.ltb_spec idx (length (segments1_ m)));
        [| unfold outOfBounds; by destruct DEBUG].
      intros [= <- <- <-].
      destruct (deref_published (delete idx (segments1_ m)) m Hp) as [-> _].
      by apply delete_sortedDisjoint.
    + intros Hin Hlen.
      destruct (search_hit _ _ Hs Hin Hlen) as (k & Hk & Hcs).
      rewrite Hrun in Hk. injection Hk as -> ->.
      rewrite (remove_run _ _ _ _ Hq Hrun). rewrite andb_false_r.
      apply lookup_lt_Some in Hcs as Hlt. apply Nat.ltb_lt in Hlt.
      rewrite Hlt. by exists (settled (delete k (segments1_ m)) m), k.
Qed.

(** C5. On a map at rest, for a block with code that overlaps no
    registered one: when the first insertion is refused memory, [insert]
    returns [false] and the map, its published vector and both pointers
    included, is what it was, no exchange having taken place; when the
    first insertion goes through and the second is refused memory, the
    exchange has taken place and [insert] crashes the process. *)
Theorem insert_allocation_failures (alloc2 : bool) cs m :
  quiescent m → Forall (apart cs) (segments1_ m) → 0 < CodeBlock.length cs →
  insert false alloc2 cs m = Ok (m, false) ∧
  insertFirst false cs m = Ok (inl m) ∧
  insert true false cs m = Crash ∧
  ∃ m1 (idx : nat), insertFirst true cs m = Ok (inr (m1, idx)) ∧
    readonlyCodeBlocks_ m1 = mutableCodeBlocks_ m ∧
    mutableCodeBlocks_ m1 = readonlyCodeBlocks_ m ∧
    deref (readonlyCodeBlocks_ m1) m1
      = take idx (segments1_ m) ++ cs :: drop idx (segments1_ m).
Proof.
  intros Hq Hapart Hlen.
  pose proof (q_pointers m Hq) as Hp.
  destruct (search_total (segments1_ m) (CodeBlock.base cs))
    as (found & idx & Hrun & Hidx & Hhit).
  pose proof (search_fresh _ _ _ _ Hapart Hlen Hrun) as ->.
  rewrite !(insert_run _ _ _ _ _ _ Hq Hrun Hidx).
  rewrite !(insertFirst_run _ _ _ _ _ Hq Hrun Hidx).
  rewrite andb_false_r. split_and!; try done.
  eexists _, idx. split; [done |].
  split_and!; [apply published_pointers | apply published_pointers |].
  by apply deref_published.
Qed.

End BlockMapFacts.

(** The scenario of the specification: three blocks at 0x1000, 0x2000 and
    0x3000, each 0x500 long. *)
Example lookup_in_second_block :
  @ThreadSafeCodeBlockMap.lookup debugBuild noRanges true 0x2200 registeredMap
  = Ok (registeredMap, Some (blockAt 0x2000 0x500), Some 0).
Proof. reflexivity. Qed.

Example lookup_in_gap :
  @ThreadSafeCodeBlockMap.lookup debugBuild noRanges true 0x1800 registeredMap
  = Ok (registeredMap, None, Some 0).
Proof. reflexivity. Qed.

Example lookup_while_mutex_held :
  @ThreadSafeCodeBlockMap.lookup debugBuild noRanges false 0x3004
    (ThreadSafeCodeBlockMap.setMutex true registeredMap)
  = Ok (ThreadSafeCodeBlockMap.setMutex true registeredMap,
        Some (blockAt 0x3000 0x500), None).
Proof. reflexivity. Qed.

Example insert_while_mutex_held :
  @ThreadSafeCodeBlockMap.insert debugBuild true true (blockAt 0x2800 0x100)
    (ThreadSafeCodeBlockMap.setMutex true registeredMap) = Spin.
Proof. reflexivity. Qed.

Example insert_between :
  @ThreadSafeCodeBlockMap.insert releaseBuild true true (blockAt 0x2800 0x100)
    registeredMap
  = Ok (ThreadSafeCodeBlockMap.mk false
          [blockAt 0x1000 0x500; blockAt 0x2000 0x500; blockAt 0x2800 0x100;
           blockAt 0x3000 0x500]
          [blockAt 0x1000 0x500; blockAt 0x2000 0x500; blockAt 0x2800 0x100;
           blockAt 0x3000 0x500]
          ThreadSafeCodeBlockMap.Segments2 ThreadSafeCodeBlockMap.Segments1 0,
        true).
Proof. reflexivity. Qed.

Example remove_second :
  @ThreadSafeCodeBlockMap.remove debugBuild (blockAt 0x2000 0x500) registeredMap
  = Ok (ThreadSafeCodeBlockMap.mk false
          [blockAt 0x1000 0x500; blockAt 0x3000 0x500]
          [blockAt 0x1000 0x500; blockAt 0x3000 0x500]
          ThreadSafeCodeBlockMap.Segments2 ThreadSafeCodeBlockMap.Segments1 0,
        2%nat).
Proof. reflexivity. Qed.

Lemma lookup_containing_block_or_null_witness :
  0 ≤ ThreadSafeCodeBlockMap.numActiveLookups_ registeredMap
    < 2 ^ @SIZE_BITS debugBuild - 1 ∧
  ∃ result stored,
    @ThreadSafeCodeBlockMap.lookup debugBuild noRanges true 0x2200 registeredMap
      = Ok (registeredMap, result, stored) ∧
    match result with
    | Some cb =>
        cb ∈ threeBlocks ∧
        CodeBlock.base cb ≤ 0x2200 < CodeBlock.base cb + CodeBlock.length cb ∧
        stored = Some (noRanges cb 0x2200)
    | None => stored = Some 0
    end.
Proof.
  assert (0 ≤ ThreadSafeCodeBlockMap.numActiveLookups_ registeredMap
            < 2 ^ @SIZE_BITS debugBuild - 1) as Hn by by_computation.
  split; [exact Hn |].
  destruct (@lookup_containing_block_or_null debugBuild noRanges true 0x2200
              registeredMap Hn) as (result & stored & Hrun & _ & Hresult).
  exists result, stored. split; [exact Hrun | exact Hresult].
Defined.

Lemma registeredMap_quiescent : ThreadSafeCodeBlockMap.quiescent registeredMap.
Proof. split; [reflexivity | reflexivity | discriminate | reflexivity]. Defined.

Lemma threeBlocks_sorted : ThreadSafeCodeBlockMap.sortedDisjoint threeBlocks.
Proof.
  repeat (constructor; [| repeat constructor; vm_compute; discriminate]).
  constructor.
Defined.

Lemma newBlock_apart :
  Forall (ThreadSafeCodeBlockMap.apart (blockAt 0x2800 0x100)) threeBlocks.
Proof.
  constructor; [right; vm_compute; discriminate |].
  constructor; [right; vm_compute; discriminate |].
  constructor; [left; vm_compute; discriminate |].
  constructor.
Defined.

(** C4, as stated, fails: [insert] completes, every assertion of a DEBUG
    build passing, for a block whose base lies in no registered block but
    whose end runs into the next one, and the vector it publishes has
    overlapping neighbours. *)
Lemma insert_overlapping_completes :
  ThreadSafeCodeBlockMap.quiescent registeredMap ∧
  ThreadSafeCodeBlockMap.sortedDisjoint
    (ThreadSafeCodeBlockMap.deref
       (ThreadSafeCodeBlockMap.readonlyCodeBlocks_ registeredMap) registeredMap) ∧
  @ThreadSafeCodeBlockMap.insert debugBuild true true (blockAt 0x1F00 0x200)
    registeredMap
  = Ok (ThreadSafeCodeBlockMap.mk false
          [blockAt 0x1000 0x500; blockAt 0x1F00 0x200; blockAt 0x2000 0x500;
           blockAt 0x3000 0x500]
          [blockAt 0x1000 0x500; blockAt 0x1F00 0x200; blockAt 0x2000 0x500;
           blockAt 0x3000 0x500]
          ThreadSafeCodeBlockMap.Segments2 ThreadSafeCodeBlockMap.Segments1 0,
        true) ∧
  CodeBlock.containsCodePC 0x2080 (blockAt 0x1F00 0x200) = true ∧
  CodeBlock.containsCodePC 0x2080 (blockAt 0x2000 0x500) = true ∧
  ¬ ThreadSafeCodeBlockMap.sortedDisjoint
      [blockAt 0x1000 0x500; blockAt 0x1F00 0x200; blockAt 0x2000 0x500;
       blockAt 0x3000 0x500].
Proof.
  split; [exact registeredMap_quiescent |].
  split; [exact threeBlocks_sorted |].
  split; [reflexivity |]. split; [reflexivity |]. split; [reflexivity |].
  intros Hs. apply StronglySorted_cons in Hs as [_ Hs].
  apply StronglySorted_cons in Hs as [Hnext _].
  apply Forall_cons in Hnext as [Hnext _].
  vm_compute in Hnext. by apply Hnext.
Qed.

Lemma writers_keep_vectors_equal_and_sorted_witness :
  ThreadSafeCodeBlockMap.quiescent registeredMap ∧
  ThreadSafeCodeBlockMap.sortedDisjoint threeBlocks ∧
  Forall (ThreadSafeCodeBlockMap.apart (blockAt 0x2800 0x100)) threeBlocks ∧
  (∃ m', @ThreadSafeCodeBlockMap.insert debugBuild true true
           (blockAt 0x2800 0x100) registeredMap = Ok (m', true)) ∧
  (∃ m' idx, @ThreadSafeCodeBlockMap.remove debugBuild (blockAt 0x2000 0x500)
               registeredMap
             = Ok (m', length (ThreadSafeCodeBlockMap.segments1_ m')) ∧
             threeBlocks !! idx = Some (blockAt 0x2000 0x500) ∧
             ThreadSafeCodeBlockMap.segments1_ m' = delete idx threeBlocks).
Proof.
  destruct (@writers_keep_vectors_equal_and_sorted debugBuild true true
              (blockAt 0x2800 0x100) registeredMap
              registeredMap_quiescent) as [_ Hinsert].
  destruct (@writers_keep_vectors_equal_and_sorted debugBuild true true
              (blockAt 0x2000 0x500) registeredMap
              registeredMap_quiescent) as [_ Hremove].
  split; [exact registeredMap_quiescent |].
  split; [exact threeBlocks_sorted |]. split; [exact newBlock_apart |]. split.
  - destruct (Hinsert threeBlocks_sorted) as [Hruns _].
    destruct (Hruns newBlock_apart) as (_ & _ & Hcompletes).
    apply Hcompletes. by_computation.
  - destruct (Hremove threeBlocks_sorted) as (_ & _ & _ & Hcompletes).
    apply Hcompletes; [| by_computation].
    apply list_elem_of_lookup. exists 1%nat. reflexivity.
Defined.

Lemma insert_allocation_failures_witness :
  ThreadSafeCodeBlockMap.quiescent registeredMap ∧
  Forall (ThreadSafeCodeBlockMap.apart (blockAt 0x2800 0x100)) threeBlocks ∧
  0 < CodeBlock.length (blockAt 0x2800 0x100) ∧
  @ThreadSafeCodeBlockMap.insert debugBuild false true (blockAt 0x2800 0x100)
     registeredMap = Ok (registeredMap, false) ∧
  @ThreadSafeCodeBlockMap.insert debugBuild true false (blockAt 0x2800 0x100)
     registeredMap = Crash.
Proof.
  assert (0 < CodeBlock.length (blockAt 0x2800 0x100)) as Hlen by by_computation.
  destruct (@insert_allocation_failures debugBuild true (blockAt 0x2800 0x100)
              registeredMap registeredMap_quiescent newBlock_apart Hlen)
    as (Hfirst & _ & Hsecond & _).
  split; [exact registeredMap_quiescent |].
  split; [exact newBlock_apart |]. split; [exact Hlen |].
  split; [exact Hfirst | exact Hsecond].
Defined.

(** ** JumpTables *)

Section JumpTablesFacts.
Context `{Build} `{CompileModes}.
Import JumpTables.
Implicit Types (jt : t) (tp : TablePointer).

Lemma ptrBytes_pos : 0 < ptrBytes.
Proof. unfold ptrBytes, SIZE_BITS. by destruct WORD. Qed.

Lemma MOZ_ASSERT_true : MOZ_ASSERT true = Ok ().
Proof. unfold MOZ_ASSERT. by destruct DEBUG. Qed.

Lemma setJitEntryIfNull_keeps i target jt jt' j v :
  setJitEntryIfNull i target jt = Ok jt' →
  jitEntry j jt = Some v → v ≠ 0 → jitEntry j jt' = Some v.
Proof.
  unfold setJitEntryIfNull, jitEntry.
  destruct (MOZ_ASSERT _); simpl; try done.
  unfold load. destruct (inRange i (jit_ jt)) eqn:Hin; simpl; [| done].
  destruct (slots (jit_ jt) !! Z.to_nat i) as [cur |] eqn:Hcur; simpl; [| done].
  destruct (Z.eqb_spec cur 0) as [-> | Hne]; [| by intros [= <-]].
  unfold store. rewrite Hin. simpl. intros [= <-] Hj Hv. simpl.
  destruct (decide (Z.to_nat i = Z.to_nat j)) as [Heq | Hneq].
  - rewrite Heq in Hcur. congruence.
  - by rewrite list_lookup_insert_ne.
Qed.

Lemma setTieringEntry_keeps_jit i target jt jt' :
  setTieringEntry i target jt = Ok jt' →
  jit_ jt' = jit_ jt ∧ mode_ jt' = mode_ jt ∧ numFuncs_ jt' = numFuncs_ jt.
Proof.
  unfold setTieringEntry. destruct (MOZ_ASSERT _); simpl; try done.
  destruct (decide _); [| by intros [= <-]].
  destruct (store _ _ _); simpl; try done. by intros [= <-].
Qed.

Lemma run_without_setJitEntry ops :
  forallb (λ o, negb (isSetJitEntry o)) ops = true →
  ∀ i jt, jitEntryStable ops i jt.
Proof.
  induction ops as [| o rest IH]; intros Hops i jt v jt' Hv Hne; simpl.
  - by intros [= <-].
  - simpl in Hops. apply andb_true_iff in Hops as [Ho Hrest].
    destruct (step o jt) as [jt1 | | | |] eqn:Hstep; simpl; try done.
    intros Hrun. apply (IH Hrest i jt1 v jt'); [| done | done].
    destruct o as [? ? | i' target | i' target]; simpl in *; [done | |].
    + by apply (setJitEntryIfNull_keeps i' target jt).
    + apply setTieringEntry_keeps_jit in Hstep as (Hjit & _).
      unfold jitEntry. by rewrite Hjit.
Qed.

Lemma step_keeps_mode o jt jt' :
  step o jt = Ok jt' →
  mode_ jt' = mode_ jt ∧
  (mode_ jt ≠ Tier1 → tiering_ jt' = tiering_ jt).
Proof.
  destruct o as [i target | i target | i target]; simpl.
  - unfold setJitEntry. destruct (MOZ_ASSERT _); simpl; try done.
    destruct (store _ _ _); simpl; try done. by intros [= <-].
  - unfold setJitEntryIfNull. destruct (MOZ_ASSERT _); simpl; try done.
    destruct (load _ _); simpl; try done.
    destruct (_ =? _); [| by intros [= <-]].
    destruct (store _ _ _); simpl; try done. by intros [= <-].
  - unfold setTieringEntry. destruct (MOZ_ASSERT _); simpl; try done.
    destruct (decide _) as [Heq | Hne]; [| by intros [= <-]].
    destruct (store _ _ _); simpl; try done. by intros [= <-].
Qed.

(** C2 (amended). Through any run of [setJitEntryIfNull] and
    [setTieringEntry] calls a jit-entry slot that is non-null keeps its
    value: the compare-and-swap of [setJitEntryIfNull] writes only over
    [nullptr] and leaves every other slot alone.  [setJitEntry] is not part
    of this: it stores its argument whatever the slot holds. *)
Theorem jit_entry_stable_without_setJitEntry ops (i : Z) jt :
  forallb (λ o, negb (isSetJitEntry o)) ops = true →
  jitEntryStable ops i jt ∧
  (∀ target jt', setJitEntryIfNull i target jt = Ok jt' →
     (jitEntry i jt = Some 0 ∧ jitEntry i jt' = Some target) ∨ jt' = jt) ∧
  (∀ target jt', setJitEntry i target jt = Ok jt' →
     jitEntry i jt' = Some target).
Proof.
  intros Hops. split_and!.
  - by apply run_without_setJitEntry.
  - intros target jt'. unfold setJitEntryIfNull, jitEntry.
    destruct (MOZ_ASSERT _); simpl; try done.
    unfold load. destruct (inRange i (jit_ jt)) eqn:Hin; simpl; [| done].
    destruct (slots (jit_ jt) !! Z.to_nat i) as [cur |] eqn:Hcur; simpl; [| done].
    destruct (Z.eqb_spec cur 0) as [-> | Hne]; [| intros [= <-]; by right].
    unfold store. rewrite Hin. simpl. intros [= <-]. left. simpl.
    split; [done |]. apply list_lookup_insert_eq.
    by apply lookup_lt_Some in Hcur.
  - intros target jt'. unfold setJitEntry, jitEntry.
    destruct (MOZ_ASSERT _); simpl; try done.
    unfold store. destruct (inRange i (jit_ jt)) eqn:Hin; simpl; [| done].
    intros [= <-]. simpl. apply list_lookup_insert_eq.
    unfold inRange in Hin. apply andb_true_iff in Hin as [Hlo Hhi].
    apply Z.leb_le in Hlo. apply Z.ltb_lt in Hhi. lia.
Qed.

(** C9. For a slot [i < numFuncs] of the jit-entry table that holds a stub,
    [funcIndexFromJitEntry] maps the address [getAddressOfJitEntry i]
    returns back to [i]. *)
Theorem funcIndexFromJitEntry_of_address (i entry : Z) jt :
  wf jt → 0 ≤ i < numFuncs_ jt → jitEntry i jt = Some entry → entry ≠ 0 →
  getAddressOfJitEntry i jt = Ok (slotAddress i (jit_ jt)) ∧
  funcIndexFromJitEntry (slotAddress i (jit_ jt)) jt = Ok i.
Proof.
  intros [[Hn0 Hn] Hlen] Hi Hentry Hne.
  pose proof ptrBytes_pos as Hpb.
  unfold jitEntry in Hentry. split.
  - unfold getAddressOfJitEntry.
    destruct (Z.ltb_spec i (numFuncs_ jt)); [| lia].
    rewrite MOZ_ASSERT_true. simpl.
    unfold load, inRange. rewrite Hentry, Hlen.
    destruct (Z.leb_spec 0 i); [| lia].
    destruct (Z.ltb_spec i (numFuncs_ jt)); [| lia]. simpl.
    destruct (Z.eqb_spec entry 0); [done |]. simpl.
    rewrite MOZ_ASSERT_true. by destruct DEBUG.
  - unfold funcIndexFromJitEntry, slotAddress.
    assert (usize (numFuncs_ jt - 1) = numFuncs_ jt - 1) as ->.
    { unfold usize. apply Z.mod_small. lia. }
    destruct (Z.leb_spec (addr (jit_ jt) + 0 * ptrBytes)
                (addr (jit_ jt) + i * ptrBytes)); [| nia].
    destruct (Z.leb_spec (addr (jit_ jt) + i * ptrBytes)
                (addr (jit_ jt) + (numFuncs_ jt - 1) * ptrBytes)); [| nia].
    rewrite MOZ_ASSERT_true. simpl.
    replace (addr (jit_ jt) + i * ptrBytes - (addr (jit_ jt) + 0 * ptrBytes))
      with (i * ptrBytes) by lia.
    rewrite Z.quot_mul by lia.
    unfold usize. rewrite Z.mod_small by lia. done.
Qed.

(** C10. When the compile mode is not [Tier1], [setTieringEntry] changes
    nothing, neither table: whenever it returns the jump tables are what
    they were, and it returns for every [i < numFuncs] and, without DEBUG,
    for every [i]; and through any run of table writers the tiering table
    stays as it is. *)
Theorem setTieringEntry_noop_unless_Tier1 (i target : Z) jt :
  mode_ jt ≠ Tier1 →
  (∀ jt', setTieringEntry i target jt = Ok jt' → jt' = jt) ∧
  (i < numFuncs_ jt → setTieringEntry i target jt = Ok jt) ∧
  (DEBUG = false → setTieringEntry i target jt = Ok jt) ∧
  (∀ ops jt', run ops jt = Ok jt' →
     tiering_ jt' = tiering_ jt ∧ mode_ jt' = mode_ jt).
Proof.
  intros Hmode. split_and!.
  - intros jt'. unfold setTieringEntry.
    destruct (MOZ_ASSERT _); simpl; try done.
    destruct (decide _); [done |]. by intros [= <-].
  - intros Hi. unfold setTieringEntry.
    destruct (Z.ltb_spec i (numFuncs_ jt)); [| lia].
    rewrite MOZ_ASSERT_true. simpl. by destruct (decide _).
  - intros Hd. unfold setTieringEntry, MOZ_ASSERT. rewrite Hd. simpl.
    by destruct (decide _).
  - intros ops. revert jt Hmode.
    induction ops as [| o rest IH]; intros jt Hmode jt'; simpl.
    + by intros [= <-].
    + destruct (step o jt) as [jt1 | | | |] eqn:Hstep; simpl; try done.
      apply step_keeps_mode in Hstep as [Hm Ht].
      intros Hrun. apply IH in Hrun as [Ht' Hm']; [| congruence].
      split; [rewrite Ht'; by apply Ht | congruence].
Qed.

End JumpTablesFacts.

(** C2, as stated, fails: [setJitEntry] is a plain store, also over a slot
    that already holds a stub. *)
Lemma setJitEntry_overwrites_stub :
  @JumpTables.jitEntry tier1Modes 0 (tablesIn ModeTier1) = Some 0x1000 ∧
  ¬ @JumpTables.jitEntryStable debugBuild tier1Modes
      [JumpTables.SetJitEntry 0 0] 0 (tablesIn ModeTier1) ∧
  ¬ @JumpTables.jitEntryStable debugBuild tier1Modes
      [JumpTables.SetJitEntry 0 0x2000] 0 (tablesIn ModeTier1).
Proof.
  split; [reflexivity |]. split.
  - intros Hst.
    specialize (Hst 0x1000 _ eq_refl ltac:(discriminate) eq_refl). discriminate.
  - intros Hst.
    specialize (Hst 0x1000 _ eq_refl ltac:(discriminate) eq_refl). discriminate.
Qed.

Lemma jit_entry_stable_without_setJitEntry_witness :
  forallb (λ o, negb (JumpTables.isSetJitEntry o))
    [JumpTables.SetJitEntryIfNull 0 0x2000; JumpTables.SetJitEntryIfNull 1 0x2000;
     JumpTables.SetTieringEntry 2 0x4000] = true ∧
  @JumpTables.jitEntryStable debugBuild tier1Modes
    [JumpTables.SetJitEntryIfNull 0 0x2000; JumpTables.SetJitEntryIfNull 1 0x2000;
     JumpTables.SetTieringEntry 2 0x4000] 0 (tablesIn ModeTier1).
Proof.
  split; [reflexivity |].
  exact (proj1 (@jit_entry_stable_without_setJitEntry debugBuild tier1Modes
                  [JumpTables.SetJitEntryIfNull 0 0x2000;
                   JumpTables.SetJitEntryIfNull 1 0x2000;
                   JumpTables.SetTieringEntry 2 0x4000] 0 (tablesIn ModeTier1)
                  eq_refl)).
Defined.

Example racing_installers_converge :
  @JumpTables.run debugBuild tier1Modes
    [JumpTables.SetJitEntryIfNull 1 0x2000; JumpTables.SetJitEntryIfNull 1 0x2fff]
    (tablesIn ModeTier1)
  = Ok (JumpTables.mk (ModeTier1 : @CompileMode tier1Modes)
          (JumpTables.mkTable 0x7000 [0; 0; 0])
          (JumpTables.mkTable 0x8000 [0x1000; 0x2000; 0x3000]) 3).
Proof. reflexivity. Qed.

Lemma funcIndexFromJitEntry_of_address_witness :
  @JumpTables.wf debugBuild tier1Modes (tablesIn ModeTier1) ∧
  @JumpTables.getAddressOfJitEntry debugBuild tier1Modes 2 (tablesIn ModeTier1)
    = Ok 0x8010 ∧
  @JumpTables.funcIndexFromJitEntry debugBuild tier1Modes 0x8010 (tablesIn ModeTier1)
    = Ok 2.
Proof.
  assert (@JumpTables.wf debugBuild tier1Modes (tablesIn ModeTier1)) as Hwf
    by by_computation.
  assert (0 ≤ 2 < JumpTables.numFuncs_ (tablesIn ModeTier1)) as Hi by by_computation.
  assert ((0x3000 : Z) ≠ 0) as Hne by discriminate.
  destruct (@funcIndexFromJitEntry_of_address debugBuild tier1Modes 2 0x3000
              (tablesIn ModeTier1) Hwf Hi eq_refl Hne) as [Haddr Hback].
  split; [exact Hwf |]. split; [exact Haddr | exact Hback].
Defined.

Lemma setTieringEntry_noop_unless_Tier1_witness :
  @JumpTables.mode_ tier1Modes (tablesIn ModeOnce) ≠ @Tier1 tier1Modes ∧
  @JumpTables.setTieringEntry debugBuild tier1Modes 1 0x4000 (tablesIn ModeOnce)
    = Ok (tablesIn ModeOnce).
Proof.
  assert (@JumpTables.mode_ tier1Modes (tablesIn ModeOnce) ≠ @Tier1 tier1Modes)
    as Hmode by discriminate.
  split; [exact Hmode |].
  destruct (@setTieringEntry_noop_unless_Tier1 debugBuild tier1Modes 1 0x4000
              (tablesIn ModeOnce) Hmode) as (_ & Hruns & _).
  apply Hruns. by_computation.
Defined.

Example setTieringEntry_in_Tier1 :
  @JumpTables.setTieringEntry debugBuild tier1Modes 1 0x4000 (tablesIn ModeTier1)
  = Ok (JumpTables.mk (ModeTier1 : @CompileMode tier1Modes)
          (JumpTables.mkTable 0x7000 [0; 0x4000; 0])
          (JumpTables.mkTable 0x8000 [0x1000; 0; 0x3000]) 3).
Proof. reflexivity. Qed.

(** ** The tier-2 handshake *)

Section Tier2Facts.
Import Code.
Implicit Types (c : t) (tr : transition).

Lemma step_rank tr c c' :
  step tr c = Some c' →
  (rank (tier2State c) < rank (tier2State c'))%nat ∧
  hasTier2_ c = false ∧
  (hasTier2_ c' = true ↔ tr = Publish).
Proof.
  unfold step, tier2State. destruct tr as [block |].
  - destruct (hasTier2_ c); simpl; [done |].
    destruct (Z.eqb_spec (tier2_ c) 0); simpl; [| done].
    destruct (Z.eqb_spec block 0); simpl; [done |].
    intros [= <-]. simpl. destruct (Z.eqb_spec block 0); [done |].
    simpl. split_and!; [lia | done | done].
  - destruct (hasTier2_ c); simpl; [done |].
    destruct (Z.eqb_spec (tier2_ c) 0); simpl; [done |].
    intros [= <-]. simpl. split_and!; [lia | done | done].
Qed.

(** Nothing moves once [hasTier2_] is set. *)
Lemma published_final tr c : hasTier2_ c = true → step tr c = None.
Proof. intros Hp. unfold step. rewrite Hp. by destruct tr. Qed.

Lemma trace_head trs c states :
  trace trs c = Some states → ∃ rest, states = c :: rest.
Proof.
  destruct trs as [| tr trs]; simpl.
  - intros [= <-]. by exists [].
  - destruct (step tr c); simpl; [| done].
    destruct (trace trs _); simpl; [| done]. intros [= <-]. eauto.
Qed.

Lemma trace_published trs c states :
  hasTier2_ c = true → trace trs c = Some states → trs = [] ∧ states = [c].
Proof.
  intros Hp. destruct trs as [| tr trs]; simpl.
  - by intros [= <-].
  - by rewrite published_final.
Qed.

Lemma trace_ordered trs : ∀ c states,
  trace trs c = Some states →
  StronglySorted (λ a b, (rank (tier2State a) < rank (tier2State b))%nat) states ∧
  Forall (λ a, (rank (tier2State c) ≤ rank (tier2State a))%nat) states.
Proof.
  induction trs as [| tr trs IH]; intros c states; simpl.
  - intros [= <-]. split; repeat constructor.
  - destruct (step tr c) as [c1 |] eqn:Hstep; simpl; [| done].
    destruct (trace trs c1) as [states1 |] eqn:Htr; simpl; [| done].
    intros [= <-]. apply step_rank in Hstep as (Hlt & _).
    apply IH in Htr as [Hs Hall]. split.
    + constructor; [done |]. eapply Forall_impl; [exact Hall |].
      simpl. intros a Ha. lia.
    + constructor; [lia |]. eapply Forall_impl; [exact Hall |].
      simpl. intros a Ha. lia.
Qed.

Lemma trace_rises trs : ∀ c states,
  trace trs c = Some states →
  rises (hasTier2_ <$> states) = publications trs ∧
  (publications trs ≤ 1)%nat.
Proof.
  induction trs as [| tr trs IH]; intros c states; simpl.
  - intros [= <-]. unfold publications. simpl. split; [done | lia].
  - destruct (step tr c) as [c1 |] eqn:Hstep; simpl; [| done].
    destruct (trace trs c1) as [states1 |] eqn:Htr; simpl; [| done].
    intros [= <-].
    destruct (trace_head _ _ _ Htr) as [rest ->].
    apply step_rank in Hstep as (_ & Hc & Hpub).
    destruct (IH _ _ Htr) as [Hr Hle].
    change (publications (tr :: trs))
      with ((if isPublish tr then 1 else 0) + publications trs)%nat.
    change (rises (hasTier2_ <$> c :: c1 :: rest))
      with ((if negb (hasTier2_ c) && hasTier2_ c1 then 1 else 0)
            + rises (hasTier2_ <$> c1 :: rest))%nat.
    rewrite Hr, Hc. simpl.
    destruct tr as [block |]; simpl.
    + destruct (hasTier2_ c1) eqn:H1; [| done].
      destruct Hpub as [Hpub _]. by specialize (Hpub eq_refl).
    + destruct Hpub as [_ Hpub]. rewrite (Hpub eq_refl).
      apply trace_published in Htr as [-> _]; [| by apply Hpub].
      unfold publications. simpl. split; lia.
Qed.

Lemma finishCompleteTier2_true linked registered stubbed block c c' :
  finishCompleteTier2 linked registered stubbed block c = Some (true, c') →
  hasTier2_ c = false ∧ hasTier2_ c' = true ∧ tier2_ c' = block ∧
  trace [Install block; Publish] c = Some [c; mk block false; c'].
Proof.
  unfold finishCompleteTier2, trace, step.
  destruct (linked && registered && stubbed).
  - destruct (hasTier2_ c); simpl; [done |].
    destruct (tier2_ c =? 0); simpl; [| done].
    destruct (block =? 0) eqn:Hb; simpl; [done |].
    rewrite Hb. simpl. by intros [= <-].
  - by destruct (negb (hasTier2_ c) && (tier2_ c =? 0)).
Qed.

Lemma finishCompleteTier2_false linked registered stubbed block c c' :
  finishCompleteTier2 linked registered stubbed block c = Some (false, c') →
  c' = c.
Proof.
  unfold finishCompleteTier2, step.
  destruct (linked && registered && stubbed).
  - destruct (hasTier2_ c); simpl; [done |].
    destruct (tier2_ c =? 0); simpl; [| done].
    destruct (block =? 0) eqn:Hb; simpl; [done |].
    rewrite Hb. simpl. intros [=].
  - destruct (negb (hasTier2_ c) && (tier2_ c =? 0)); [| done].
    by intros [= <-].
Qed.

Lemma finishCompleteTier2_published linked registered stubbed block c :
  hasTier2_ c = true →
  finishCompleteTier2 linked registered stubbed block c = None.
Proof.
  intros Hp. unfold finishCompleteTier2, step. rewrite Hp. simpl.
  by destruct (linked && registered && stubbed).
Qed.

Lemma finishAll_once calls : ∀ c oks c',
  finishAll calls c = Some (oks, c') → (countTrue oks ≤ 1)%nat.
Proof.
  induction calls as [| [[[linked registered] stubbed] block] rest IH];
    intros c oks c'; simpl.
  - intros [= <- <-]. simpl. lia.
  - destruct (finishCompleteTier2 _ _ _ _ c) as [[ok c1] |] eqn:Hcall;
      simpl; [| done].
    destruct (finishAll rest c1) as [[oks1 c2] |] eqn:Hrest; simpl; [| done].
    intros [= <- <-]. destruct ok.
    + apply finishCompleteTier2_true in Hcall as (Hc & Hc1 & _).
      destruct rest as [| [[[l2 r2] s2] b2] rest'].
      * simpl in Hrest. injection Hrest as <- <-. simpl. lia.
      * simpl in Hrest.
        by rewrite finishCompleteTier2_published in Hrest.
    + apply finishCompleteTier2_false in Hcall as ->.
      apply IH in Hrest. simpl. lia.
Qed.

(** C3. Along every run of the protocol's transitions the state of
    [(tier2_, hasTier2_)] only moves forward through Absent, Building,
    Published; [hasTier2_] goes from [false] to [true] at most once, and
    exactly as often as the run publishes; once it is [true] no transition
    exists any more, so it is never reset and [tier2_] is never written
    again; and of any run of [finishCompleteTier2] calls at most one
    returns [true]. *)
Theorem tier2_handshake (trs : list transition) c states :
  trace trs c = Some states →
  StronglySorted
    (λ a b, (rank (tier2State a) < rank (tier2State b))%nat) states ∧
  (rises (hasTier2_ <$> states) ≤ 1)%nat ∧
  rises (hasTier2_ <$> states)
    = publications trs ∧
  (∀ (i : nat) a, states !! i = Some a → hasTier2_ a = true →
     states !! S i = None ∧ ∀ tr, step tr a = None) ∧
  (∀ calls oks c', finishAll calls c = Some (oks, c') →
     (countTrue oks ≤ 1)%nat).
Proof.
  intros Htr.
  destruct (trace_ordered _ _ _ Htr) as [Hsorted _].
  destruct (trace_rises _ _ _ Htr) as [Hr Hle].
  split_and!; [done | lia | done | |].
  - intros i a Ha Hp. split; [| intros tr; by apply published_final].
    destruct (states !! S i) as [b |] eqn:Hb; [| done].
    assert (rank (tier2State a) < rank (tier2State b))%nat as Hlt.
    { clear -Hsorted Ha Hb. revert i Ha Hb.
      induction Hsorted as [| x l Hs IH Hx]; intros i Ha Hb; [done |].
      destruct i as [| i]; simpl in *.
      - injection Ha as <-. rewrite Forall_forall in Hx. apply Hx.
        apply list_elem_of_lookup. eauto.
      - by apply (IH i). }
    unfold tier2State in Hlt. rewrite Hp in Hlt. simpl in Hlt.
    destruct (hasTier2_ b); [simpl in Hlt; lia |].
    destruct (tier2_ b =? 0); simpl in Hlt; lia.
  - intros calls oks c' Hrun. by apply finishAll_once in Hrun.
Qed.

End Tier2Facts.

Lemma tier2_handshake_witness :
  Code.trace [Code.Install 0x5000; Code.Publish] Code.create
    = Some [Code.mk 0 false; Code.mk 0x5000 false; Code.mk 0x5000 true] ∧
  (Code.rises (Code.hasTier2_ <$>
     [Code.mk 0 false; Code.mk 0x5000 false; Code.mk 0x5000 true]) ≤ 1)%nat ∧
  ∀ tr, Code.step tr (Code.mk 0x5000 true) = None.
Proof.
  destruct (tier2_handshake [Code.Install 0x5000; Code.Publish] Code.create
              [Code.mk 0 false; Code.mk 0x5000 false; Code.mk 0x5000 true]
              eq_refl) as (_ & Hrises & _ & Hfinal & _).
  split; [reflexivity |]. split; [exact Hrises |].
  exact (proj2 (Hfinal 2%nat (Code.mk 0x5000 true) eq_refl eq_refl)).
Defined.

Example finishCompleteTier2_twice :
  Code.finishAll [(true, true, false, 0x5000); (true, true, true, 0x6000)] Code.create
    = Some ([false; true], Code.mk 0x6000 true) ∧
  Code.finishAll [(true, true, true, 0x5000); (true, true, true, 0x6000)] Code.create
    = None.
Proof. split; reflexivity. Qed.

(** ** Static linking *)

Section LinkingFacts.
Context `{Build}.
Variable SymbolicAddressTarget : nat → option Z.
Variable placeholder : nat → Z.
Import LinkData Linking.
Implicit Types (buf : gmap Z Z) (patches : list (Z * Z)).

Lemma applyPatches_app patches1 patches2 buf :
  applyPatches (patches1 ++ patches2) buf
    = applyPatches patches2 (applyPatches patches1 buf).
Proof. unfold applyPatches. apply foldl_app. Qed.

Lemma applyPatches_elsewhere patches : ∀ buf (k : Z),
  k ∉ patches.*1 → applyPatches patches buf !! k = buf !! k.
Proof.
  induction patches as [| [o v] rest IH]; intros buf k Hk; [done |].
  simpl in *. apply not_elem_of_cons in Hk as [Hne Hk].
  change (applyPatches ((o, v) :: rest) buf)
    with (applyPatches rest (<[o := v]> buf)).
  rewrite IH by done. by rewrite lookup_insert_ne.
Qed.

(** A patched location holds what the last patch put there, whatever the
    buffer held. *)
Lemma applyPatches_overwrites patches : ∀ buf1 buf2 (k : Z),
  k ∈ patches.*1 →
  applyPatches patches buf1 !! k = applyPatches patches buf2 !! k.
Proof.
  induction patches as [| [o v] rest IH]; intros buf1 buf2 k Hk.
  - by apply elem_of_nil in Hk.
  - change (applyPatches ((o, v) :: rest) buf1)
      with (applyPatches rest (<[o := v]> buf1)).
    change (applyPatches ((o, v) :: rest) buf2)
      with (applyPatches rest (<[o := v]> buf2)).
    destruct (decide (k ∈ rest.*1)) as [Hin | Hout]; [by apply IH |].
    rewrite !applyPatches_elsewhere by done.
    simpl in Hk. apply elem_of_cons in Hk as [-> | Hk]; [| done].
    by rewrite !lookup_insert_eq.
Qed.

Lemma applyPatches_same_locations patches1 patches2 buf :
  patches1.*1 = patches2.*1 →
  applyPatches patches2 (applyPatches patches1 buf) = applyPatches patches2 buf.
Proof.
  intros Hlocs. apply map_eq. intros k.
  destruct (decide (k ∈ patches2.*1)) as [Hin | Hout].
  - by apply applyPatches_overwrites.
  - rewrite !applyPatches_elsewhere by congruence. done.
Qed.

Lemma applyPatches_id patches : ∀ buf,
  Forall (λ p, buf !! p.1 = Some p.2) patches → applyPatches patches buf = buf.
Proof.
  induction patches as [| [o v] rest IH]; intros buf Hall; [done |].
  inversion Hall as [| ? ? Hhead Hrest]; subst. simpl in Hhead.
  change (applyPatches ((o, v) :: rest) buf)
    with (applyPatches rest (<[o := v]> buf)).
  rewrite insert_id by done. by apply IH.
Qed.

Lemma symbolicPatches_locations (a : SymbolicLinkArray) : ∀ (imm : nat) patches,
  symbolicPatches SymbolicAddressTarget imm a = Some patches →
  patches.*1 = (symbolicUnpatches placeholder imm a).*1.
Proof.
  induction a as [| offsets rest IH]; intros imm patches; simpl.
  - by intros [= <-].
  - destruct offsets as [| o offsets'].
    + simpl. destruct (symbolicPatches _ _ rest) as [others |] eqn:Hrest;
        simpl; [| done].
      intros [= <-]. by apply IH.
    + destruct (SymbolicAddressTarget imm) as [target |]; simpl; [| done].
      destruct (symbolicPatches _ _ rest) as [others |] eqn:Hrest;
        simpl; [| done].
      intros [= <-]. simpl. rewrite !fmap_app. f_equal. f_equal.
      * rewrite <- !list_fmap_compose. by apply list_fmap_ext.
      * by apply IH.
Qed.

(** C8. For a buffer in the form compilation leaves it in (each patch
    location of the LinkData holding its segment-relative value), whenever
    [StaticallyLink] succeeds, [StaticallyUnlink] gives the buffer back
    exactly: every patched location, internal or symbolic, holds its
    original value again and no other location changed. *)
Theorem StaticallyUnlink_StaticallyLink (base : Z) (ld : t) buf linked :
  unlinked placeholder ld buf →
  StaticallyLink SymbolicAddressTarget base ld buf = Some linked →
  StaticallyUnlink placeholder base ld linked = buf ∧
  Forall (λ p, StaticallyUnlink placeholder base ld linked !! p.1 = Some p.2)
         (unlinkPatches placeholder ld) ∧
  (∀ k : Z, k ∉ (unlinkPatches placeholder ld).*1 → linked !! k = buf !! k).
Proof.
  intros Hunlinked. unfold StaticallyLink, StaticallyUnlink.
  destruct (symbolicPatches _ 0 (symbolicLinks ld)) as [symbolic |] eqn:Hsym;
    simpl; [| done].
  intros [= <-].
  assert ((internalPatches base (internalLinks ld) ++ symbolic).*1
          = (unlinkPatches placeholder ld).*1) as Hlocs.
  { unfold unlinkPatches. rewrite !fmap_app. f_equal.
    - unfold internalPatches, internalUnpatches.
      rewrite <- !list_fmap_compose. by apply list_fmap_ext.
    - by apply symbolicPatches_locations. }
  assert (applyPatches (unlinkPatches placeholder ld)
            (applyPatches (internalPatches base (internalLinks ld) ++ symbolic) buf)
          = buf) as Hback.
  { rewrite applyPatches_same_locations by done. by apply applyPatches_id. }
  split_and!; [done | by rewrite Hback |].
  intros k Hk. apply applyPatches_elsewhere. by rewrite Hlocs.
Qed.

End LinkingFacts.

Example link_patches_buffer :
  @Linking.StaticallyLink debugBuild knownSymbols 0x100000 someLinks freshBuffer
  = Some (<[8 := 0x100040]> (<[24 := 0x100080]> (<[16 := 0x7f0000]>
      (<[32 := 0x7f0002]> (<[40 := 0x7f0002]> (<[0 := 0x90]> ∅)))))).
Proof. vm_compute. reflexivity. Qed.

Lemma StaticallyUnlink_StaticallyLink_witness :
  @Linking.unlinked allOnes someLinks freshBuffer ∧
  ∃ linked,
    @Linking.StaticallyLink debugBuild knownSymbols 0x100000 someLinks freshBuffer
      = Some linked ∧
    linked !! 8 = Some 0x100040 ∧
    Linking.StaticallyUnlink allOnes 0x100000 someLinks linked = freshBuffer.
Proof.
  assert (@Linking.unlinked allOnes someLinks freshBuffer) as Hfresh.
  { repeat constructor. }
  split; [exact Hfresh |].
  eexists. split; [reflexivity |]. split; [reflexivity |].
  exact (proj1 (@StaticallyUnlink_StaticallyLink debugBuild knownSymbols allOnes
                  0x100000 someLinks freshBuffer _ Hfresh eq_refl)).
Defined.

(* ================================================================== *)
(** * Further properties *)

(** ** CodeSegment: running out of room, and how claims line up *)

Section CodeSegmentMore.
Context `{Build}.
Variable AlignBytesNeeded : Z → Z.
Import CodeSegment.

Lemma total_nonneg (sizes : list Z) : Forall is_size_t sizes → 0 ≤ total sizes.
Proof.
  induction 1 as [| n rest [Hn _] _ IH]; unfold total in *; simpl; lia.
Qed.

(** X1. A claim that does not fit is never served: [claimSpace] returns no
    range at all, and with the assertions of [hasSpace] satisfied it stops
    the process by [MOZ_RELEASE_ASSERT], in builds with and without DEBUG. *)
Theorem claimSpace_without_room (bytes : Z) (s : t) :
  wf s → is_size_t bytes →
  capacityBytes_ s < lengthBytes_ s + bytes →
  (∀ r, claimSpace AlignBytesNeeded bytes s ≠ Ok r) ∧
  (AlignBytesNeeded bytes = bytes → capacityBytes_ s ≠ UINT32_MAX →
     claimSpace AlignBytesNeeded bytes s = Crash).
Proof.
  intros Hwf Hb Hfull.
  assert (∀ ok, hasSpace AlignBytesNeeded bytes s = Ok ok → ok = false) as Hno.
  { intros ok Hok. rewrite (hasSpace_sound _ _ _ _ Hwf Hb Hok).
    apply bool_decide_eq_false_2. lia. }
  split.
  - intros r. unfold claimSpace.
    destruct (hasSpace AlignBytesNeeded bytes s) as [ok | | | |] eqn:Hok;
      simpl; try done.
    by rewrite (Hno ok eq_refl).
  - intros Ha Hc. unfold claimSpace.
    destruct (hasSpace_total AlignBytesNeeded bytes s Ha Hc) as [ok Hok].
    rewrite Hok. simpl. by rewrite (Hno ok Hok).
Qed.

Lemma claimAll_tiles_from (sizes : list Z) : ∀ (s s' : t) (rs : list (Z * Z)),
  wf s → Forall is_size_t sizes →
  claimAll AlignBytesNeeded sizes s = Ok (rs, s') →
  rs.*2 = sizes ∧
  contiguousFrom (base s + lengthBytes_ s) rs ∧
  lengthBytes_ s' = lengthBytes_ s + total sizes ∧
  wf s' ∧ capacityBytes_ s' = capacityBytes_ s.
Proof.
  induction sizes as [| n rest IH]; intros s s' rs Hwf Hsz; simpl.
  - intros [= <- <-]. unfold total. simpl. split_and!; try done. lia.
  - inversion Hsz as [| ? ? Hn Hrest]; subst.
    destruct (claimSpace AlignBytesNeeded n s) as [[b s1] | | | |] eqn:Hc;
      simpl; try done.
    destruct (claimAll AlignBytesNeeded rest s1) as [[rs1 s2] | | | |] eqn:Hr;
      simpl; try done.
    intros [= <- <-].
    apply claimSpace_inv in Hc as (-> & Hl1 & Hc1 & Hb1 & Hwf1); [| done | done].
    apply IH in Hr as (Hsizes & Hcont & Hl2 & Hwf2 & Hc2); [| done | done].
    unfold base in *. split_and!.
    + rewrite fmap_cons. simpl. by f_equal.
    + simpl. split; [done |].
      rewrite Hb1, Hl1, Z.add_assoc in Hcont. exact Hcont.
    + unfold total in *. simpl. lia.
    + done.
    + congruence.
Qed.

Lemma claimAll_fits (sizes : list Z) : ∀ s : t,
  wf s → Forall is_size_t sizes →
  Forall (λ n, AlignBytesNeeded n = n) sizes →
  capacityBytes_ s ≠ UINT32_MAX →
  lengthBytes_ s + total sizes ≤ capacityBytes_ s →
  ∃ rs s', claimAll AlignBytesNeeded sizes s = Ok (rs, s').
Proof.
  induction sizes as [| n rest IH]; intros s Hwf Hsz Hal Hcap Hfit; simpl.
  - eauto.
  - inversion Hsz as [| ? ? Hn Hrest]; subst.
    inversion Hal as [| ? ? Han Halrest]; subst.
    pose proof (total_nonneg rest Hrest) as Hpos.
    change (total (n :: rest)) with (n + total rest) in Hfit.
    destruct (hasSpace_total AlignBytesNeeded n s Han Hcap) as [ok Hok].
    pose proof (hasSpace_sound _ _ _ _ Hwf Hn Hok) as ->.
    rewrite bool_decide_eq_true_2 in Hok by lia.
    destruct (claimSpace AlignBytesNeeded n s) as [[b s1] | | | |] eqn:Hc.
    2-5: unfold claimSpace in Hc; by rewrite Hok in Hc.
    apply claimSpace_inv in Hc as (-> & Hl1 & Hc1 & Hb1 & Hwf1); [| done | done].
    destruct (IH s1) as (rs & s' & Hrun); [done | done | done | congruence | lia |].
    simpl. rewrite Hrun. simpl. eauto.
Qed.

(** X2. The ranges a run of claims hands out come in the order of the claims,
    have the sizes asked for and follow one another without a gap from
    [base + lengthBytes] on; [lengthBytes] grows by the sum of the sizes,
    which therefore fits in the capacity; and a run of page-aligned claims
    whose sum fits is served in full. *)
Theorem claimAll_tiles (sizes : list Z) (s : t) :
  wf s → Forall is_size_t sizes →
  (∀ rs s', claimAll AlignBytesNeeded sizes s = Ok (rs, s') →
     rs.*2 = sizes ∧
     contiguousFrom (base s + lengthBytes_ s) rs ∧
     lengthBytes_ s' = lengthBytes_ s + total sizes ∧
     lengthBytes_ s + total sizes ≤ capacityBytes_ s) ∧
  (Forall (λ n, AlignBytesNeeded n = n) sizes →
   capacityBytes_ s ≠ UINT32_MAX →
   lengthBytes_ s + total sizes ≤ capacityBytes_ s →
     ∃ rs s', claimAll AlignBytesNeeded sizes s = Ok (rs, s')).
Proof.
  intros Hwf Hsz. split.
  - intros rs s' Hrun.
    apply claimAll_tiles_from in Hrun as (Hs & Hc & Hl & Hwf' & Hcap);
      [| done | done].
    split_and!; [done | done | done |].
    destruct Hwf' as (_ & _ & Hle). lia.
  - intros Hal Hcap Hfit. by apply claimAll_fits.
Qed.

End CodeSegmentMore.

Lemma claimSpace_without_room_witness :
  CodeSegment.wf (CodeSegment.mk 0x100000 0xf000 0x10000) ∧
  @CodeSegment.claimSpace debugBuild pageAlign 0x2000
     (CodeSegment.mk 0x100000 0xf000 0x10000) = Crash.
Proof.
  assert (CodeSegment.wf (CodeSegment.mk 0x100000 0xf000 0x10000)) as Hwf
    by by_computation.
  assert (@is_size_t debugBuild 0x2000) as Hsz by by_computation.
  split; [exact Hwf |].
  apply (@claimSpace_without_room debugBuild pageAlign 0x2000
           (CodeSegment.mk 0x100000 0xf000 0x10000) Hwf Hsz);
    by_computation.
Defined.

Lemma claimAll_tiles_witness :
  CodeSegment.wf lazySegment ∧
  ∃ rs s', @CodeSegment.claimAll debugBuild pageAlign [0x1000; 0x3000; 0] lazySegment
             = Ok (rs, s') ∧
           rs = [(0x100000, 0x1000); (0x101000, 0x3000); (0x104000, 0)] ∧
           CodeSegment.lengthBytes_ s' = 0x4000.
Proof.
  assert (CodeSegment.wf lazySegment) as Hwf by by_computation.
  assert (Forall (@is_size_t debugBuild) [0x1000; 0x3000; 0]) as Hsz
    by (repeat constructor; by_computation).
  destruct (@claimAll_tiles debugBuild pageAlign [0x1000; 0x3000; 0] lazySegment
              Hwf Hsz) as [Hshape _].
  split; [exact Hwf |].
  eexists _, _. split; [reflexivity |]. split; [reflexivity |].
  exact (proj1 (proj2 (proj2 (Hshape _ _ eq_refl)))).
Defined.

(** ** FuncToCodeRangeMap: a dense array behind a bounds check *)

Section FuncToCodeRangeMore.
Import FuncToCodeRangeMap.
Implicit Types (m : t).

Lemma slot_in_range (funcIndex : Z) m :
  is_u32 (startFuncIndex_ m) → is_u32 funcIndex →
  startFuncIndex_ m ≤ funcIndex →
  slot funcIndex m = funcIndex - startFuncIndex_ m.
Proof.
  unfold is_u32, UINT32_MAX, slot, u32. intros Hs Hf Hle.
  apply Z.mod_small. lia.
Qed.

Lemma denseHasFuncIndex_spec (funcIndex : Z) m :
  is_u32 (startFuncIndex_ m) → is_u32 funcIndex →
  denseHasFuncIndex funcIndex m = true ↔
  startFuncIndex_ m ≤ funcIndex < startFuncIndex_ m + numEntries m.
Proof.
  intros Hs Hf. unfold denseHasFuncIndex, numEntries.
  rewrite andb_true_iff, Z.leb_le, Z.ltb_lt. split.
  - intros [Hle Hlt]. rewrite slot_in_range in Hlt by done. lia.
  - intros [Hle Hlt]. rewrite slot_in_range by done. lia.
Qed.

(** X3. A successful [insert] is read back by [lookup], and it changes the
    answer for no other function index and neither the first index nor the
    number of entries of the map. *)
Theorem insert_then_lookup (funcIndex codeRangeIndex : Z) m m' :
  is_u32 (startFuncIndex_ m) → is_u32 funcIndex →
  insert funcIndex codeRangeIndex m = (true, m') →
  lookup funcIndex m' = codeRangeIndex ∧
  (∀ other, is_u32 other → other ≠ funcIndex → lookup other m' = lookup other m) ∧
  startFuncIndex_ m' = startFuncIndex_ m ∧ numEntries m' = numEntries m.
Proof.
  intros Hs Hf. unfold insert.
  destruct (denseHasFuncIndex funcIndex m) eqn:Hin; [| done].
  intros [= <-].
  pose proof Hin as Hrange. apply denseHasFuncIndex_spec in Hrange; [| done | done].
  assert (∀ g, denseHasFuncIndex g
                 (mk (startFuncIndex_ m)
                    (<[Z.to_nat (slot funcIndex m) := codeRangeIndex]>
                       (funcToCodeRange_ m)))
               = denseHasFuncIndex g m) as Hsame.
  { intros g. unfold denseHasFuncIndex, slot. simpl. by rewrite length_insert. }
  unfold numEntries in *. split_and!.
  - unfold lookup. rewrite Hsame, Hin. unfold slot at 1. simpl.
    fold (slot funcIndex m). rewrite list_lookup_insert_eq; [done |].
    rewrite slot_in_range by (try done; lia). lia.
  - intros other Ho Hne. unfold lookup. rewrite Hsame.
    destruct (denseHasFuncIndex other m) eqn:Hother; [| done].
    apply denseHasFuncIndex_spec in Hother; [| done | done].
    unfold slot at 1. simpl. fold (slot other m).
    rewrite list_lookup_insert_ne; [done |].
    unfold numEntries in Hother.
    rewrite !slot_in_range by (try done; lia). lia.
  - done.
  - simpl. by rewrite length_insert.
Qed.

(** X4. A function index outside [startFuncIndex, startFuncIndex + numEntries)
    is refused everywhere: [insert] returns [false] and leaves the map as it
    is, [lookup] answers [BAD_CODE_RANGE], and [insertInfallible] stops the
    process.  Inside that range [insert] returns [true]. *)
Theorem outside_dense_range (funcIndex codeRangeIndex : Z) m :
  is_u32 (startFuncIndex_ m) → is_u32 funcIndex →
  (¬ startFuncIndex_ m ≤ funcIndex < startFuncIndex_ m + numEntries m →
     insert funcIndex codeRangeIndex m = (false, m) ∧
     lookup funcIndex m = BAD_CODE_RANGE ∧
     insertInfallible funcIndex codeRangeIndex m = Crash) ∧
  (startFuncIndex_ m ≤ funcIndex < startFuncIndex_ m + numEntries m →
     ∃ m', insert funcIndex codeRangeIndex m = (true, m') ∧
           insertInfallible funcIndex codeRangeIndex m = Ok m').
Proof.
  intros Hs Hf. pose proof (denseHasFuncIndex_spec funcIndex m Hs Hf) as Hspec.
  unfold insertInfallible, insert, lookup. split.
  - intros Hout. destruct (denseHasFuncIndex funcIndex m); [| done].
    exfalso. apply Hout. by apply Hspec.
  - intros Hin. apply Hspec in Hin. rewrite Hin. eauto.
Qed.

Lemma insertAll_slots_shape (entries : list (Z * Z)) : ∀ m m',
  insertAll entries m = Ok m' →
  startFuncIndex_ m' = startFuncIndex_ m ∧
  length (funcToCodeRange_ m') = length (funcToCodeRange_ m).
Proof.
  induction entries as [| [f c] rest IH]; intros m m'; simpl.
  - by intros [= <-].
  - unfold insertInfallible, insert.
    destruct (denseHasFuncIndex f m); simpl; [| done].
    intros Hrun. apply IH in Hrun as [Hstart Hlen]. simpl in *.
    by rewrite length_insert in Hlen.
Qed.

Lemma insertAll_slots (entries : list (Z * Z)) : ∀ m m',
  Forall (λ e, e.2 ≠ BAD_CODE_RANGE) entries →
  insertAll entries m = Ok m' →
  startFuncIndex_ m' = startFuncIndex_ m ∧
  length (funcToCodeRange_ m') = length (funcToCodeRange_ m) ∧
  ∀ (k : nat) v, funcToCodeRange_ m' !! k = Some v →
    v ≠ BAD_CODE_RANGE ∨
    (funcToCodeRange_ m !! k = Some v ∧
     Forall (λ e, Z.to_nat (slot e.1 m) ≠ k) entries).
Proof.
  induction entries as [| [f c] rest IH]; intros m m' Hgood; simpl.
  - intros [= <-]. split_and!; [done | done |]. intros k v Hk. right. by split.
  - inversion Hgood as [| ? ? Hc Hrest]; subst. simpl in Hc.
    unfold insertInfallible, insert.
    destruct (denseHasFuncIndex f m) eqn:Hin; simpl; [| done].
    intros Hrun. apply IH in Hrun as (Hstart & Hlen & Hslots); [| done].
    simpl in *. rewrite length_insert in Hlen. split_and!; [done | done |].
    intros k v Hk. destruct (Hslots k v Hk) as [Hv | [Hold Hnever]]; [by left |].
    destruct (decide (Z.to_nat (slot f m) = k)) as [<- | Hne].
    + left. apply list_lookup_insert_Some in Hold as [(_ & <- & _) | (Hne & _)];
        done.
    + right. rewrite list_lookup_insert_ne in Hold by done.
      split; [done |]. constructor; [done |].
      eapply Forall_impl; [exact Hnever |]. by intros [f' c'].
Qed.

Lemma insert_reads (f c g : Z) m m' :
  is_u32 (startFuncIndex_ m) → is_u32 f → is_u32 g →
  insert f c m = (true, m') →
  lookup g m' = (if decide (f = g) then c else lookup g m) ∧
  startFuncIndex_ m' = startFuncIndex_ m.
Proof.
  intros Hs Hf Hg. unfold insert.
  destruct (denseHasFuncIndex f m) eqn:Hin; [| done]. intros [= <-].
  split; [| done].
  apply denseHasFuncIndex_spec in Hin as Hrange; [| done | done].
  unfold numEntries in Hrange.
  assert (denseHasFuncIndex g
            (mk (startFuncIndex_ m)
               (<[Z.to_nat (slot f m) := c]> (funcToCodeRange_ m)))
          = denseHasFuncIndex g m) as Hsame.
  { unfold denseHasFuncIndex, slot. simpl. by rewrite length_insert. }
  unfold lookup. rewrite Hsame. unfold slot at 1. simpl. fold (slot g m).
  destruct (decide (f = g)) as [<- | Hne].
  - rewrite Hin. rewrite list_lookup_insert_eq; [done |].
    rewrite slot_in_range by (try done; lia). lia.
  - destruct (denseHasFuncIndex g m) eqn:Hother; [| done].
    apply denseHasFuncIndex_spec in Hother; [| done | done].
    unfold numEntries in Hother.
    rewrite list_lookup_insert_ne; [done |].
    rewrite !slot_in_range by (try done; lia). lia.
Qed.

Lemma insertAll_reads (entries : list (Z * Z)) : ∀ m m' (g : Z),
  is_u32 (startFuncIndex_ m) → Forall (λ e, is_u32 e.1) entries → is_u32 g →
  insertAll entries m = Ok m' →
  lookup g m' = default (lookup g m) (lastInserted g entries).
Proof.
  induction entries as [| [f c] rest IH]; intros m m' g Hs Hu Hg; simpl.
  - by intros [= <-].
  - inversion Hu as [| ? ? Hf Hrest]; subst. simpl in Hf.
    unfold insertInfallible.
    destruct (insert f c m) as [[] m1] eqn:Hins; simpl; [| done].
    intros Hrun.
    destruct (insert_reads f c g m m1 Hs Hf Hg Hins) as [Hread Hstart].
    rewrite (IH m1 m' g) by (try done; by rewrite Hstart).
    destruct (lastInserted g rest); simpl; [done |].
    rewrite Hread. by destruct (decide (f = g)).
Qed.

(** X5. [createDense] yields a map whose every slot holds [BAD_CODE_RANGE]:
    [lookup] answers the sentinel for every index.  After a run of
    [insertInfallible] on it, [lookup] answers for every function index the
    code-range index inserted last for it, and the sentinel if none was.
    Once a code-range index other than the sentinel has been stored for
    every function index of the range, no slot holds the sentinel and
    [assertAllInitialized] passes, in builds with and without DEBUG. *)
Theorem createDense_then_fill `{Build} (startFuncIndex numFuncs : Z)
    (entries : list (Z * Z)) m0 m :
  is_u32 startFuncIndex → is_u32 numFuncs →
  Forall (λ e, is_u32 e.1) entries →
  createDense true startFuncIndex numFuncs = Some m0 →
  insertAll entries m0 = Ok m →
  (∀ funcIndex, lookup funcIndex m0 = BAD_CODE_RANGE) ∧
  numEntries m = numFuncs ∧
  (∀ funcIndex, is_u32 funcIndex →
     lookup funcIndex m
       = default BAD_CODE_RANGE (lastInserted funcIndex entries)) ∧
  (Forall (λ e, e.2 ≠ BAD_CODE_RANGE) entries →
   (∀ funcIndex, startFuncIndex ≤ funcIndex < startFuncIndex + numFuncs →
      funcIndex ∈ entries.*1) →
   allInitialized m ∧ assertAllInitialized m = Ok ()).
Proof.
  intros Hs Hn Hu [= <-] Hrun.
  assert (∀ funcIndex,
            lookup funcIndex
              (mk startFuncIndex (replicate (Z.to_nat numFuncs) BAD_CODE_RANGE))
            = BAD_CODE_RANGE) as Hfresh.
  { intros funcIndex. unfold lookup.
    destruct (denseHasFuncIndex _ _); [| done]. simpl.
    destruct (replicate _ _ !! _) as [v |] eqn:Hv; [| done].
    by apply lookup_replicate in Hv as [-> _]. }
  split; [exact Hfresh |].
  split.
  { apply insertAll_slots_shape in Hrun as [_ Hlen]. simpl in Hlen.
    rewrite length_replicate in Hlen.
    unfold numEntries, is_u32 in *. rewrite Hlen. lia. }
  split.
  { intros funcIndex Hf.
    rewrite (insertAll_reads entries
               (mk startFuncIndex (replicate (Z.to_nat numFuncs) BAD_CODE_RANGE))
               m funcIndex Hs Hu Hf Hrun).
    by rewrite Hfresh. }
  intros Hgood Hcover.
  apply insertAll_slots in Hrun as (Hstart & Hlen & Hslots); [| done].
  simpl in *. rewrite length_replicate in Hlen.
  unfold is_u32, UINT32_MAX in *.
  assert (allInitialized m) as Hall.
  { unfold allInitialized. apply Forall_lookup. intros k v Hk.
    destruct (Hslots k v Hk) as [Hv | [_ Hnever]]; [done |].
    exfalso. apply lookup_lt_Some in Hk. rewrite Hlen in Hk.
    specialize (Hcover (startFuncIndex + Z.of_nat k) ltac:(lia)).
    apply list_elem_of_fmap in Hcover as ([f c] & Hf & Hin). simpl in Hf.
    rewrite Forall_forall in Hnever. apply (Hnever _ Hin). simpl.
    unfold slot, u32. simpl. rewrite <- Hf.
    replace (startFuncIndex + Z.of_nat k - startFuncIndex) with (Z.of_nat k) by lia.
    rewrite Z.mod_small by lia. lia. }
  split; [done |].
  unfold assertAllInitialized. destruct DEBUG; [| done].
  by apply assertEach_pass.
Qed.

End FuncToCodeRangeMore.

Lemma insert_then_lookup_witness :
  is_u32 (FuncToCodeRangeMap.startFuncIndex_ (FuncToCodeRangeMap.mk 3 [7; 8; 9])) ∧
  FuncToCodeRangeMap.insert 4 21 (FuncToCodeRangeMap.mk 3 [7; 8; 9])
    = (true, FuncToCodeRangeMap.mk 3 [7; 21; 9]) ∧
  FuncToCodeRangeMap.lookup 4 (FuncToCodeRangeMap.mk 3 [7; 21; 9]) = 21.
Proof.
  assert (is_u32 3) as Hs by by_computation.
  assert (is_u32 4) as Hf by by_computation.
  split; [exact Hs |]. split; [reflexivity |].
  exact (proj1 (insert_then_lookup 4 21 (FuncToCodeRangeMap.mk 3 [7; 8; 9])
                  (FuncToCodeRangeMap.mk 3 [7; 21; 9]) Hs Hf eq_refl)).
Defined.

Lemma outside_dense_range_witness :
  is_u32 3 ∧ is_u32 2 ∧
  FuncToCodeRangeMap.insert 2 21 (FuncToCodeRangeMap.mk 3 [7; 8; 9])
    = (false, FuncToCodeRangeMap.mk 3 [7; 8; 9]) ∧
  FuncToCodeRangeMap.lookup 2 (FuncToCodeRangeMap.mk 3 [7; 8; 9]) = BAD_CODE_RANGE ∧
  FuncToCodeRangeMap.insertInfallible 2 21 (FuncToCodeRangeMap.mk 3 [7; 8; 9]) = Crash.
Proof.
  assert (is_u32 3) as Hs by by_computation.
  assert (is_u32 2) as Hf by by_computation.
  split; [exact Hs |]. split; [exact Hf |].
  apply (proj1 (outside_dense_range 2 21 (FuncToCodeRangeMap.mk 3 [7; 8; 9]) Hs Hf)).
  unfold FuncToCodeRangeMap.numEntries. simpl. lia.
Defined.

Lemma createDense_then_fill_witness :
  is_u32 3 ∧ is_u32 2 ∧
  FuncToCodeRangeMap.createDense true 3 2
    = Some (FuncToCodeRangeMap.mk 3 [BAD_CODE_RANGE; BAD_CODE_RANGE]) ∧
  FuncToCodeRangeMap.insertAll [(4, 11); (3, 10); (4, 12)]
    (FuncToCodeRangeMap.mk 3 [BAD_CODE_RANGE; BAD_CODE_RANGE])
    = Ok (FuncToCodeRangeMap.mk 3 [10; 12]) ∧
  FuncToCodeRangeMap.lookup 4 (FuncToCodeRangeMap.mk 3 [10; 12]) = 12 ∧
  FuncToCodeRangeMap.lookup 5 (FuncToCodeRangeMap.mk 3 [10; 12]) = BAD_CODE_RANGE ∧
  FuncToCodeRangeMap.allInitialized (FuncToCodeRangeMap.mk 3 [10; 12]) ∧
  @FuncToCodeRangeMap.assertAllInitialized debugBuild
    (FuncToCodeRangeMap.mk 3 [10; 12]) = Ok ().
Proof.
  assert (is_u32 3) as Hs by by_computation.
  assert (is_u32 2) as Hn by by_computation.
  assert (is_u32 4) as H4 by by_computation.
  assert (is_u32 5) as H5 by by_computation.
  assert (Forall (λ e : Z * Z, is_u32 e.1) [(4, 11); (3, 10); (4, 12)]) as Hu
    by (repeat constructor; by_computation).
  assert (Forall (λ e : Z * Z, e.2 ≠ BAD_CODE_RANGE) [(4, 11); (3, 10); (4, 12)])
    as Hgood by (repeat constructor; by_computation).
  assert (∀ funcIndex, 3 ≤ funcIndex < 3 + 2 →
            funcIndex ∈ [(4, 11); (3, 10); (4, 12)].*1) as Hcover.
  { intros f Hf. assert (f = 3 ∨ f = 4) as [-> | ->] by lia.
    - right. left.
    - left. }
  destruct (@createDense_then_fill debugBuild 3 2 [(4, 11); (3, 10); (4, 12)]
              (FuncToCodeRangeMap.mk 3 [BAD_CODE_RANGE; BAD_CODE_RANGE])
              (FuncToCodeRangeMap.mk 3 [10; 12])
              Hs Hn Hu eq_refl eq_refl) as (_ & _ & Hread & Hfull).
  destruct (Hfull Hgood Hcover) as [Hall Hassert].
  split; [exact Hs |]. split; [exact Hn |]. split; [reflexivity |].
  split; [reflexivity |]. split; [exact (Hread 4 H4) |].
  split; [exact (Hread 5 H5) |]. split; [exact Hall | exact Hassert].
Defined.

(** ** CodeBlock: kinds and tiers *)

Section CodeBlockTiers.
Context `{Build} `{Tiers}.
Import CodeBlock.

(** X6. [tier] undoes [kindFromTier] on the two tiers that have code blocks,
    and [kindFromTier] undoes [tier] on the two kinds that stand for a tier
    (the enumerators being distinct); for the kinds that hold stubs [tier]
    stops the process; and without DEBUG every tier other than [Optimized]
    is taken for [Baseline]. *)
Theorem tier_kindFromTier (cb : t) :
  Baseline ≠ Optimized →
  (∀ t' k, t' = Baseline ∨ t' = Optimized →
     kindFromTier t' = Ok k → kind cb = k → tier cb = Ok t') ∧
  (∀ t', tier cb = Ok t' → kindFromTier t' = Ok (kind cb)) ∧
  (kind cb = SharedStubs ∨ kind cb = LazyStubs → tier cb = Crash) ∧
  (DEBUG = false → ∀ t', t' ≠ Optimized → kindFromTier t' = Ok BaselineTier).
Proof.
  intros Hdiff. unfold kindFromTier, tier, MOZ_ASSERT. split_and!.
  - intros t' k [-> | ->] Hk Hkind; rewrite Hkind.
    + destruct (decide (Baseline = Optimized)); [done |].
      rewrite bool_decide_eq_true_2 in Hk by done.
      destruct DEBUG; by injection Hk as <-.
    + destruct (decide (Optimized = Optimized)); [| done].
      by injection Hk as <-.
  - intros t'. destruct (kind cb); intros [= <-].
    + destruct (decide (Baseline = Optimized)); [done |].
      rewrite bool_decide_eq_true_2 by done. by destruct DEBUG.
    + by destruct (decide (Optimized = Optimized)).
  - by intros [-> | ->].
  - intros -> t' Hne. by destruct (decide (t' = Optimized)).
Qed.

End CodeBlockTiers.

Lemma tier_kindFromTier_witness :
  @Baseline twoTiers ≠ @Optimized twoTiers ∧
  @CodeBlock.kindFromTier debugBuild twoTiers TierOptimized = Ok OptimizedTier ∧
  @CodeBlock.tier twoTiers
     (CodeBlock.create OptimizedTier 0x1000 0x500 FuncToCodeRangeMap.empty [])
    = Ok (TierOptimized : @Tier twoTiers).
Proof.
  assert (@Baseline twoTiers ≠ @Optimized twoTiers) as Hdiff by discriminate.
  destruct (@tier_kindFromTier debugBuild twoTiers
              (CodeBlock.create OptimizedTier 0x1000 0x500 FuncToCodeRangeMap.empty [])
              Hdiff) as (Hround & _).
  split; [exact Hdiff |]. split; [reflexivity |].
  exact (Hround TierOptimized OptimizedTier (or_intror eq_refl) eq_refl eq_refl).
Defined.

(** ** LinkData: emptiness and clearing *)

Section LinkDataFacts.
Import LinkData.

Lemma SymbolicLinkArray_isEmpty_spec (a : SymbolicLinkArray) :
  SymbolicLinkArray_isEmpty a = true ↔ Forall (λ offsets, offsets = []) a.
Proof.
  unfold SymbolicLinkArray_isEmpty. rewrite forallb_forall, Forall_forall.
  split; intros Hall offsets Hin.
  - apply list_elem_of_In in Hin. apply Hall in Hin.
    apply Nat.eqb_eq in Hin. by destruct offsets.
  - apply list_elem_of_In in Hin. by rewrite (Hall _ Hin).
Qed.

(** X7. [isEmpty] holds exactly when there is no internal link and no offset
    under any symbolic address.  [clear] makes it hold, keeps one (empty)
    vector per symbolic address and keeps [trapOffset]; clearing twice is
    clearing once. *)
Theorem clear_isEmpty (ld : t) :
  (isEmpty ld = true ↔
     internalLinks ld = [] ∧ Forall (λ offsets, offsets = []) (symbolicLinks ld)) ∧
  isEmpty (clear ld) = true ∧
  length (symbolicLinks (clear ld)) = length (symbolicLinks ld) ∧
  trapOffset (clear ld) = trapOffset ld ∧
  clear (clear ld) = clear ld.
Proof.
  split_and!.
  - unfold isEmpty. rewrite andb_true_iff, SymbolicLinkArray_isEmpty_spec.
    rewrite Nat.eqb_eq. split; intros [Hi Hs]; (split; [| done]).
    + by destruct (internalLinks ld).
    + by rewrite Hi.
  - unfold isEmpty, clear. simpl. apply SymbolicLinkArray_isEmpty_spec.
    unfold SymbolicLinkArray_clear. apply Forall_fmap, Forall_true. done.
  - unfold clear, SymbolicLinkArray_clear. simpl. by rewrite length_fmap.
  - done.
  - unfold clear, SymbolicLinkArray_clear. simpl. f_equal.
    rewrite <- list_fmap_compose. by apply list_fmap_ext.
Qed.

End LinkDataFacts.

(** ** ThreadSafeCodeBlockMap: what readers see after the writers *)

Section BlockMapMore.
Context `{Build}.
Variable lookupRange : CodeBlock.t → Z → Z.
Import ThreadSafeCodeBlockMap.
Implicit Types (cb cs : CodeBlock.t) (v : list CodeBlock.t) (m : t).

Lemma counter_at_rest : 0 ≤ 0 < 2 ^ SIZE_BITS - 1.
Proof. pose proof pow_size_ge. lia. Qed.

(** [lookup], with the outcome of its search named. *)
Lemma lookup_by_search (wantRange : bool) (pc : Z) m (found : bool) (idx : nat) :
  0 ≤ numActiveLookups_ m < 2 ^ SIZE_BITS - 1 →
  search (deref (readonlyCodeBlocks_ m) m) pc = Ok (found, idx) →
  (found = true → is_Some (deref (readonlyCodeBlocks_ m) m !! idx)) →
  let result := if found then deref (readonlyCodeBlocks_ m) m !! idx else None in
  lookup lookupRange wantRange pc m
    = Ok (m, result, storedFor lookupRange wantRange pc result).
Proof.
  intros Hn Hrun Hhit.
  assert (usize (numActiveLookups_ m + 1) = numActiveLookups_ m + 1) as Hinc.
  { unfold usize. apply Z.mod_small. lia. }
  assert (usize (numActiveLookups_ m + 1 - 1) = numActiveLookups_ m) as Hdec.
  { unfold usize.
    replace (numActiveLookups_ m + 1 - 1) with (numActiveLookups_ m) by lia.
    apply Z.mod_small. lia. }
  assert (MOZ_ASSERT (0 <? numActiveLookups_ m + 1) = Ok ()) as Hassert.
  { unfold MOZ_ASSERT.
    destruct (Z.ltb_spec 0 (numActiveLookups_ m + 1)); [| lia].
    by destruct DEBUG. }
  unfold lookup, storedFor.
  destruct m as [mtx s1 s2 pm pr n]. simpl in *.
  rewrite Hinc, Hassert. unfold setNumActiveLookups. simpl. rewrite Hdec.
  destruct pr; simpl in *; rewrite Hrun; simpl; destruct found; simpl; try done.
  all: destruct (Hhit eq_refl) as [cb Hcb]; unfold Vector.at_; by rewrite Hcb.
Qed.

(** In a sorted, disjoint vector at most one block contains a given [pc]. *)
Lemma unique_container v (pc : Z) cb1 cb2 :
  sortedDisjoint v → cb1 ∈ v → cb2 ∈ v →
  CodeBlock.containsCodePC pc cb1 = true →
  CodeBlock.containsCodePC pc cb2 = true → cb1 = cb2.
Proof.
  intros Hs H1 H2 Hc1 Hc2.
  apply list_elem_of_lookup in H1 as (i & Hi).
  apply list_elem_of_lookup in H2 as (j & Hj).
  apply containsCodePC_range in Hc1. apply containsCodePC_range in Hc2.
  destruct (Nat.lt_total i j) as [Hlt | [-> | Hgt]]; [| congruence |].
  - pose proof (sortedDisjoint_lookup v i j cb1 cb2 Hs Hlt Hi Hj) as Hb.
    unfold before in Hb. lia.
  - pose proof (sortedDisjoint_lookup v j i cb2 cb1 Hs Hgt Hj Hi) as Hb.
    unfold before in Hb. lia.
Qed.

Lemma blockContaining_None v (pc : Z) :
  blockContaining pc v = None ↔
  ∀ cb, cb ∈ v → CodeBlock.containsCodePC pc cb = false.
Proof.
  unfold blockContaining. induction v as [| x v IH]; simpl.
  - split; [| done]. intros _ cb Hin. by apply elem_of_nil in Hin.
  - destruct (CodeBlock.containsCodePC pc x) eqn:Hx.
    + split; [done |]. intros Hall. specialize (Hall x ltac:(left)). congruence.
    + rewrite IH. split.
      * intros Hall cb Hin. apply elem_of_cons in Hin as [-> | Hin]; auto.
      * intros Hall cb Hin. apply Hall. by right.
Qed.

Lemma blockContaining_Some v (pc : Z) cb :
  blockContaining pc v = Some cb →
  cb ∈ v ∧ CodeBlock.containsCodePC pc cb = true.
Proof.
  unfold blockContaining. intros Hf. apply find_some in Hf as [Hin Hc].
  split; [by apply list_elem_of_In | done].
Qed.

Lemma blockContaining_unique v (pc : Z) cb :
  sortedDisjoint v → cb ∈ v → CodeBlock.containsCodePC pc cb = true →
  blockContaining pc v = Some cb.
Proof.
  intros Hs Hin Hc.
  destruct (blockContaining pc v) as [x |] eqn:Hf.
  - apply blockContaining_Some in Hf as [Hx Hcx].
    f_equal. by apply (unique_container v pc).
  - rewrite blockContaining_None in Hf. rewrite (Hf cb Hin) in Hc. done.
Qed.

(** On a sorted, disjoint vector the bisection finds what a scan finds. *)
Lemma search_scan v (pc : Z) (found : bool) (idx : nat) :
  sortedDisjoint v → search v pc = Ok (found, idx) →
  (found = true → is_Some (v !! idx)) ∧
  (if found then v !! idx else None) = blockContaining pc v.
Proof.
  intros Hs Hrun.
  destruct (search_total v pc) as (found' & idx' & Hrun' & _ & Hhit).
  rewrite Hrun in Hrun'. injection Hrun' as <- <-.
  destruct found.
  - destruct (Hhit eq_refl) as (cb & Hcb & Hc).
    split; [by rewrite Hcb |]. rewrite Hcb. symmetry.
    apply blockContaining_unique; [done | | done].
    apply list_elem_of_lookup. eauto.
  - split; [done |]. symmetry. apply blockContaining_None.
    apply search_miss in Hrun as [Hleft Hright]; [| done].
    intros cb Hin. apply list_elem_of_lookup in Hin as (j & Hj).
    destruct (CodeBlock.containsCodePC pc cb) eqn:Hc; [| done].
    apply CodeBlockPC_zero in Hc.
    destruct (Nat.lt_ge_cases j idx) as [Hlt | Hge].
    + apply Hleft in Hj; [lia | done].
    + apply Hright in Hj; [lia | done].
Qed.

Lemma lookup_scan (wantRange : bool) (pc : Z) m :
  0 ≤ numActiveLookups_ m < 2 ^ SIZE_BITS - 1 →
  sortedDisjoint (deref (readonlyCodeBlocks_ m) m) →
  lookup lookupRange wantRange pc m
    = Ok (m, blockContaining pc (deref (readonlyCodeBlocks_ m) m),
          storedFor lookupRange wantRange pc
            (blockContaining pc (deref (readonlyCodeBlocks_ m) m))).
Proof.
  intros Hn Hs.
  destruct (search_total (deref (readonlyCodeBlocks_ m) m) pc)
    as (found & idx & Hrun & _ & _).
  destruct (search_scan _ _ _ _ Hs Hrun) as [Hhit Hscan].
  rewrite (lookup_by_search wantRange pc m found idx Hn Hrun Hhit).
  by rewrite Hscan.
Qed.

(** X8. On a published vector that is sorted and disjoint [lookup] misses
    nothing: it returns a block exactly when that block is registered and
    contains [pc], and [nullptr] exactly when no registered block contains
    [pc]; what it returns is what a scan of the vector from the left
    finds. *)
Theorem lookup_finds_registered_block (wantRange : bool) (pc : Z) m :
  0 ≤ numActiveLookups_ m < 2 ^ SIZE_BITS - 1 →
  sortedDisjoint (deref (readonlyCodeBlocks_ m) m) →
  ∃ result,
    lookup lookupRange wantRange pc m
      = Ok (m, result, storedFor lookupRange wantRange pc result) ∧
    result = blockContaining pc (deref (readonlyCodeBlocks_ m) m) ∧
    (∀ cb, result = Some cb ↔
           cb ∈ deref (readonlyCodeBlocks_ m) m ∧
           CodeBlock.containsCodePC pc cb = true) ∧
    (result = None ↔
       ∀ cb, cb ∈ deref (readonlyCodeBlocks_ m) m →
             CodeBlock.containsCodePC pc cb = false).
Proof.
  intros Hn Hs. eexists. split; [by apply lookup_scan |].
  split; [done |]. split.
  - intros cb. split.
    + apply blockContaining_Some.
    + intros [Hin Hc]. by apply blockContaining_unique.
  - apply blockContaining_None.
Qed.

Lemma blockContaining_insert v1 v2 cs (pc : Z) :
  sortedDisjoint (v1 ++ cs :: v2) →
  blockContaining pc (v1 ++ cs :: v2)
    = if CodeBlock.containsCodePC pc cs then Some cs
      else blockContaining pc (v1 ++ v2).
Proof.
  intros Hs. destruct (CodeBlock.containsCodePC pc cs) eqn:Hc.
  - apply blockContaining_unique; [done | | done].
    apply elem_of_app. right. left.
  - clear Hs. unfold blockContaining.
    induction v1 as [| x v1 IH]; simpl; [by rewrite Hc |].
    by destruct (CodeBlock.containsCodePC pc x).
Qed.

Lemma blockContaining_delete v (idx : nat) cs (pc : Z) :
  sortedDisjoint v → v !! idx = Some cs → 0 < CodeBlock.length cs →
  blockContaining pc (delete idx v)
    = if CodeBlock.containsCodePC pc cs then None else blockContaining pc v.
Proof.
  intros Hs Hidx Hlen.
  rewrite <- (take_drop_middle v idx cs Hidx) in Hs |- * at 2.
  assert (delete idx v = take idx v ++ drop (S idx) v) as ->
    by apply delete_take_drop.
  rewrite blockContaining_insert by done.
  destruct (CodeBlock.containsCodePC pc cs) eqn:Hc; [| done].
  apply blockContaining_None. intros cb Hin.
  destruct (CodeBlock.containsCodePC pc cb) eqn:Hcb; [| done]. exfalso.
  assert (cb = cs) as ->.
  { apply (unique_container _ pc _ _ Hs); [| | done | done].
    - apply elem_of_app in Hin as [Hin | Hin]; apply elem_of_app;
        [by left | right; by right].
    - apply elem_of_app. right. left. }
  apply StronglySorted_app in Hs as (Hcross & _ & Hr).
  apply StronglySorted_cons in Hr as [Hafter _].
  apply elem_of_app in Hin as [Hin | Hin].
  - specialize (Hcross cs cs Hin ltac:(left)). unfold before in Hcross. lia.
  - rewrite Forall_forall in Hafter. specialize (Hafter cs Hin).
    unfold before in Hafter. lia.
Qed.

End BlockMapMore.

Section BlockMapWriters.
Context `{Build}.
Variable lookupRange : CodeBlock.t → Z → Z.
Import ThreadSafeCodeBlockMap.
Implicit Types (cb cs : CodeBlock.t) (v : list CodeBlock.t) (m : t).

(** What a completed [insert] leaves, on a map at rest. *)
Lemma insert_settles (alloc1 alloc2 : bool) cs m m' :
  quiescent m → sortedDisjoint (segments1_ m) →
  Forall (apart cs) (segments1_ m) →
  insert alloc1 alloc2 cs m = Ok (m', true) →
  ∃ idx : nat, (idx ≤ length (segments1_ m))%nat ∧
    m' = settled (take idx (segments1_ m) ++ cs :: drop idx (segments1_ m)) m ∧
    sortedDisjoint (take idx (segments1_ m) ++ cs :: drop idx (segments1_ m)).
Proof.
  intros Hq Hs Hapart.
  destruct (search_total (segments1_ m) (CodeBlock.base cs))
    as (found & idx & Hrun & Hidx & _).
  rewrite (insert_run _ _ _ _ _ _ Hq Hrun Hidx).
  destruct (DEBUG && found); [done |].
  destruct alloc1; [destruct alloc2; [| done] | done].
  intros [= <-]. exists idx. split_and!; [done | done |].
  apply fits_sortedDisjoint; [done |]. by apply (search_fits _ _ found).
Qed.

Lemma insert_succeeds cs m :
  quiescent m → Forall (apart cs) (segments1_ m) → 0 < CodeBlock.length cs →
  ∃ m', insert true true cs m = Ok (m', true).
Proof.
  intros Hq Hapart Hlen.
  destruct (search_total (segments1_ m) (CodeBlock.base cs))
    as (found & idx & Hrun & Hidx & _).
  rewrite (insert_run _ _ _ _ _ _ Hq Hrun Hidx).
  rewrite (search_fresh _ _ _ _ Hapart Hlen Hrun), andb_false_r. eauto.
Qed.

(** X9. After [insert] has registered a block, [lookup] returns that block
    for every [pc] inside it and, for every other [pc], what a lookup would
    have found before the insertion. *)
Theorem lookup_after_insert (alloc1 alloc2 : bool) cs m m' :
  quiescent m → sortedDisjoint (segments1_ m) →
  Forall (apart cs) (segments1_ m) →
  insert alloc1 alloc2 cs m = Ok (m', true) →
  ∀ (wantRange : bool) (pc : Z),
    let result := if CodeBlock.containsCodePC pc cs then Some cs
                  else blockContaining pc (segments1_ m) in
    lookup lookupRange wantRange pc m'
      = Ok (m', result, storedFor lookupRange wantRange pc result).
Proof.
  intros Hq Hs Hapart Hrun wantRange pc.
  destruct (insert_settles _ _ _ _ _ Hq Hs Hapart Hrun) as (idx & Hidx & -> & Hnew).
  rewrite (lookup_scan lookupRange wantRange pc); simpl.
  - rewrite deref_settled. rewrite blockContaining_insert by done.
    by rewrite take_drop.
  - apply counter_at_rest.
  - by rewrite deref_settled.
Qed.

(** X10. After [remove] has unregistered a block with code, [lookup] returns
    [nullptr] for every [pc] inside it and, for every other [pc], what a
    lookup would have found before; and [remove] returns the number of
    blocks left. *)
Theorem lookup_after_remove cs m :
  quiescent m → sortedDisjoint (segments1_ m) →
  cs ∈ segments1_ m → 0 < CodeBlock.length cs →
  ∃ m', remove cs m = Ok (m', (length (segments1_ m) - 1)%nat) ∧
    ∀ (wantRange : bool) (pc : Z),
      let result := if CodeBlock.containsCodePC pc cs then None
                    else blockContaining pc (segments1_ m) in
      lookup lookupRange wantRange pc m'
        = Ok (m', result, storedFor lookupRange wantRange pc result).
Proof.
  intros Hq Hs Hin Hlen.
  destruct (search_hit _ _ Hs Hin Hlen) as (idx & Hrun & Hidx).
  rewrite (remove_run _ _ _ _ Hq Hrun). rewrite andb_false_r.
  apply lookup_lt_Some in Hidx as Hlt. apply Nat.ltb_lt in Hlt as Hltb.
  rewrite Hltb. eexists. split.
  - f_equal. f_equal. rewrite length_delete; [done |]. by rewrite Hidx.
  - intros wantRange pc. rewrite (lookup_scan lookupRange wantRange pc); simpl.
    + rewrite deref_settled. by rewrite (blockContaining_delete _ _ cs).
    + apply counter_at_rest.
    + rewrite deref_settled. by apply delete_sortedDisjoint.
Qed.

Lemma settled_twice v m :
  quiescent m → settled (segments1_ m) (settled v m) = m.
Proof.
  intros [Hm Hn _ Hsame]. destruct m as [mtx s1 s2 pm pr n].
  simpl in *. by subst.
Qed.

(** X11. Registering a block with code and unregistering it again gives the
    map back as it was, both vectors and both pointers, and the second call
    returns the old number of blocks. *)
Theorem remove_after_insert cs m :
  quiescent m → sortedDisjoint (segments1_ m) →
  Forall (apart cs) (segments1_ m) → 0 < CodeBlock.length cs →
  ∃ m1, insert true true cs m = Ok (m1, true) ∧
        remove cs m1 = Ok (m, length (segments1_ m)).
Proof.
  intros Hq Hs Hapart Hlen.
  destruct (insert_succeeds cs m Hq Hapart Hlen) as [m1 Hins].
  exists m1. split; [done |].
  destruct (insert_settles _ _ _ _ _ Hq Hs Hapart Hins) as (idx & Hidx & -> & Hnew).
  set (new := take idx (segments1_ m) ++ cs :: drop idx (segments1_ m)) in *.
  assert (quiescent (settled new m)) as Hq1
    by (apply settled_quiescent, (q_pointers m Hq)).
  assert (new !! idx = Some cs) as Hat.
  { unfold new. rewrite lookup_app_r by (rewrite length_take; lia).
    rewrite length_take. by replace (idx - idx `min` length (segments1_ m))%nat
      with 0%nat by lia. }
  assert (cs ∈ new) as Hin by (apply list_elem_of_lookup; eauto).
  destruct (search_hit new cs Hnew Hin Hlen) as (k & Hrun & Hk).
  assert (k = idx) as ->.
  { destruct (Nat.lt_total k idx) as [Hlt | [-> | Hgt]]; [| done |].
    - pose proof (sortedDisjoint_lookup new k idx cs cs Hnew Hlt Hk Hat) as Hb.
      unfold before in Hb. lia.
    - pose proof (sortedDisjoint_lookup new idx k cs cs Hnew Hgt Hat Hk) as Hb.
      unfold before in Hb. lia. }
  rewrite (remove_run cs (settled new m) true idx Hq1 Hrun).
  rewrite andb_false_r. simpl.
  apply lookup_lt_Some in Hat as Hlt. apply Nat.ltb_lt in Hlt as Hltb.
  rewrite Hltb.
  assert (delete idx new = segments1_ m) as Hold.
  { unfold new. rewrite delete_take_drop.
    rewrite take_app_le by (rewrite length_take; lia).
    rewrite take_take. replace (idx `min` idx)%nat with idx by lia.
    replace (S idx) with (length (take idx (segments1_ m)) + 1)%nat
      by (rewrite length_take; lia).
    rewrite drop_app_add. simpl. rewrite drop_0. apply take_drop. }
  rewrite Hold. f_equal. f_equal.
  change (settled (segments1_ m) (settled new m) = m). by apply settled_twice.
Qed.

(** X12. A writer never completes a mutation while another holds the mutex or
    a lookup is in flight: [remove] does not return, and [insert] returns
    only where its first allocation fails, with [false] and the map as it
    was. *)
Theorem writers_wait (alloc1 alloc2 : bool) cs m :
  mutatorsMutex_ m = true ∨ 0 < numActiveLookups_ m →
  (∀ m' n, remove cs m ≠ Ok (m', n)) ∧
  (∀ m' r, insert alloc1 alloc2 cs m = Ok (m', r) →
     r = false ∧ alloc1 = false ∧ m' = m) ∧
  (mutatorsMutex_ m = true →
     insert alloc1 alloc2 cs m = Spin ∧ remove cs m = Spin).
Proof.
  intros Hbusy. destruct m as [mtx s1 s2 pm pr n]. simpl in *.
  unfold remove, removeFirst, insert, insertFirst, lock. simpl.
  destruct mtx; simpl; [split_and!; done |].
  assert ((0 <? n) = true) as Hn.
  { destruct Hbusy as [? | Hpos]; [done |]. by apply Z.ltb_lt. }
  assert (∀ v', swapAndWait (assign pm v' (setMutex true (mk false s1 s2 pm pr n)))
                = Spin) as Hspin.
  { intros v'. unfold swapAndWait, swapped. by destruct pm; simpl; rewrite Hn. }
  set (v := deref pm _).
  destruct (search v (CodeBlock.base cs)) as [[found idx] | | | |]; simpl.
  2-5: split_and!; done.
  split_and!; [| | done].
  - intros m' k. destruct (MOZ_ALWAYS_TRUE found); simpl; try done.
    destruct (Vector.erase idx v); simpl; try done.
    by rewrite Hspin.
  - intros m' r. destruct (MOZ_ALWAYS_FALSE found); simpl; try done.
    unfold Vector.insert.
    destruct (idx <=? length v)%nat; simpl; [| unfold outOfBounds; by destruct DEBUG].
    destruct alloc1; simpl.
    + by rewrite Hspin.
    + by intros [= <- <-].
Qed.

End BlockMapWriters.

Section BlockMapRegistration.
Context `{Build}.
Import ThreadSafeCodeBlockMap.
Implicit Types (cb cs : CodeBlock.t) (v : list CodeBlock.t) (m : t).

Lemma apart_sym cs cb : apart cs cb → apart cb cs.
Proof. unfold apart. tauto. Qed.

Lemma pairwiseApart_perm v v' : v ≡ₚ v' → pairwiseApart v → pairwiseApart v'.
Proof.
  induction 1 as [| x l l' Hperm IH | x y l | l l' l'' _ IH1 _ IH2]; simpl.
  - done.
  - intros [Hx Hl]. split; [by rewrite <- Hperm | by apply IH].
  - intros [Hy [Hx Hl]]. apply Forall_cons in Hy as [Hyx Hy].
    split_and!; [| done | done].
    constructor; [by apply apart_sym | done].
  - auto.
Qed.

Lemma insertAll_run (blocks : list CodeBlock.t) : ∀ m,
  quiescent m → sortedDisjoint (segments1_ m) →
  pairwiseApart blocks →
  Forall (λ cs, Forall (apart cs) (segments1_ m)) blocks →
  Forall (λ cs, 0 < CodeBlock.length cs) blocks →
  ∃ m', insertAll blocks m = Ok m' ∧ quiescent m' ∧
        sortedDisjoint (segments1_ m') ∧
        segments1_ m' ≡ₚ blocks ++ segments1_ m.
Proof.
  induction blocks as [| cs rest IH]; intros m Hq Hs Hpw Hold Hlen; simpl.
  - by exists m.
  - destruct Hpw as [Hcs Hpw].
    inversion Hold as [| ? ? Hcsold Hrestold]; subst.
    inversion Hlen as [| ? ? Hcslen Hrestlen]; subst.
    destruct (insert_succeeds cs m Hq Hcsold Hcslen) as [m1 Hins].
    rewrite Hins. simpl.
    destruct (insert_settles _ _ _ _ _ Hq Hs Hcsold Hins)
      as (idx & Hidx & -> & Hnew).
    set (new := take idx (segments1_ m) ++ cs :: drop idx (segments1_ m)) in *.
    assert (new ≡ₚ cs :: segments1_ m) as Hperm.
    { unfold new. rewrite <- Permutation_middle. by rewrite take_drop. }
    destruct (IH (settled new m)) as (m' & Hrun & Hq' & Hs' & Hperm').
    + apply settled_quiescent, (q_pointers m Hq).
    + done.
    + done.
    + simpl. rewrite Forall_forall in Hcs, Hrestold |- *.
      intros c Hc. rewrite Hperm. constructor; [| by apply Hrestold].
      by apply apart_sym, Hcs.
    + done.
    + exists m'. split_and!; [done | done | done |].
      rewrite Hperm'. simpl. rewrite Hperm. by rewrite Permutation_middle.
Qed.

(** X13. Registering, on an empty map, blocks with code that are pairwise
    disjoint leaves a map at rest whose vectors are sorted and disjoint and
    hold exactly the blocks registered; the order of the registrations does
    not matter for the vector that results. *)
Theorem insertAll_sorts (blocks : list CodeBlock.t) :
  pairwiseApart blocks → Forall (λ cs, 0 < CodeBlock.length cs) blocks →
  ∃ m, insertAll blocks create = Ok m ∧ quiescent m ∧
       sortedDisjoint (segments1_ m) ∧ segments1_ m ≡ₚ blocks ∧
       ∀ blocks', blocks' ≡ₚ blocks →
         ∃ m', insertAll blocks' create = Ok m' ∧ segments1_ m' = segments1_ m.
Proof.
  intros Hpw Hlen.
  assert (quiescent create) as Hq0 by (split; done).
  assert (sortedDisjoint (segments1_ create)) as Hs0 by constructor.
  assert (∀ l : list CodeBlock.t,
            Forall (λ cs, Forall (apart cs) (segments1_ create)) l) as Hnone.
  { intros l. apply Forall_true. intros cs. constructor. }
  destruct (insertAll_run blocks create Hq0 Hs0 Hpw (Hnone _) Hlen)
    as (m & Hrun & Hq & Hs & Hperm).
  simpl in Hperm. rewrite app_nil_r in Hperm.
  exists m. split_and!; [done | done | done | done |].
  intros blocks' Hb.
  destruct (insertAll_run blocks' create Hq0 Hs0) as (m' & Hrun' & _ & Hs' & Hperm').
  - by apply (pairwiseApart_perm blocks).
  - apply Hnone.
  - by rewrite Hb.
  - simpl in Hperm'. rewrite app_nil_r in Hperm'.
    exists m'. split; [done |].
    apply (StronglySorted_unique_strong before); [| done | done |].
    + intros x1 x2 Hx1 _ H12 H21. exfalso.
      rewrite Hperm', Hb in Hx1. rewrite Forall_forall in Hlen.
      specialize (Hlen x1 Hx1). pose proof (length_nonneg x2).
      unfold before in *. lia.
    + by rewrite Hperm', Hb, Hperm.
Qed.

End BlockMapRegistration.

(** ** JumpTables: racing installers, untouched slots, bounds *)

Section JumpTablesMore.
Context `{Build} `{CompileModes}.
Import JumpTables.
Implicit Types (jt : t) (tp : TablePointer).

Lemma store_other (i v j : Z) tp tp' :
  store i v tp = Ok tp' → 0 ≤ j → i ≠ j →
  slots tp' !! Z.to_nat j = slots tp !! Z.to_nat j ∧
  addr tp' = addr tp ∧ length (slots tp') = length (slots tp).
Proof.
  unfold store, inRange. destruct (Z.leb_spec 0 i); simpl; [| done].
  destruct (_ <? _); [| done]. intros [= <-] Hj Hne. simpl.
  rewrite length_insert. split_and!; [| done | done].
  apply list_lookup_insert_ne. lia.
Qed.

Lemma store_shape (i v : Z) tp tp' :
  store i v tp = Ok tp' →
  addr tp' = addr tp ∧ length (slots tp') = length (slots tp).
Proof.
  unfold store. destruct (inRange i tp); [| done]. intros [= <-]. simpl.
  by rewrite length_insert.
Qed.

(** X14. Of several [setJitEntryIfNull] calls for one slot the first one with
    a stub wins: after it the slot is non-null (the stub just given if the
    slot was null, the old value otherwise), and every later
    [setJitEntryIfNull] for that slot leaves the jump tables as they are. *)
Theorem setJitEntryIfNull_first_wins (i first later : Z) jt jt1 :
  first ≠ 0 →
  setJitEntryIfNull i first jt = Ok jt1 →
  (∃ old v, jitEntry i jt = Some old ∧ jitEntry i jt1 = Some v ∧ v ≠ 0 ∧
            v = (if old =? 0 then first else old)) ∧
  setJitEntryIfNull i later jt1 = Ok jt1.
Proof.
  intros Hfirst. unfold setJitEntryIfNull, jitEntry.
  destruct (MOZ_ASSERT (i <? numFuncs_ jt)) as [[] | | | |] eqn:Hassert;
    simpl; try done.
  unfold load. destruct (inRange i (jit_ jt)) eqn:Hin; simpl; [| done].
  destruct (slots (jit_ jt) !! Z.to_nat i) as [old |] eqn:Hold; simpl; [| done].
  destruct (Z.eqb_spec old 0) as [-> | Hne].
  - unfold store. rewrite Hin. simpl. intros [= <-]. simpl.
    assert (<[Z.to_nat i := first]> (slots (jit_ jt)) !! Z.to_nat i = Some first)
      as Hnew.
    { apply list_lookup_insert_eq. by apply lookup_lt_Some in Hold. }
    split; [exists 0, first; by rewrite Hnew |].
    rewrite Hassert. simpl.
    unfold inRange in *. simpl. rewrite length_insert, Hin, Hnew. simpl.
    by destruct (Z.eqb_spec first 0).
  - intros [= <-]. split.
    + exists old, old. split_and!; try done. by destruct (Z.eqb_spec old 0).
    + rewrite Hassert. simpl. rewrite Hin, Hold. simpl.
      by destruct (Z.eqb_spec old 0).
Qed.

Lemma step_frame (o : op) jt jt' :
  step o jt = Ok jt' →
  numFuncs_ jt' = numFuncs_ jt ∧ mode_ jt' = mode_ jt ∧
  addr (jit_ jt') = addr (jit_ jt) ∧ addr (tiering_ jt') = addr (tiering_ jt) ∧
  length (slots (jit_ jt')) = length (slots (jit_ jt)) ∧
  length (slots (tiering_ jt')) = length (slots (tiering_ jt)) ∧
  ∀ j, 0 ≤ j → opIndex o ≠ j →
    jitEntry j jt' = jitEntry j jt ∧ tieringEntry j jt' = tieringEntry j jt.
Proof.
  unfold jitEntry, tieringEntry.
  destruct o as [i target | i target | i target]; simpl.
  - unfold setJitEntry. destruct (MOZ_ASSERT _); simpl; try done.
    destruct (store i target (jit_ jt)) as [jit | | | |] eqn:Hst; simpl; try done.
    intros [= <-]. simpl. destruct (store_shape _ _ _ _ Hst) as [Ha Hl].
    split_and!; try done. intros j Hj Hne.
    by destruct (store_other _ _ j _ _ Hst Hj Hne) as (-> & _).
  - unfold setJitEntryIfNull. destruct (MOZ_ASSERT _); simpl; try done.
    destruct (load _ _); simpl; try done.
    destruct (_ =? _); [| by intros [= <-]].
    destruct (store i target (jit_ jt)) as [jit | | | |] eqn:Hst; simpl; try done.
    intros [= <-]. simpl. destruct (store_shape _ _ _ _ Hst) as [Ha Hl].
    split_and!; try done. intros j Hj Hne.
    by destruct (store_other _ _ j _ _ Hst Hj Hne) as (-> & _).
  - unfold setTieringEntry. destruct (MOZ_ASSERT _); simpl; try done.
    destruct (decide _); [| by intros [= <-]].
    destruct (store i target (tiering_ jt)) as [tiering | | | |] eqn:Hst;
      simpl; try done.
    intros [= <-]. simpl. destruct (store_shape _ _ _ _ Hst) as [Ha Hl].
    split_and!; try done. intros j Hj Hne.
    by destruct (store_other _ _ j _ _ Hst Hj Hne) as (-> & _).
Qed.

(** X15. A run of table writers changes nothing but the slots it names: the
    mode, the function count, the place and the size of both tables stay,
    so well-formed jump tables stay well-formed, and every slot that no
    operation of the run names holds what it held, in both tables. *)
Theorem run_frame (ops : list op) jt jt' :
  run ops jt = Ok jt' →
  numFuncs_ jt' = numFuncs_ jt ∧ mode_ jt' = mode_ jt ∧
  addr (jit_ jt') = addr (jit_ jt) ∧ addr (tiering_ jt') = addr (tiering_ jt) ∧
  length (slots (jit_ jt')) = length (slots (jit_ jt)) ∧
  length (slots (tiering_ jt')) = length (slots (tiering_ jt)) ∧
  (wf jt → wf jt') ∧
  ∀ j, 0 ≤ j → Forall (λ o, opIndex o ≠ j) ops →
    jitEntry j jt' = jitEntry j jt ∧ tieringEntry j jt' = tieringEntry j jt.
Proof.
  revert jt. induction ops as [| o rest IH]; intros jt; simpl.
  - intros [= <-]. split_and!; done.
  - destruct (step o jt) as [jt1 | | | |] eqn:Hstep; simpl; try done.
    intros Hrun.
    apply step_frame in Hstep as (Hn1 & Hm1 & Ha1 & Hat1 & Hl1 & Hlt1 & Hf1).
    apply IH in Hrun as (Hn & Hm & Ha & Hat & Hl & Hlt & Hwf & Hf).
    split_and!; try congruence.
    + unfold wf in *. rewrite Hn, Hn1, Hl, Hl1 in *. auto.
    + intros j Hj Hall. inversion Hall as [| ? ? Ho Hrest]; subst.
      destruct (Hf j Hj Hrest) as [-> ->]. by apply Hf1.
Qed.

(** X16. An index past the last function never reaches the jit-entry table
    of well-formed jump tables: [setJitEntry], [setJitEntryIfNull] and
    [getAddressOfJitEntry] stop a DEBUG build at their assertion, and without
    DEBUG the two writers access memory outside the table.
    [getAddressOfJitEntry] for a slot that holds [nullptr] stops a DEBUG
    build too; without DEBUG it returns the address of the slot. *)
Theorem jit_table_bounds (i target : Z) jt :
  wf jt → numFuncs_ jt ≤ i →
  setJitEntry i target jt = outOfBounds ∧
  setJitEntryIfNull i target jt = outOfBounds ∧
  (DEBUG = true → getAddressOfJitEntry i jt = AssertFail) ∧
  (∀ k, jitEntry k jt = Some 0 → 0 ≤ k < numFuncs_ jt →
     getAddressOfJitEntry k jt
       = if DEBUG then AssertFail else Ok (slotAddress k (jit_ jt))).
Proof.
  intros [[Hn0 _] Hlen] Hi.
  unfold setJitEntry, setJitEntryIfNull, getAddressOfJitEntry, outOfBounds,
    MOZ_ASSERT, load, store, inRange, jitEntry.
  rewrite Hlen. destruct (Z.ltb_spec i (numFuncs_ jt)); [lia |].
  rewrite andb_false_r. split_and!.
  - by destruct DEBUG.
  - by destruct DEBUG.
  - by intros ->.
  - intros k Hk Hrange. rewrite Hk.
    destruct (Z.ltb_spec k (numFuncs_ jt)); [| lia].
    destruct (Z.leb_spec 0 k); [| lia]. by destruct DEBUG.
Qed.

End JumpTablesMore.

(** ** Code: metadata lookups go through the block map *)

Section CodeLookupFacts.
Context `{Build}.
Variable lookupRange : CodeBlock.t → Z → Z.
Variable blockLookupCallSite : CodeBlock.t → Z → Z.
Variable isFunction : Z → bool.
Import ThreadSafeCodeBlockMap CodeLookup.

(** X17. [Code::lookupCallSite] and [Code::lookupFuncRange] leave the block
    map as it is and answer from one block, which is registered and contains
    [pc]: [lookupCallSite] returns what that block's [lookupCallSite] finds,
    [lookupFuncRange] what its [lookupRange] finds if that is a range of a
    function and [nullptr] otherwise; where no such block is found both
    return [nullptr].  On a sorted, disjoint vector the block is the one a
    scan finds, so a [pc] inside a registered block is never answered with
    [nullptr] for lack of a block. *)
Theorem Code_lookups_delegate (pc : Z) (blockMap : ThreadSafeCodeBlockMap.t) :
  0 ≤ numActiveLookups_ blockMap < 2 ^ SIZE_BITS - 1 →
  ∃ block : option CodeBlock.t,
    (∀ cb, block = Some cb →
       cb ∈ deref (readonlyCodeBlocks_ blockMap) blockMap ∧
       CodeBlock.containsCodePC pc cb = true) ∧
    (sortedDisjoint (deref (readonlyCodeBlocks_ blockMap) blockMap) →
       block = blockContaining pc (deref (readonlyCodeBlocks_ blockMap) blockMap)) ∧
    lookupCallSite lookupRange blockLookupCallSite pc blockMap
      = Ok (blockMap, match block with
                      | Some cb => blockLookupCallSite cb pc
                      | None => 0
                      end) ∧
    lookupFuncRange lookupRange isFunction pc blockMap
      = Ok (blockMap, match block with
                      | Some cb =>
                          if isFunction (lookupRange cb pc)
                          then lookupRange cb pc else 0
                      | None => 0
                      end) ∧
    (∀ range, lookupFuncRange lookupRange isFunction pc blockMap
                = Ok (blockMap, range) →
       range ≠ 0 →
       isFunction range = true ∧
       ∃ cb, block = Some cb ∧ range = lookupRange cb pc).
Proof.
  intros Hn.
  destruct (search_total (deref (readonlyCodeBlocks_ blockMap) blockMap) pc)
    as (found & idx & Hrun & _ & Hhit).
  assert (found = true →
          is_Some (deref (readonlyCodeBlocks_ blockMap) blockMap !! idx)) as Hsome.
  { intros Hf. destruct (Hhit Hf) as (cb & -> & _). eauto. }
  pose proof (lookup_by_search lookupRange false pc blockMap found idx
                Hn Hrun Hsome) as Hlookup.
  simpl in Hlookup.
  set (block := if found then deref (readonlyCodeBlocks_ blockMap) blockMap !! idx
                else None) in *.
  assert (lookupFuncRange lookupRange isFunction pc blockMap
          = Ok (blockMap, match block with
                          | Some cb =>
                              if isFunction (lookupRange cb pc)
                              then lookupRange cb pc else 0
                          | None => 0
                          end)) as Hfunc.
  { unfold lookupFuncRange. rewrite Hlookup. simpl. destruct block as [cb |]; [| done].
    destruct (Z.eqb_spec (lookupRange cb pc) 0) as [Hz | Hnz]; simpl.
    - rewrite Hz. by destruct (isFunction 0).
    - by destruct (isFunction (lookupRange cb pc)). }
  exists block. split_and!.
  - intros cb Hb. unfold block in Hb. destruct found; [| done].
    destruct (Hhit eq_refl) as (cb' & Hcb' & Hc). rewrite Hcb' in Hb.
    injection Hb as <-. split; [| done]. apply list_elem_of_lookup. eauto.
  - intros Hs. by destruct (search_scan _ _ _ _ Hs Hrun) as [_ <-].
  - unfold lookupCallSite. rewrite Hlookup. simpl. by destruct block.
  - exact Hfunc.
  - intros range. rewrite Hfunc. intros [= <-].
    destruct block as [cb |]; [| done].
    destruct (isFunction (lookupRange cb pc)) eqn:Hfn; [| done].
    intros _. split; [done |]. by exists cb.
Qed.

End CodeLookupFacts.

(** ** Instances on the concrete data *)

Lemma lookup_finds_registered_block_witness :
  0 ≤ ThreadSafeCodeBlockMap.numActiveLookups_ registeredMap
    < 2 ^ @SIZE_BITS debugBuild - 1 ∧
  ThreadSafeCodeBlockMap.sortedDisjoint threeBlocks ∧
  ∃ result,
    @ThreadSafeCodeBlockMap.lookup debugBuild noRanges true 0x2200 registeredMap
      = Ok (registeredMap, result,
            ThreadSafeCodeBlockMap.storedFor noRanges true 0x2200 result) ∧
    result = Some (blockAt 0x2000 0x500).
Proof.
  assert (0 ≤ ThreadSafeCodeBlockMap.numActiveLookups_ registeredMap
            < 2 ^ @SIZE_BITS debugBuild - 1) as Hn by by_computation.
  split; [exact Hn |]. split; [exact threeBlocks_sorted |].
  destruct (@lookup_finds_registered_block debugBuild noRanges true 0x2200
              registeredMap Hn threeBlocks_sorted)
    as (result & Hrun & Hresult & _).
  exists result. split; [exact Hrun | exact Hresult].
Defined.

Lemma blockAt_has_code (cbase : Z) : 0 < CodeBlock.length (blockAt cbase 0x100).
Proof. reflexivity. Defined.

Lemma lookup_after_insert_witness :
  ThreadSafeCodeBlockMap.quiescent registeredMap ∧
  ThreadSafeCodeBlockMap.sortedDisjoint threeBlocks ∧
  Forall (ThreadSafeCodeBlockMap.apart (blockAt 0x2800 0x100)) threeBlocks ∧
  ∃ m', @ThreadSafeCodeBlockMap.insert debugBuild true true
          (blockAt 0x2800 0x100) registeredMap = Ok (m', true) ∧
        @ThreadSafeCodeBlockMap.lookup debugBuild noRanges false 0x2850 m'
          = Ok (m', Some (blockAt 0x2800 0x100),
                ThreadSafeCodeBlockMap.storedFor noRanges false 0x2850
                  (Some (blockAt 0x2800 0x100))).
Proof.
  split; [exact registeredMap_quiescent |].
  split; [exact threeBlocks_sorted |]. split; [exact newBlock_apart |].
  destruct (@insert_succeeds debugBuild (blockAt 0x2800 0x100) registeredMap
              registeredMap_quiescent newBlock_apart (blockAt_has_code 0x2800))
    as [m' Hins].
  exists m'. split; [exact Hins |].
  exact (@lookup_after_insert debugBuild noRanges true true
           (blockAt 0x2800 0x100) registeredMap m'
           registeredMap_quiescent threeBlocks_sorted newBlock_apart Hins
           false 0x2850).
Defined.

Lemma lookup_after_remove_witness :
  ThreadSafeCodeBlockMap.quiescent registeredMap ∧
  ThreadSafeCodeBlockMap.sortedDisjoint threeBlocks ∧
  blockAt 0x2000 0x500 ∈ threeBlocks ∧
  0 < CodeBlock.length (blockAt 0x2000 0x500) ∧
  ∃ m', @ThreadSafeCodeBlockMap.remove debugBuild (blockAt 0x2000 0x500)
          registeredMap = Ok (m', 2%nat) ∧
        @ThreadSafeCodeBlockMap.lookup debugBuild noRanges false 0x2200 m'
          = Ok (m', None,
                ThreadSafeCodeBlockMap.storedFor noRanges false 0x2200 None).
Proof.
  assert (blockAt 0x2000 0x500 ∈ threeBlocks) as Hin by (right; left).
  assert (0 < CodeBlock.length (blockAt 0x2000 0x500)) as Hlen by reflexivity.
  split; [exact registeredMap_quiescent |].
  split; [exact threeBlocks_sorted |]. split; [exact Hin |].
  split; [exact Hlen |].
  destruct (@lookup_after_remove debugBuild noRanges (blockAt 0x2000 0x500)
              registeredMap registeredMap_quiescent threeBlocks_sorted Hin Hlen)
    as (m' & Hrun & Hlookup).
  exists m'. split; [exact Hrun | exact (Hlookup false 0x2200)].
Defined.

Lemma remove_after_insert_witness :
  ThreadSafeCodeBlockMap.quiescent registeredMap ∧
  ThreadSafeCodeBlockMap.sortedDisjoint threeBlocks ∧
  Forall (ThreadSafeCodeBlockMap.apart (blockAt 0x2800 0x100)) threeBlocks ∧
  0 < CodeBlock.length (blockAt 0x2800 0x100) ∧
  ∃ m1, @ThreadSafeCodeBlockMap.insert debugBuild true true
          (blockAt 0x2800 0x100) registeredMap = Ok (m1, true) ∧
        @ThreadSafeCodeBlockMap.remove debugBuild (blockAt 0x2800 0x100) m1
          = Ok (registeredMap, 3%nat).
Proof.
  split; [exact registeredMap_quiescent |].
  split; [exact threeBlocks_sorted |]. split; [exact newBlock_apart |].
  split; [exact (blockAt_has_code 0x2800) |].
  exact (@remove_after_insert debugBuild (blockAt 0x2800 0x100) registeredMap
           registeredMap_quiescent threeBlocks_sorted newBlock_apart
           (blockAt_has_code 0x2800)).
Defined.

Lemma writers_wait_witness :
  0 < ThreadSafeCodeBlockMap.numActiveLookups_
        (ThreadSafeCodeBlockMap.setNumActiveLookups 1 registeredMap) ∧
  (∀ m' n, @ThreadSafeCodeBlockMap.remove debugBuild (blockAt 0x2000 0x500)
             (ThreadSafeCodeBlockMap.setNumActiveLookups 1 registeredMap)
           ≠ Ok (m', n)) ∧
  (∀ m' r, @ThreadSafeCodeBlockMap.insert debugBuild true true
             (blockAt 0x2800 0x100)
             (ThreadSafeCodeBlockMap.setNumActiveLookups 1 registeredMap)
           ≠ Ok (m', r)).
Proof.
  assert (0 < ThreadSafeCodeBlockMap.numActiveLookups_
                (ThreadSafeCodeBlockMap.setNumActiveLookups 1 registeredMap))
    as Hbusy by reflexivity.
  split; [exact Hbusy |].
  split.
  - exact (proj1 (@writers_wait debugBuild true true (blockAt 0x2000 0x500)
                    (ThreadSafeCodeBlockMap.setNumActiveLookups 1 registeredMap)
                    (or_intror Hbusy))).
  - intros m' r Hrun.
    destruct (proj1 (proj2 (@writers_wait debugBuild true true
                              (blockAt 0x2800 0x100)
                              (ThreadSafeCodeBlockMap.setNumActiveLookups 1
                                 registeredMap)
                              (or_intror Hbusy))) m' r Hrun) as (_ & Halloc & _).
    discriminate Halloc.
Defined.

Lemma insertAll_sorts_witness :
  ThreadSafeCodeBlockMap.pairwiseApart
    [blockAt 0x3000 0x500; blockAt 0x1000 0x500; blockAt 0x2000 0x500] ∧
  ∃ m, @ThreadSafeCodeBlockMap.insertAll debugBuild
         [blockAt 0x3000 0x500; blockAt 0x1000 0x500; blockAt 0x2000 0x500]
         ThreadSafeCodeBlockMap.create = Ok m ∧
       ThreadSafeCodeBlockMap.sortedDisjoint (ThreadSafeCodeBlockMap.segments1_ m) ∧
       ThreadSafeCodeBlockMap.segments1_ m
         ≡ₚ [blockAt 0x3000 0x500; blockAt 0x1000 0x500; blockAt 0x2000 0x500].
Proof.
  assert (ThreadSafeCodeBlockMap.pairwiseApart
            [blockAt 0x3000 0x500; blockAt 0x1000 0x500; blockAt 0x2000 0x500])
    as Hpw.
  { simpl. split.
    - constructor; [right; vm_compute; discriminate |].
      constructor; [right; vm_compute; discriminate |]. constructor.
    - split; [| split; [constructor | exact I]].
      constructor; [left; vm_compute; discriminate | constructor]. }
  assert (Forall (λ cs, 0 < CodeBlock.length cs)
            [blockAt 0x3000 0x500; blockAt 0x1000 0x500; blockAt 0x2000 0x500])
    as Hlen by (repeat constructor).
  split; [exact Hpw |].
  destruct (@insertAll_sorts debugBuild _ Hpw Hlen)
    as (m & Hrun & _ & Hsorted & Hperm & _).
  exists m. split; [exact Hrun |]. split; [exact Hsorted | exact Hperm].
Defined.

Lemma setJitEntryIfNull_first_wins_witness :
  0x2000 ≠ 0 ∧
  @JumpTables.setJitEntryIfNull debugBuild tier1Modes 1 0x2000 (tablesIn ModeTier1)
    = Ok (JumpTables.mk (ModeTier1 : @CompileMode tier1Modes)
            (JumpTables.mkTable 0x7000 [0; 0; 0])
            (JumpTables.mkTable 0x8000 [0x1000; 0x2000; 0x3000]) 3) ∧
  @JumpTables.setJitEntryIfNull debugBuild tier1Modes 1 0x9000
    (JumpTables.mk (ModeTier1 : @CompileMode tier1Modes)
       (JumpTables.mkTable 0x7000 [0; 0; 0])
       (JumpTables.mkTable 0x8000 [0x1000; 0x2000; 0x3000]) 3)
    = Ok (JumpTables.mk (ModeTier1 : @CompileMode tier1Modes)
            (JumpTables.mkTable 0x7000 [0; 0; 0])
            (JumpTables.mkTable 0x8000 [0x1000; 0x2000; 0x3000]) 3).
Proof.
  assert (0x2000 ≠ 0) as Hstub by discriminate.
  split; [exact Hstub |]. split; [reflexivity |].
  exact (proj2 (@setJitEntryIfNull_first_wins debugBuild tier1Modes 1 0x2000
                  0x9000 (tablesIn ModeTier1) _ Hstub eq_refl)).
Defined.

Lemma run_frame_witness :
  @JumpTables.run debugBuild tier1Modes
    [JumpTables.SetJitEntry 1 0x2000; JumpTables.SetTieringEntry 0 0x5000]
    (tablesIn ModeTier1)
    = Ok (JumpTables.mk (ModeTier1 : @CompileMode tier1Modes)
            (JumpTables.mkTable 0x7000 [0x5000; 0; 0])
            (JumpTables.mkTable 0x8000 [0x1000; 0x2000; 0x3000]) 3) ∧
  JumpTables.jitEntry 2
    (JumpTables.mk (ModeTier1 : @CompileMode tier1Modes)
       (JumpTables.mkTable 0x7000 [0x5000; 0; 0])
       (JumpTables.mkTable 0x8000 [0x1000; 0x2000; 0x3000]) 3)
    = JumpTables.jitEntry 2 (tablesIn ModeTier1).
Proof.
  assert (@JumpTables.run debugBuild tier1Modes
            [JumpTables.SetJitEntry 1 0x2000; JumpTables.SetTieringEntry 0 0x5000]
            (tablesIn ModeTier1)
          = Ok (JumpTables.mk (ModeTier1 : @CompileMode tier1Modes)
                  (JumpTables.mkTable 0x7000 [0x5000; 0; 0])
                  (JumpTables.mkTable 0x8000 [0x1000; 0x2000; 0x3000]) 3))
    as Hrun by reflexivity.
  assert (0 ≤ 2) as Hj by discriminate.
  assert (Forall (λ o, JumpTables.opIndex o ≠ 2)
            [JumpTables.SetJitEntry 1 0x2000;
             JumpTables.SetTieringEntry 0 0x5000]) as Hops
    by (repeat constructor; discriminate).
  split; [exact Hrun |].
  destruct (@run_frame debugBuild tier1Modes _ _ _ Hrun)
    as (_ & _ & _ & _ & _ & _ & _ & Hframe).
  exact (proj1 (Hframe 2 Hj Hops)).
Defined.

Lemma jit_table_bounds_witness :
  @JumpTables.wf debugBuild tier1Modes (tablesIn ModeTier1) ∧
  @JumpTables.setJitEntry debugBuild tier1Modes 3 0x2000 (tablesIn ModeTier1)
    = AssertFail ∧
  @JumpTables.setJitEntry releaseBuild tier1Modes 3 0x2000 (tablesIn ModeTier1)
    = Undefined.
Proof.
  assert (@JumpTables.wf debugBuild tier1Modes (tablesIn ModeTier1)) as Hd
    by by_computation.
  assert (@JumpTables.wf releaseBuild tier1Modes (tablesIn ModeTier1)) as Hr
    by by_computation.
  assert (JumpTables.numFuncs_ (tablesIn ModeTier1) ≤ 3) as Hi by discriminate.
  split; [exact Hd |]. split.
  - exact (proj1 (@jit_table_bounds debugBuild tier1Modes 3 0x2000
                    (tablesIn ModeTier1) Hd Hi)).
  - exact (proj1 (@jit_table_bounds releaseBuild tier1Modes 3 0x2000
                    (tablesIn ModeTier1) Hr Hi)).
Defined.

Lemma Code_lookups_delegate_witness :
  0 ≤ ThreadSafeCodeBlockMap.numActiveLookups_ registeredMap
    < 2 ^ @SIZE_BITS debugBuild - 1 ∧
  @CodeLookup.lookupCallSite debugBuild rangeAt callSiteAt 0x2200 registeredMap
    = Ok (registeredMap, 0x600200) ∧
  @CodeLookup.lookupFuncRange debugBuild rangeAt functionRange 0x2200 registeredMap
    = Ok (registeredMap, 0x500200) ∧
  @CodeLookup.lookupFuncRange debugBuild rangeAt functionRange 0x2450 registeredMap
    = Ok (registeredMap, 0) ∧
  @CodeLookup.lookupFuncRange debugBuild rangeAt functionRange 0x1800 registeredMap
    = Ok (registeredMap, 0).
Proof.
  assert (0 ≤ ThreadSafeCodeBlockMap.numActiveLookups_ registeredMap
            < 2 ^ @SIZE_BITS debugBuild - 1) as Hn by by_computation.
  split; [exact Hn |].
  destruct (@Code_lookups_delegate debugBuild rangeAt callSiteAt functionRange
              0x2200 registeredMap Hn) as (b1 & _ & Hscan1 & Hcall1 & Hfunc1 & _).
  destruct (@Code_lookups_delegate debugBuild rangeAt callSiteAt functionRange
              0x2450 registeredMap Hn) as (b2 & _ & Hscan2 & _ & Hfunc2 & _).
  destruct (@Code_lookups_delegate debugBuild rangeAt callSiteAt functionRange
              0x1800 registeredMap Hn) as (b3 & _ & Hscan3 & _ & Hfunc3 & _).
  rewrite (Hscan1 threeBlocks_sorted) in Hcall1, Hfunc1.
  rewrite (Hscan2 threeBlocks_sorted) in Hfunc2.
  rewrite (Hscan3 threeBlocks_sorted) in Hfunc3.
  split; [exact Hcall1 |]. split; [exact Hfunc1 |].
  split; [exact Hfunc2 | exact Hfunc3].
Defined.
